(** * luppiter-acme: the DNS-01 issuance worker of [src/index.ts]

    A shallow embedding of the worker and of the part of the Node.js
    platform it runs on (promises, timers, callbacks), followed by the
    properties of the workflow.

    - An [async] function is a [task]: a tree of awaited external calls.
    - The external collaborators (acme-client, the gRPC coordinator, the
      DNS resolver) are one environment [Env W]: a state machine over a
      world [W] that answers every call.  The theorems quantify over all
      environments.
    - [Promise.all] over tasks is a pool whose awaited calls complete in
      an order chosen by the environment ([choices]).
    - [waitUntilVerify] is callback code: a [watcher] holds the timers
      and the in-flight DNS queries of one call, and the event loop
      delivers timer and DNS callbacks in an order chosen by the
      environment ([events]).

    What the model leaves out: a call awaited outside [Promise.all] is
    answered at once, the worker having nothing else to do meanwhile;
    once [Promise.all] has rejected, the tasks that are still running
    are not followed any further (the process ends on the unhandled
    rejection); and the DNS callbacks still in flight when the last
    watcher has signalled are not followed either.  The construction of
    the gRPC and ACME client objects is implicit. *)

From Stdlib Require Import NArith ZArith Lia.
From Stdlib.Strings Require Import Ascii String Byte.
From stdpp Require Import base list strings.

Local Open Scope string_scope.

(** ** Data model *)

(** The message of a JavaScript [Error], or the reason of a rejection. *)
Definition error : Type := string.

(** A Node.js [Buffer]. *)
Definition Buffer : Type := list Byte.byte.

(** [{ type: "dns", value: d }] *)
Record identifier : Type := Identifier {
  identifier_type : string;
  identifier_value : string;
}.

(** [acme.Challenge]: the worker reads [type] only. *)
Record challenge : Type := Challenge {
  challenge_type : string;
  challenge_url : string;
  challenge_token : string;
}.

(** [acme.Authorization]: the worker reads [identifier.value] and
    [challenges]. *)
Record authorization : Type := Authorization {
  auth_identifier : identifier;
  auth_challenges : list challenge;
}.

(** [acme.Order]: opaque to the worker. *)
Record order : Type := Order {
  order_url : string;
}.

(** [{ auth, challenge }], an element of [getChallenges(...).challenges]. *)
Record selected : Type := Selected {
  auth : authorization;
  dns01 : challenge;
}.

(** Modelled from the spec: the response message of [registerClient],
    declared in [protos/certificate.proto], which is not among the
    sources.  The spec gives it as [{email}], and [email] is the field
    that [startWorker] reads. *)
Record registration : Type := Registration {
  email : string;
}.

(** Modelled from the spec: the response message of [fetchDomains],
    declared in the same file.  The spec gives it as [{domains[]}], and
    [domains] is the field that [fetchDomains] reads. *)
Record assignment : Type := Assignment {
  domains : list string;
}.

(** [{ key, value }], an expected DNS record. *)
Record record : Type := Record_ {
  key : string;
  value : string;
}.

(** ** Platform functions *)

(** [Buffer.prototype.toString("base64")]: RFC 4648 with padding. *)
Module Base64.

Definition alphabet : list ascii :=
  list_ascii_of_string
    "ABCDEFGHIJKLMNOPQRSTUVWXYZabcdefghijklmnopqrstuvwxyz0123456789+/".

Definition digit (n : N) : ascii :=
  nth (N.to_nat n) alphabet "="%char.

Definition pad : ascii := "="%char.

Fixpoint encode_chars (bs : list Byte.byte) : list ascii :=
  match bs with
  | [] => []
  | [a] =>
      let x := Byte.to_N a in
      [digit (x / 4); digit ((x mod 4) * 16); pad; pad]
  | [a; b] =>
      let x := Byte.to_N a in
      let y := Byte.to_N b in
      [digit (x / 4); digit ((x mod 4) * 16 + y / 16);
       digit ((y mod 16) * 4); pad]
  | a :: b :: c :: rest =>
      let x := Byte.to_N a in
      let y := Byte.to_N b in
      let z := Byte.to_N c in
      digit (x / 4) :: digit ((x mod 4) * 16 + y / 16)
        :: digit ((y mod 16) * 4 + z / 64) :: digit (z mod 64)
        :: encode_chars rest
  end.

Definition encode (bs : Buffer) : string :=
  string_of_list_ascii (encode_chars bs).

End Base64.

(** [Buffer.from(s)]: the bytes of [s].  A JavaScript string is modelled
    by its UTF-8 encoding, so this is the identity on bytes. *)
Definition Buffer_from (s : string) : Buffer := list_byte_of_string s.

(** [buf.toString("base64")] *)
Definition toString_base64 (b : Buffer) : string := Base64.encode b.

(** [Array.prototype.join(",")], which is how a template literal prints
    an array of strings. *)
Fixpoint join_comma (l : list string) : string :=
  match l with
  | [] => ""
  | [s] => s
  | s :: rest => s ++ "," ++ join_comma rest
  end.

(** [Array.prototype.indexOf] on strings: the first index holding [x],
    or [-1]. *)
Fixpoint indexOf (l : list string) (x : string) : Z :=
  match l with
  | [] => (-1)%Z
  | y :: rest =>
      if String.eqb y x then 0%Z
      else
        let i := indexOf rest x in
        if (i =? -1)%Z then (-1)%Z else (i + 1)%Z
  end.

(** [a || b] on an environment variable: [undefined] and the empty
    string are both falsy. *)
Definition or_default (env : option string) (d : string) : string :=
  match env with
  | Some s => if String.eqb s "" then d else s
  | None => d
  end.

(** How a template literal prints a possibly undefined string. *)
Definition show (x : option string) : string :=
  match x with
  | Some s => s
  | None => "undefined"
  end.

(** ** External calls *)

(** Every operation of a collaborator that the worker invokes, with the
    arguments it passes. *)
Inductive call : Type :=
  (* acme-client *)
  | Acme_createPrivateKey
  | Acme_createAccount (termsOfServiceAgreed : bool) (contact : list string)
  | Acme_createOrder (identifiers : list identifier)
  | Acme_getAuthorizations (o : order)
  | Acme_getChallengeKeyAuthorization (c : challenge)
  | Acme_verifyChallenge (a : authorization) (c : challenge)
  | Acme_completeChallenge (c : challenge)
  | Acme_waitForValidStatus (c : challenge)
  | Acme_createCsr (commonName : option string) (altNames : list string)
  | Acme_finalizeOrder (o : order) (csr : Buffer)
  | Acme_getCertificate (o : order)
  (* grpcClient *)
  | Rpc_registerClient (uuid : option string)
  | Rpc_fetchDomains (uuid : option string)
  | Rpc_registerChallenges (uuid : option string) (records : list string)
  | Rpc_verifiedCallback (uuid : option string) (csr privKey certificate : string)
  (* dns *)
  | Dns_resolveCname (name : string)
  | Dns_resolveTxt (name : string).

(** What a call yields when it succeeds. *)
Definition answer (c : call) : Type :=
  match c with
  | Acme_createPrivateKey => Buffer
  | Acme_createAccount _ _ => unit
  | Acme_createOrder _ => order
  | Acme_getAuthorizations _ => list authorization
  | Acme_getChallengeKeyAuthorization _ => string
  | Acme_verifyChallenge _ _ => unit
  | Acme_completeChallenge _ => unit
  | Acme_waitForValidStatus _ => unit
  | Acme_createCsr _ _ => (Buffer * Buffer)%type
  | Acme_finalizeOrder _ _ => unit
  | Acme_getCertificate _ => string
  | Rpc_registerClient _ => registration
  | Rpc_fetchDomains _ => assignment
  | Rpc_registerChallenges _ _ => unit
  | Rpc_verifiedCallback _ _ _ _ => unit
  | Dns_resolveCname _ => list string
  | Dns_resolveTxt _ => list (list string)
  end.

(** The completion of a call: a rejected promise or a callback whose
    first argument is an error, or else the result. *)
Inductive reply (A : Type) : Type :=
  | Failure (e : error)
  | Success (a : A).
Arguments Failure {A} e.
Arguments Success {A} a.

(** The environment: all collaborators together, as a state machine on
    a world [W] that may answer the same call differently each time. *)
Class Env (W : Type) : Type :=
  respond : forall c : call, W -> reply (answer c) * W.

(** What the worker does and what it is told, in order of occurrence. *)
Inductive io : Type :=
  | Call (c : call)
  | Reply (c : call) (r : reply (answer c))
  | Console_log (line : string).

(** ** Async functions *)

(** The body of an [async] function (or of a promise executor around one
    callback API call): it returns, throws, or awaits a call and goes on
    with its completion. *)
Inductive task (A : Type) : Type :=
  | Return (a : A)
  | Throw (e : error)
  | Await (c : call) (k : reply (answer c) -> task A).
Arguments Return {A} a.
Arguments Throw {A} e.
Arguments Await {A} c k.

(** [await c]: a failure is thrown. *)
Definition perform (c : call) : task (answer c) :=
  Await c (fun r => match r with Failure e => Throw e | Success a => Return a end).

Fixpoint task_bind {A B : Type} (f : A -> task B) (t : task A) : task B :=
  match t with
  | Return a => f a
  | Throw e => Throw e
  | Await c k => Await c (fun r => task_bind f (k r))
  end.

#[global] Instance task_mbind : MBind task := @task_bind.
#[global] Instance task_mret : MRet task := @Return.

(** The state of a promise. *)
Inductive promise : Type :=
  | Unsettled
  | Fulfilled
  | Broken (e : error).

(** ** The worker's async functions *)

Section Worker.

(** [process.env.HOST], [process.env.PORT], [process.env.WORKER_UUID] *)
Variables HOST PORT WORKER_UUID : option string.

Definition host : string := or_default HOST "127.0.0.1".
Definition port : string := or_default PORT "50051".
Definition workerUuid : option string := WORKER_UUID.

(** [initialize] (lines 29-45).  The account key goes into the ACME
    client object, which the model leaves implicit. *)
Definition initialize : task registration :=
  privKey ← perform Acme_createPrivateKey;
  Await (Rpc_registerClient workerUuid) (fun r =>
    match r with
    | Failure e => Throw e
    | Success res => Return res
    end).

(** [createAccount] (lines 47-52) *)
Definition createAccount (email : string) : task unit :=
  perform (Acme_createAccount true ["mailto:" ++ email]).

(** [fetchDomains] (lines 54-64) *)
Definition fetchDomains : task (list string) :=
  Await (Rpc_fetchDomains workerUuid) (fun r =>
    match r with
    | Failure e => Throw e
    | Success res => Return (domains res)
    end).

(** The callback of [authorizations.map] in [getChallenges]
    (lines 73-83). *)
Definition select_dns01 (a : authorization) : error + selected :=
  let filters :=
    List.filter (fun c => String.eqb (challenge_type c) "dns-01")
                (auth_challenges a) in
  match filters with
  | [] => inl "Unabled to find dns-01 challenge."
  | c :: _ => inr {| auth := a; dns01 := c |}
  end.

(** [Array.prototype.map] with a callback that may throw: the first
    exception, in array order, ends the traversal. *)
Fixpoint map_throwing {A B : Type} (f : A -> error + B) (l : list A)
  : error + list B :=
  match l with
  | [] => inr []
  | a :: rest =>
      match f a with
      | inl e => inl e
      | inr b =>
          match map_throwing f rest with
          | inl e => inl e
          | inr bs => inr (b :: bs)
          end
      end
  end.

(** [getChallenges] (lines 66-86) *)
Definition getChallenges (domains : list string)
  : task (order * list selected) :=
  let identifiers := map (fun d => {| identifier_type := "dns";
                                      identifier_value := d |}) domains in
  order ← perform (Acme_createOrder identifiers);
  authorizations ← perform (Acme_getAuthorizations order);
  match map_throwing select_dns01 authorizations with
  | inl e => Throw e
  | inr challenges => Return (order, challenges)
  end.

(** [pushRecords] (lines 88-94) *)
Definition pushRecords (records : list record) : task unit :=
  Await (Rpc_registerChallenges workerUuid (map (fun r => value r) records))
    (fun r =>
       match r with
       | Failure e => Throw e
       | Success _ => Return tt
       end).

(** [finalize] (lines 127-131) *)
Definition finalize (c : selected) : task unit :=
  perform (Acme_verifyChallenge (auth c) (dns01 c)) ;;
  perform (Acme_completeChallenge (dns01 c)) ;;
  perform (Acme_waitForValidStatus (dns01 c)).

(** [issue] (lines 133-152).  [domains[0]] is [undefined] on an empty
    array, and [domains.slice(1)] is then empty. *)
Definition issue (domains : list string) (o : order) : task unit :=
  '(key, csr) ← perform (Acme_createCsr (head domains) (drop 1 domains));
  perform (Acme_finalizeOrder o csr) ;;
  cert ← perform (Acme_getCertificate o);
  Await (Rpc_verifiedCallback workerUuid
           (toString_base64 csr)
           (toString_base64 key)
           (toString_base64 (Buffer_from cert)))
    (fun r =>
       match r with
       | Failure e => Throw e
       | Success _ => Return tt
       end).

(** The async callback of [challenges.map] in [startWorker]
    (lines 160-165): the expected record of one challenge. *)
Definition expectedRecord (c : selected) : task record :=
  let key := "_acme-challenge." ++ identifier_value (auth_identifier (auth c)) in
  value ← perform (Acme_getChallengeKeyAuthorization (dns01 c));
  Return {| key := key; value := value |}.

End Worker.

(** ** Watchers: the callbacks of [waitUntilVerify] *)

(** The closure state of one call of [waitUntilVerify]: the arguments
    [k] and [v] that [setInterval] passes to its callback, the interval
    timer ([Some due] while armed), the DNS queries whose callbacks have
    not run yet, the [setTimeout] timers that will call [resolve], and
    the promise it returned. Times are in milliseconds. *)
Record watcher : Type := Watcher {
  w_k : string;
  w_v : string;
  w_interval : option N;
  w_inflight : list call;
  w_timeouts : list N;
  w_promise : promise;
}.

(** [waitUntilVerify] (lines 96-125), called at time [now]: the promise
    is created and the interval is armed; everything else happens in
    callbacks. *)
Definition waitUntilVerify (now : N) (r : record) : watcher :=
  {| w_k := key r;
     w_v := value r;
     w_interval := Some (now + 5 * 1000)%N;
     w_inflight := [];
     w_timeouts := [];
     w_promise := Unsettled |}.

(** The interval callback (line 99): it starts one CNAME query. *)
Definition on_interval (w : watcher) : watcher * list io :=
  ({| w_k := w_k w; w_v := w_v w;
      w_interval := w_interval w;
      w_inflight := w_inflight w ++ [Dns_resolveCname (w_k w)];
      w_timeouts := w_timeouts w;
      w_promise := w_promise w |},
   [Call (Dns_resolveCname (w_k w))]).

(** The callback of [dns.resolveCname] (lines 100-122). *)
Definition on_cname (r : reply (list string)) (w : watcher)
  : watcher * list io :=
  match r with
  | Failure e => (w, [])
  | Success addresses =>
      ({| w_k := w_k w; w_v := w_v w;
          w_interval := w_interval w;
          w_inflight := w_inflight w ++ map Dns_resolveTxt addresses;
          w_timeouts := w_timeouts w;
          w_promise := w_promise w |},
       flat_map (fun addr =>
                   [Console_log ("Found CNAME " ++ w_k w ++ " => " ++ addr);
                    Call (Dns_resolveTxt addr)])
                addresses)
  end.

(** The callback of [dns.resolveTxt] (lines 108-120), run at [now]. *)
Definition on_txt (now : N) (addr : string) (r : reply (list (list string)))
    (w : watcher) : watcher * list io :=
  match r with
  | Failure innerE => (w, [])
  | Success result =>
      let records := concat result in
      let line :=
        Console_log ("Found TXT " ++ addr ++ " => " ++ join_comma records) in
      if negb (indexOf records (w_v w) =? -1)%Z then
        ({| w_k := w_k w; w_v := w_v w;
            w_interval := None;                                 (* clearInterval *)
            w_inflight := w_inflight w;
            w_timeouts := w_timeouts w ++ [(now + 15 * 1000)%N]; (* setTimeout *)
            w_promise := w_promise w |},
         [line])
      else (w, [line])
  end.

(** The callback of [setTimeout] (line 117): [resolve()], which has no
    effect on a settled promise. *)
Definition on_timeout (w : watcher) : watcher :=
  {| w_k := w_k w; w_v := w_v w;
     w_interval := w_interval w;
     w_inflight := w_inflight w;
     w_timeouts := w_timeouts w;
     w_promise := match w_promise w with
                  | Unsettled => Fulfilled
                  | p => p
                  end |}.

Definition with_interval (due : option N) (w : watcher) : watcher :=
  {| w_k := w_k w; w_v := w_v w; w_interval := due;
     w_inflight := w_inflight w; w_timeouts := w_timeouts w;
     w_promise := w_promise w |}.

Definition with_inflight (qs : list call) (w : watcher) : watcher :=
  {| w_k := w_k w; w_v := w_v w; w_interval := w_interval w;
     w_inflight := qs; w_timeouts := w_timeouts w;
     w_promise := w_promise w |}.

Definition with_timeouts (ts : list N) (w : watcher) : watcher :=
  {| w_k := w_k w; w_v := w_v w; w_interval := w_interval w;
     w_inflight := w_inflight w; w_timeouts := ts;
     w_promise := w_promise w |}.

(** Which callback a completed DNS query runs. *)
Definition on_dns (now : N) (c : call)
  : reply (answer c) -> watcher -> watcher * list io :=
  match c with
  | Dns_resolveCname _ => fun r w => on_cname r w
  | Dns_resolveTxt addr => fun r w => on_txt now addr r w
  | _ => fun _ w => (w, [])
  end.

(** ** The event loop *)

(** What the environment decides while watchers are alive: how time
    passes, when a due timer calls back, and in which order the DNS
    queries in flight complete. *)
Inductive event : Type :=
  | Elapse (d : N)               (* [d] milliseconds pass *)
  | IntervalFires (i : nat)      (* the interval timer of watcher [i] *)
  | DnsAnswers (i n : nat)       (* the [n]-th query in flight of watcher [i] *)
  | TimeoutFires (i n : nat).    (* the [n]-th settle timer of watcher [i] *)

(** The result of awaiting a promise, as far as an execution has got. *)
Inductive outcome (A : Type) : Type :=
  | Resolved (a : A)
  | Rejected (e : error)
  | Pending.
Arguments Resolved {A} a.
Arguments Rejected {A} e.
Arguments Pending {A}.

(** The process and its environment. *)
Record state (W : Type) : Type := State {
  world : W;                  (* the collaborators *)
  trace : list io;            (* what has happened so far *)
  now : N;                    (* the clock, in milliseconds *)
  watchers : list watcher;    (* the live calls of [waitUntilVerify] *)
  events : list event;        (* timer and DNS events still to come *)
  choices : list nat;         (* completion order of concurrent awaits *)
}.
Arguments State {W}.
Arguments world {W}.
Arguments trace {W}.
Arguments now {W}.
Arguments watchers {W}.
Arguments events {W}.
Arguments choices {W}.

Section EventLoop.

Context {W : Type} `{!Env W}.

Definition emit (out : list io) (st : state W) : state W :=
  State (world st) (trace st ++ out) (now st) (watchers st)
        (events st) (choices st).

Definition set_world (w : W) (st : state W) : state W :=
  State w (trace st) (now st) (watchers st) (events st) (choices st).

Definition set_now (t : N) (st : state W) : state W :=
  State (world st) (trace st) t (watchers st) (events st) (choices st).

Definition set_watchers (ws : list watcher) (st : state W) : state W :=
  State (world st) (trace st) (now st) ws (events st) (choices st).

Definition set_events (evs : list event) (st : state W) : state W :=
  State (world st) (trace st) (now st) (watchers st) evs (choices st).

Definition set_choices (cs : list nat) (st : state W) : state W :=
  State (world st) (trace st) (now st) (watchers st) (events st) cs.

(** Watcher [i] becomes [w], having done [out]. *)
Definition commit (i : nat) (r : watcher * list io) (st : state W)
  : state W :=
  emit (snd r) (set_watchers (<[i := fst r]> (watchers st)) st).

(** One turn of the event loop.  A timer calls back no earlier than it
    is due; an interval is re-armed one period after its callback ran;
    an event that cannot happen in the current state changes nothing. *)
Definition step (ev : event) (st : state W) : state W :=
  match ev with
  | Elapse d => set_now (now st + d)%N st
  | IntervalFires i =>
      match watchers st !! i with
      | Some w =>
          match w_interval w with
          | Some due =>
              if (due <=? now st)%N then
                let '(w', out) := on_interval w in
                commit i (with_interval (Some (now st + 5 * 1000)%N) w', out) st
              else st
          | None => st
          end
      | None => st
      end
  | DnsAnswers i n =>
      match watchers st !! i with
      | Some w =>
          match w_inflight w !! n with
          | Some c =>
              let '(r, world') := respond c (world st) in
              let w' := with_inflight (delete n (w_inflight w)) w in
              commit i (on_dns (now st) c r w')
                     (emit [Reply c r] (set_world world' st))
          | None => st
          end
      | None => st
      end
  | TimeoutFires i n =>
      match watchers st !! i with
      | Some w =>
          match w_timeouts w !! n with
          | Some due =>
              if (due <=? now st)%N then
                let w' := with_timeouts (delete n (w_timeouts w)) w in
                commit i (on_timeout w', []) st
              else st
          | None => st
          end
      | None => st
      end
  end.

(** The events of a list, in order. *)
Definition run (evs : list event) (st : state W) : state W :=
  foldl (fun s ev => step ev s) st evs.

End EventLoop.

(** ** Awaiting: the worker's top level *)

(** A computation of the worker's top level: it runs on the process
    state and resolves, rejects, or is still pending when the execution
    observed so far ends. *)
Definition M (W : Type) (A : Type) : Type := state W -> outcome A * state W.

#[global] Instance M_mret {W : Type} : MRet (M W) :=
  fun A a st => (Resolved a, st).

#[global] Instance M_mbind {W : Type} : MBind (M W) :=
  fun A B f m st =>
    match m st with
    | (Resolved a, st') => f a st'
    | (Rejected e, st') => (Rejected e, st')
    | (Pending, st') => (Pending, st')
    end.

Section Awaiting.

Context {W : Type} `{!Env W}.

(** [await f(...)] where nothing else runs: each call of the task is
    made and answered in turn. *)
Fixpoint exec {A : Type} (t : task A) (st : state W) : outcome A * state W :=
  match t with
  | Return a => (Resolved a, st)
  | Throw e => (Rejected e, st)
  | Await c k =>
      let '(r, world') := respond c (world st) in
      exec (k r) (emit [Call c; Reply c r] (set_world world' st))
  end.

Definition await {A : Type} (t : task A) : M W A := exec t.

Definition console_log (line : string) : M W unit :=
  fun st => (Resolved tt, emit [Console_log line] st).

Definition clock : M W N :=
  fun st => (Resolved (now st), st).

(** *** [Promise.all] over async function calls *)

(** Calling an async function runs it up to its first [await]. *)
Definition first_call {A : Type} (t : task A) : list io :=
  match t with
  | Await c _ => [Call c]
  | _ => []
  end.

Definition is_awaiting {A : Type} (t : task A) : bool :=
  match t with
  | Await _ _ => true
  | _ => false
  end.

(** The positions of the tasks that await a call. *)
Fixpoint awaiting_from {A : Type} (i : nat) (ts : list (task A)) : list nat :=
  match ts with
  | [] => []
  | t :: rest =>
      if is_awaiting t then i :: awaiting_from (S i) rest
      else awaiting_from (S i) rest
  end.

Definition awaiting {A : Type} (ts : list (task A)) : list nat :=
  awaiting_from 0 ts.

(** The first task, in array order, that has thrown. *)
Fixpoint thrown {A : Type} (ts : list (task A)) : option error :=
  match ts with
  | [] => None
  | Throw e :: _ => Some e
  | _ :: rest => thrown rest
  end.

(** The values of the tasks that have returned. *)
Fixpoint returned {A : Type} (ts : list (task A)) : list A :=
  match ts with
  | [] => []
  | Return a :: rest => a :: returned rest
  | _ :: rest => returned rest
  end.

(** The call awaited by task [i] completes, and the task runs up to
    its next [await]. *)
Definition deliver {A : Type} (i : nat) (ts : list (task A)) (st : state W)
  : list (task A) * state W :=
  match ts !! i with
  | Some (Await c k) =>
      let '(r, world') := respond c (world st) in
      let t' := k r in
      (<[i := t']> ts, emit (Reply c r :: first_call t') (set_world world' st))
  | _ => (ts, st)
  end.

(** [Promise.all] rejects as soon as a task has thrown (with the
    error of the first one in array order, should several have thrown
    before their first [await]), resolves once all have returned, and
    otherwise waits for one more completion: the choice [c] picks the
    task, among those awaiting, whose call completes next. *)
Fixpoint settle {A : Type} (cs : list nat) (ts : list (task A)) (st : state W)
  : outcome (list A) * state W :=
  match thrown ts with
  | Some e => (Rejected e, set_choices cs st)
  | None =>
      match awaiting ts with
      | [] => (Resolved (returned ts), set_choices cs st)
      | p :: ps =>
          match cs with
          | [] => (Pending, set_choices [] st)
          | c :: cs' =>
              let i := nth (c mod length (p :: ps)) (p :: ps) p in
              let '(ts', st') := deliver i ts st in
              settle cs' ts' st'
          end
      end
  end.

(** [Promise.all(xs.map(async (x) => f(x)))]: the calls [f(x)] are made
    in array order, each up to its first [await]. *)
Definition Promise_all {A : Type} (ts : list (task A)) : M W (list A) :=
  fun st => settle (choices st) ts (emit (flat_map first_call ts) st).

(** *** [Promise.all] over the promises of [waitUntilVerify] *)

Fixpoint broken (ws : list watcher) : option error :=
  match ws with
  | [] => None
  | w :: rest =>
      match w_promise w with
      | Broken e => Some e
      | _ => broken rest
      end
  end.

Definition fulfilled (w : watcher) : bool :=
  match w_promise w with
  | Fulfilled => true
  | _ => false
  end.

Fixpoint until_settled (evs : list event) (st : state W)
  : outcome unit * state W :=
  match broken (watchers st) with
  | Some e => (Rejected e, set_events evs st)
  | None =>
      if forallb fulfilled (watchers st) then (Resolved tt, set_events evs st)
      else
        match evs with
        | [] => (Pending, set_events [] st)
        | ev :: rest => until_settled rest (step ev st)
        end
  end.

(** The promises belong to the watchers [ws], which come to life here;
    the event loop runs until all of them are fulfilled. *)
Definition Promise_all_watchers (ws : list watcher) : M W unit :=
  fun st => until_settled (events st) (set_watchers ws st).

(** *** [startWorker] (lines 154-174) *)

Variables HOST PORT WORKER_UUID : option string.

Definition startWorker : M W unit :=
  initResult ← await (initialize WORKER_UUID);
  await (createAccount (email initResult));;
  domains ← await (fetchDomains WORKER_UUID);
  '(order, challenges) ← await (getChallenges domains);
  records ← Promise_all (map expectedRecord challenges);
  await (pushRecords WORKER_UUID records);;
  console_log "Waiting untils DNS verified...";;
  t ← clock;
  Promise_all_watchers (map (waitUntilVerify t) records);;
  Promise_all (map finalize challenges);;
  await (issue WORKER_UUID domains order).

(** The module body: the connection banner (line 23), then
    [startWorker()] (line 176). *)
Definition main : M W unit :=
  console_log ("Connecting: " ++ host HOST ++ ":" ++ port PORT
                 ++ " (" ++ show (workerUuid WORKER_UUID) ++ ")");;
  startWorker.

End Awaiting.

(** * Specification

    The notions in which the properties are stated. *)

Local Open Scope list_scope.

(** ** Observations of a watcher *)

(** [addr] is an address that a CNAME lookup of [K] has returned. *)
Definition target (K addr : string) (tr : list io) : Prop :=
  exists addresses,
    In (Reply (Dns_resolveCname K) (Success addresses)) tr /\ In addr addresses.

(** [V] has been seen among the flattened TXT record sets resolved at a
    CNAME target of [K]. *)
Definition observed (K V : string) (tr : list io) : Prop :=
  exists addr result,
    target K addr tr
    /\ In (Reply (Dns_resolveTxt addr) (Success result)) tr
    /\ In V (concat result).

(** The record sets of a successful TXT reply. *)
Definition txt_result (x : io) : option (list (list string)) :=
  match x with
  | Reply c r =>
      match c as c0 return reply (answer c0) -> option (list (list string)) with
      | Dns_resolveTxt _ =>
          fun r => match r with Success result => Some result | Failure _ => None end
      | _ => fun _ => None
      end r
  | _ => None
  end.

(** What holds of a process whose only watcher waits for [V] at [K],
    from an empty trace on. *)
Record watching {W : Type} (K V : string) (st : state W) (w : watcher) : Prop := {
  watching_alone : watchers st = [w];
  watching_k : w_k w = K;
  watching_v : w_v w = V;
  watching_inflight :
    forall c, In c (w_inflight w) ->
      c = Dns_resolveCname K
      \/ exists addr, c = Dns_resolveTxt addr /\ target K addr (trace st);
  watching_promise : w_promise w = Unsettled \/ w_promise w = Fulfilled;
  watching_observed :
    w_promise w = Fulfilled \/ w_timeouts w <> [] \/ w_interval w = None ->
    observed K V (trace st);
  watching_txt :
    forall addr r, In (Reply (Dns_resolveTxt addr) r) (trace st) ->
      target K addr (trace st);
}.

(** The promise of [w] has not been rejected. *)
Definition unbroken (w : watcher) : Prop :=
  w_promise w = Unsettled \/ w_promise w = Fulfilled.

(** The CNAME queries: one per tick of the poll loop. *)
Definition is_poll (x : io) : bool :=
  match x with
  | Call (Dns_resolveCname _) => true
  | _ => false
  end.

(** The CNAME queries of a trace. *)
Definition polls (tr : list io) : list io := List.filter is_poll tr.

(** ** Stages and footprints *)

(** The step of the workflow that a call belongs to. *)
Definition stage (c : call) : nat :=
  match c with
  | Acme_createPrivateKey => 0
  | Rpc_registerClient _ => 1
  | Acme_createAccount _ _ => 2
  | Rpc_fetchDomains _ => 3
  | Acme_createOrder _ => 4
  | Acme_getAuthorizations _ => 5
  | Acme_getChallengeKeyAuthorization _ => 6
  | Rpc_registerChallenges _ _ => 7
  | Dns_resolveCname _ => 8
  | Dns_resolveTxt _ => 8
  | Acme_verifyChallenge _ _ => 9
  | Acme_completeChallenge _ => 9
  | Acme_waitForValidStatus _ => 9
  | Acme_createCsr _ _ => 10
  | Acme_finalizeOrder _ _ => 11
  | Acme_getCertificate _ => 12
  | Rpc_verifiedCallback _ _ _ _ => 13
  end.

(** A trace entry is about a call that satisfies [P]; console lines
    are about no call. *)
Definition about (P : call -> Prop) (x : io) : Prop :=
  match x with
  | Call c => P c
  | Reply c _ => P c
  | Console_log _ => True
  end.

(** Every call that the task can make satisfies [P]. *)
Fixpoint within {A : Type} (P : call -> Prop) (t : task A) : Prop :=
  match t with
  | Await c k => P c /\ forall r, within P (k r)
  | _ => True
  end.

(** [st'] comes after [st], by calls that satisfy [P]. *)
Definition extends {W : Type} (P : call -> Prop) (st st' : state W) : Prop :=
  exists out, trace st' = trace st ++ out /\ Forall (about P) out.

(** The calls to the DNS resolver. *)
Definition dns (c : call) : Prop := stage c = 8.

(** The watcher waits for DNS queries only. *)
Definition dns_only (w : watcher) : Prop := Forall dns (w_inflight w).

(** The calls of the stages [lo] to [hi]. *)
Definition between (lo hi : nat) (c : call) : Prop := lo <= stage c <= hi.

(** If [P] holds before [m], then [Q] holds of its outcome and of the
    state it leaves. *)
Definition hoare {W A : Type} (P : state W -> Prop) (m : M W A)
    (Q : outcome A -> state W -> Prop) : Prop :=
  forall st, P st -> Q (m st).1 (m st).2.

(** [m] makes calls that satisfy [P] only. *)
Definition confined {W A : Type} (P : call -> Prop) (m : M W A) : Prop :=
  forall st, extends P st (m st).2.

(** The process at start-up: whatever the environment, nothing has
    happened yet and no watcher is alive. *)
Definition boot {W : Type} (world0 : W) (t0 : N) (evs : list event)
    (cs : list nat) : state W :=
  State world0 [] t0 [] evs cs.

(** So far the process has made no call. *)
Definition fresh {W : Type} (st : state W) : Prop :=
  Forall (about (fun _ => False)) (trace st).

(** The entry reports that a call of stage [n] failed with [e]. *)
Definition failed_with (n : nat) (e : error) (x : io) : Prop :=
  match x with
  | Reply c (Failure e') => stage c = n /\ e' = e
  | _ => False
  end.

(** The task is one awaited call: its failure is thrown and its success
    returned. *)
Definition single_call {A : Type} (t : task A) : Prop :=
  match t with
  | Await c k =>
      (forall e, k (Failure e) = Throw e)
      /\ (forall a, exists v, k (Success a) = Return v)
  | _ => False
  end.

(** No call of stage [n] has failed. *)
Definition none_failed {W : Type} (n : nat) (st : state W) : Prop :=
  Forall (fun x => forall e, ~ failed_with n e x) (trace st).

(** The worker has stopped at stage [n], on a failure with [e]. *)
Definition stopped_at {W : Type} (n : nat) (e : error) (st : state W) : Prop :=
  Forall (about (between 0 n)) (trace st)
  /\ Forall (fun x => forall e', failed_with n e' x -> e' = e) (trace st).

(** ** Challenges and records *)

(** [c] is the first challenge of [a] whose type is [dns-01]. *)
Definition first_dns01 (a : authorization) (c : challenge) : Prop :=
  exists before after_,
    auth_challenges a = before ++ c :: after_
    /\ challenge_type c = "dns-01"
    /\ Forall (fun c' => challenge_type c' <> "dns-01") before.

(** [a] offers no challenge of type [dns-01]. *)
Definition lacks_dns01 (a : authorization) : Prop :=
  Forall (fun c => challenge_type c <> "dns-01") (auth_challenges a).

(** The authorizations of a successful [getAuthorizations] reply. *)
Definition authorizations_of (x : io) : option (list authorization) :=
  match x with
  | Reply c r =>
      match c as c0 return reply (answer c0) -> option (list authorization) with
      | Acme_getAuthorizations _ =>
          fun r => match r with Success auths => Some auths | Failure _ => None end
      | _ => fun _ => None
      end r
  | _ => None
  end.

(** The message of the error that [getChallenges] throws. *)
Definition no_dns01 : error := "Unabled to find dns-01 challenge.".

(** The payload carries, for every record, its key and its value. *)
Definition publishes_full_batch (records : list record)
    (payload : list string) : Prop :=
  forall r, In r records -> In (key r) payload /\ In (value r) payload.

(** The calls of [finalize]. *)
Definition finalizing (c : call) : Prop :=
  match c with
  | Acme_verifyChallenge _ _ => True
  | Acme_completeChallenge _ => True
  | Acme_waitForValidStatus _ => True
  | _ => False
  end.

(** The watchers of [records], published under [uuid], have all
    signalled. *)
Definition verified {W : Type} (uuid : option string) (records : list record)
    (st : state W) : Prop :=
  Forall (fun w => w_promise w = Fulfilled) (watchers st)
  /\ map w_k (watchers st) = map key records
  /\ map w_v (watchers st) = map value records
  /\ In (Call (Rpc_registerChallenges uuid (map value records))) (trace st).

(** The records have been pushed and nothing later has happened. *)
Definition published {W : Type} (uuid : option string) (records : list record)
    (st : state W) : Prop :=
  Forall (about (between 0 8)) (trace st)
  /\ In (Call (Rpc_registerChallenges uuid (map value records))) (trace st).

(** The key of the record of a challenge. *)
Definition record_key (c : selected) : string :=
  ("_acme-challenge." ++ identifier_value (auth_identifier (auth c)))%string.

(** How far the computation of the record of [c] has got, [out] being
    what has happened since it started. *)
Definition record_state (c : selected) (t : task record) (out : list io) : Prop :=
  t = expectedRecord c
  \/ (exists v,
        t = Return {| key := record_key c; value := v |}
        /\ In (Reply (Acme_getChallengeKeyAuthorization (dns01 c)) (Success v)) out)
  \/ exists e, t = Throw e.

(** The record [rcd] is the expected record of [c], the value being a
    key authorization given in [out]. *)
Definition record_of (out : list io) (c : selected) (rcd : record) : Prop :=
  key rcd = record_key c
  /\ In (Reply (Acme_getChallengeKeyAuthorization (dns01 c))
               (Success (value rcd))) out.

(** ** Notions that depend on the environment *)

Section Specification.

Context {W : Type} `{!Env W}.

(** The process in which [waitUntilVerify(rcd)] has just been called,
    at time [t0], and nothing else has happened. *)
Definition called (world0 : W) (t0 : N) (rcd : record) : state W :=
  State world0 [] t0 [waitUntilVerify t0 rcd] [] [].

(** [st] once the single watcher has become [w'], the environment
    [world'], and [out] has happened. *)
Definition after (st : state W) (world' : W) (out : list io)
    (w' : watcher) : state W :=
  State world' (trace st ++ out) (now st) [w'] (events st) (choices st).

(** Everything one event can do to the process of a single watcher
    [w] that waits with DNS queries only in flight. *)
Inductive moves (st : state W) (w : watcher) : state W -> watcher -> Prop :=
  | moves_idle :
      moves st w st w
  | moves_elapse d :
      moves st w (set_now (now st + d)%N st) w
  | moves_tick due :
      w_interval w = Some due ->
      (due <= now st)%N ->
      let w' := with_interval (Some (now st + 5 * 1000)%N)
                  (with_inflight (w_inflight w ++ [Dns_resolveCname (w_k w)]) w) in
      moves st w (after st (world st) [Call (Dns_resolveCname (w_k w))] w') w'
  | moves_cname_failed n e world' :
      w_inflight w !! n = Some (Dns_resolveCname (w_k w)) ->
      respond (Dns_resolveCname (w_k w)) (world st) = (Failure e, world') ->
      let w' := with_inflight (delete n (w_inflight w)) w in
      moves st w
        (after st world' [Reply (Dns_resolveCname (w_k w)) (Failure e)] w') w'
  | moves_cname n addresses world' :
      w_inflight w !! n = Some (Dns_resolveCname (w_k w)) ->
      respond (Dns_resolveCname (w_k w)) (world st) = (Success addresses, world') ->
      let w' := with_inflight (delete n (w_inflight w)
                                 ++ map Dns_resolveTxt addresses) w in
      moves st w
        (after st world'
           (Reply (Dns_resolveCname (w_k w)) (Success addresses)
              :: flat_map (fun addr =>
                   [Console_log ("Found CNAME " ++ w_k w ++ " => " ++ addr)%string;
                    Call (Dns_resolveTxt addr)]) addresses)
           w') w'
  | moves_txt_failed n addr e world' :
      w_inflight w !! n = Some (Dns_resolveTxt addr) ->
      respond (Dns_resolveTxt addr) (world st) = (Failure e, world') ->
      let w' := with_inflight (delete n (w_inflight w)) w in
      moves st w (after st world' [Reply (Dns_resolveTxt addr) (Failure e)] w') w'
  | moves_txt_miss n addr result world' :
      w_inflight w !! n = Some (Dns_resolveTxt addr) ->
      respond (Dns_resolveTxt addr) (world st) = (Success result, world') ->
      ~ In (w_v w) (concat result) ->
      let w' := with_inflight (delete n (w_inflight w)) w in
      moves st w
        (after st world'
           [Reply (Dns_resolveTxt addr) (Success result);
            Console_log ("Found TXT " ++ addr ++ " => "
                           ++ join_comma (concat result))%string]
           w') w'
  | moves_txt_hit n addr result world' :
      w_inflight w !! n = Some (Dns_resolveTxt addr) ->
      respond (Dns_resolveTxt addr) (world st) = (Success result, world') ->
      In (w_v w) (concat result) ->
      let w' := with_interval None
                  (with_timeouts (w_timeouts w ++ [(now st + 15 * 1000)%N])
                     (with_inflight (delete n (w_inflight w)) w)) in
      moves st w
        (after st world'
           [Reply (Dns_resolveTxt addr) (Success result);
            Console_log ("Found TXT " ++ addr ++ " => "
                           ++ join_comma (concat result))%string]
           w') w'
  | moves_timeout n due :
      w_timeouts w !! n = Some due ->
      (due <= now st)%N ->
      let w' := on_timeout (with_timeouts (delete n (w_timeouts w)) w) in
      moves st w (after st (world st) [] w') w'.

(** No settle timer is due before [T], and the promise is not
    fulfilled before [T]. *)
Definition settling (T : N) (st : state W) (w : watcher) : Prop :=
  (T <= now st + 15 * 1000)%N
  /\ (forall due, In due (w_timeouts w) -> (T <= due)%N)
  /\ (w_promise w = Fulfilled -> (T <= now st)%N).

(** No reply of [getAuthorizations] so far holds an authorization
    without a DNS-01 challenge. *)
Definition all_offer_dns01 (st : state W) : Prop :=
  Forall (fun x => forall auths, authorizations_of x = Some auths ->
                     Forall (fun a => ~ lacks_dns01 a) auths)
         (trace st).

(** The pool that computes the records of [challenges], started when
    the trace was [tr0]. *)
Definition computing (challenges : list selected) (tr0 : list io)
    (ts : list (task record)) (st : state W) : Prop :=
  exists out,
    trace st = tr0 ++ out
    /\ Forall2 (fun c t => record_state c t out) challenges ts.

(** The environment always produces a key authorization. *)
Definition key_authorizing : Prop :=
  forall (c : challenge) (w : W),
    exists v w', respond (Acme_getChallengeKeyAuthorization c) w = (Success v, w').

End Specification.

(** ** The pace of a watcher *)

Section Pace.

Context {W : Type} `{!Env W}.

(** The watcher called at [t0] has polled no more than once per period:
    so many periods have passed as there are CNAME queries, and the
    interval is due one period later at the earliest. *)
Definition pacing (t0 : N) (st : state W) (w : watcher) : Prop :=
  (t0 + 5 * 1000 * N.of_nat (length (polls (trace st))) <= now st)%N
  /\ forall due, w_interval w = Some due ->
       (t0 + 5 * 1000 * (N.of_nat (length (polls (trace st))) + 1) <= due)%N.

(** Of the watcher called at [t0]: a query is in flight only after the
    first period, and a settle timer is due, or the promise fulfilled,
    only after the first period and the settle delay. *)
Definition maturing (t0 : N) (st : state W) (w : watcher) : Prop :=
  (forall due, w_interval w = Some due -> (t0 + 5 * 1000 <= due)%N)
  /\ (w_inflight w <> [] -> (t0 + 5 * 1000 <= now st)%N)
  /\ (forall due, In due (w_timeouts w) -> (t0 + 5 * 1000 + 15 * 1000 <= due)%N)
  /\ (w_promise w = Fulfilled -> (t0 + 5 * 1000 + 15 * 1000 <= now st)%N).

End Pace.

(** ** The order of the workflow *)

(** The calls that [startWorker] awaits one at a time: all but the key
    authorizations and the steps of [finalize], which run under
    [Promise.all], and the DNS queries, which are made in callbacks. *)
Definition awaited_alone (c : call) : Prop :=
  match c with
  | Acme_getChallengeKeyAuthorization _ => False
  | Acme_verifyChallenge _ _ => False
  | Acme_completeChallenge _ => False
  | Acme_waitForValidStatus _ => False
  | Dns_resolveCname _ => False
  | Dns_resolveTxt _ => False
  | _ => True
  end.

(** The calls and replies of a trace are in the order of the workflow:
    each is of stage [n] at least, and of the stage of the one before it
    at least. *)
Fixpoint ascending (n : nat) (tr : list io) : Prop :=
  match tr with
  | [] => True
  | Call c :: rest => n <= stage c /\ ascending (stage c) rest
  | Reply c _ :: rest => n <= stage c /\ ascending (stage c) rest
  | Console_log _ :: rest => ascending n rest
  end.

(** The calls awaited alone are made in turn: each is of stage [lo] at
    least, and of a later stage than every call before it. *)
Fixpoint in_turn (lo : nat) (tr : list io) : Prop :=
  match tr with
  | [] => True
  | Call c :: rest =>
      (awaited_alone c -> lo <= stage c)
      /\ in_turn (Nat.max lo (S (stage c))) rest
  | _ :: rest => in_turn lo rest
  end.

(** The calls of a task are made in the order of the workflow, from
    stage [n] on. *)
Fixpoint climbing {A : Type} (n : nat) (t : task A) : Prop :=
  match t with
  | Await c k => n <= stage c /\ forall r, climbing (stage c) (k r)
  | _ => True
  end.

(** Each call of a task is of a later stage than the one before it,
    from stage [lo] on. *)
Fixpoint stepping {A : Type} (lo : nat) (t : task A) : Prop :=
  match t with
  | Await c k => lo <= stage c /\ forall r, stepping (S (stage c)) (k r)
  | _ => True
  end.

(** The worker has not got to stage [n] yet, and has followed the
    order of the workflow. *)
Definition reached {W : Type} (n : nat) (st : state W) : Prop :=
  ascending 0 (trace st)
  /\ in_turn 0 (trace st)
  /\ Forall (about (fun c => stage c < n)) (trace st).

(** ** Failures *)

(** The entry reports the failure of a call other than a DNS query. *)
Definition fatal (x : io) : Prop :=
  match x with
  | Reply c (Failure _) => ~ dns c
  | _ => False
  end.

(** No call other than a DNS query has failed so far. *)
Definition unfailed {W : Type} (st : state W) : Prop :=
  Forall (fun x => ~ fatal x) (trace st).

(** The worker has stopped on a failure with [e] of a call other than a
    DNS query: it is the first such failure, and the last thing that
    has happened. *)
Definition halted {W : Type} (e : error) (st : state W) : Prop :=
  exists c tr,
    ~ dns c
    /\ trace st = tr ++ [Reply c (Failure e)]
    /\ Forall (fun x => ~ fatal x) tr.

(** Either nothing has failed, or the worker has rejected with the
    error on which it has stopped. *)
Definition sane {W A : Type} (o : outcome A) (st : state W) : Prop :=
  unfailed st \/ exists e, o = Rejected e /\ halted e st.

(** The task throws the failure of any call that it awaits. *)
Fixpoint rethrowing {A : Type} (t : task A) : Prop :=
  match t with
  | Await c k =>
      ~ dns c
      /\ (forall e, k (Failure e) = Throw e)
      /\ forall a, rethrowing (k (Success a))
  | _ => True
  end.

(** The task throws the failure of any call that it awaits, and
    nothing else. *)
Fixpoint steady {A : Type} (t : task A) : Prop :=
  match t with
  | Await c k =>
      ~ dns c
      /\ (forall e, k (Failure e) = Throw e)
      /\ forall a, steady (k (Success a))
  | Return _ => True
  | Throw _ => False
  end.

(** The error that a trace entry reports, if any. *)
Definition failure_of (x : io) : option error :=
  match x with
  | Reply _ (Failure e) => Some e
  | _ => None
  end.

(** ** Provenance *)

(** Every call of the trace is justified by what came before it. *)
Definition justified (J : list io -> call -> Prop) (tr : list io) : Prop :=
  forall tr1 c tr2, tr = tr1 ++ Call c :: tr2 -> J tr1 c.

(** [J] goes by what a trace holds: it keeps holding as the trace
    grows. *)
Definition cumulative {A : Type} (J : list io -> A -> Prop) : Prop :=
  forall tr tr' a, incl tr tr' -> J tr a -> J tr' a.

(** Given what is [known] to have happened, every call that the task
    makes is justified by [J] when it makes it, and [Q] holds of its
    result when it returns. *)
Fixpoint attested {A : Type} (J : list io -> call -> Prop)
    (Q : list io -> A -> Prop) (known : list io) (t : task A) : Prop :=
  match t with
  | Return a => Q known a
  | Throw _ => True
  | Await c k => J known c /\ forall r, attested J Q (known ++ [Reply c r]) (k r)
  end.

(** What holds of each live watcher, given the trace so far: it waits
    for CNAME answers for its key and for TXT answers at the targets of
    its key, and it has set a timer or signalled only after having seen
    its value. *)
Definition sound (tr : list io) (w : watcher) : Prop :=
  (forall c, In c (w_inflight w) ->
     c = Dns_resolveCname (w_k w)
     \/ exists addr, c = Dns_resolveTxt addr /\ target (w_k w) addr tr)
  /\ (w_promise w = Fulfilled \/ w_timeouts w <> [] ->
      observed (w_k w) (w_v w) tr).

(** The process while watchers are alive: every call so far is
    justified, the watchers are sound, and a CNAME query for the key of
    each is justified. *)
Definition attending {W : Type} (J : list io -> call -> Prop) (st : state W)
  : Prop :=
  justified J (trace st)
  /\ Forall (sound (trace st)) (watchers st)
  /\ Forall (fun w => J (trace st) (Dns_resolveCname (w_k w))) (watchers st).

(** The tasks of a pool, each computing for one of [xs]: what is known
    to each has happened. *)
Definition pooled {W X A : Type} (J : list io -> call -> Prop)
    (Q : X -> list io -> A -> Prop)
    (xs : list X) (ts : list (task A)) (st : state W) : Prop :=
  Forall2 (fun x t => exists known,
             incl known (trace st) /\ attested J (Q x) known t) xs ts.

(** *** What the worker has learnt, step by step *)

(** The key of the expected record of an authorization. *)
Definition challenge_key (a : authorization) : string :=
  ("_acme-challenge." ++ identifier_value (auth_identifier a))%string.

(** The ACME server has returned the order [o]. *)
Definition ordered (o : order) (tr : list io) : Prop :=
  exists ids, In (Reply (Acme_createOrder ids) (Success o)) tr.

(** The ACME server has returned [auths] as the authorizations of [o]. *)
Definition granted (o : order) (auths : list authorization) (tr : list io)
  : Prop :=
  In (Reply (Acme_getAuthorizations o) (Success auths)) tr.

(** [v] is a key authorization that the ACME client has given for the
    first DNS-01 challenge of [a]. *)
Definition authorizes (tr : list io) (a : authorization) (v : string) : Prop :=
  exists ch,
    first_dns01 a ch
    /\ In (Reply (Acme_getChallengeKeyAuthorization ch) (Success v)) tr.

(** The first DNS-01 challenge of [a] has been reported valid. *)
Definition validated (tr : list io) (a : authorization) : Prop :=
  exists ch,
    first_dns01 a ch
    /\ In (Reply (Acme_waitForValidStatus ch) (Success tt)) tr.

(** [chs] pairs each of [auths] with its first DNS-01 challenge. *)
Definition selecting (auths : list authorization) (chs : list selected)
  : Prop :=
  Forall2 (fun a s => auth s = a /\ first_dns01 a (dns01 s)) auths chs.

Section Learnt.

Variable uuid : option string.

(** The coordinator has registered the worker, with [reg]. *)
Definition registered (reg : registration) (tr : list io) : Prop :=
  In (Reply (Rpc_registerClient uuid) (Success reg)) tr.

(** The ACME account has been created. *)
Definition enrolled (tr : list io) : Prop :=
  exists contact, In (Reply (Acme_createAccount true contact) (Success tt)) tr.

(** The coordinator has assigned the domains [ds]. *)
Definition assigned (ds : list string) (tr : list io) : Prop :=
  exists a, In (Reply (Rpc_fetchDomains uuid) (Success a)) tr /\ ds = domains a.

(** The coordinator has accepted the values [payload]. *)
Definition accepted (payload : list string) (tr : list io) : Prop :=
  In (Reply (Rpc_registerChallenges uuid payload) (Success tt)) tr.

(** After [getChallenges]. *)
Definition challenged (ds : list string) (o : order) (chs : list selected)
    (tr : list io) : Prop :=
  assigned ds tr /\ ordered o tr
  /\ exists auths, granted o auths tr /\ selecting auths chs.

(** After the expected records have been computed. *)
Definition recorded (ds : list string) (o : order) (chs : list selected)
    (records : list record) (tr : list io) : Prop :=
  assigned ds tr /\ ordered o tr
  /\ exists auths,
       granted o auths tr /\ selecting auths chs
       /\ Forall2 (fun a rcd => key rcd = challenge_key a
                                /\ authorizes tr a (value rcd)) auths records.

(** After [pushRecords]. *)
Definition pushed (ds : list string) (o : order) (chs : list selected)
    (records : list record) (tr : list io) : Prop :=
  recorded ds o chs records tr /\ accepted (map value records) tr.

(** After the barrier. *)
Definition attested_in_dns (ds : list string) (o : order) (chs : list selected)
    (records : list record) (tr : list io) : Prop :=
  pushed ds o chs records tr
  /\ Forall (fun rcd => observed (key rcd) (value rcd) tr) records.

(** After the challenges have been finalized. *)
Definition finalized (ds : list string) (o : order) (chs : list selected)
    (tr : list io) : Prop :=
  assigned ds tr /\ ordered o tr
  /\ exists auths, granted o auths tr /\ Forall (validated tr) auths.

(** What justifies each call of the worker: where its arguments come
    from, and what must have happened before it is made. *)
Definition provenance (tr : list io) (c : call) : Prop :=
  match c with
  | Acme_createPrivateKey => True
  | Rpc_registerClient u =>
      u = uuid
      /\ exists accountKey,
           In (Reply Acme_createPrivateKey (Success accountKey)) tr
  | Acme_createAccount tos contact =>
      tos = true
      /\ exists reg, registered reg tr /\ contact = [("mailto:" ++ email reg)%string]
  | Rpc_fetchDomains u => u = uuid /\ enrolled tr
  | Acme_createOrder ids =>
      exists ds,
        assigned ds tr /\ ids = map (fun d => Identifier "dns" d) ds
  | Acme_getAuthorizations o => ordered o tr
  | Acme_getChallengeKeyAuthorization ch =>
      exists o auths a, granted o auths tr /\ In a auths /\ first_dns01 a ch
  | Rpc_registerChallenges u payload =>
      u = uuid
      /\ exists o auths, granted o auths tr /\ Forall2 (authorizes tr) auths payload
  | Dns_resolveCname k =>
      exists payload o auths a,
        accepted payload tr /\ granted o auths tr
        /\ In a auths /\ k = challenge_key a
  | Dns_resolveTxt addr => exists k, target k addr tr
  | Acme_verifyChallenge a ch =>
      exists o auths payload,
        granted o auths tr /\ In a auths /\ first_dns01 a ch
        /\ accepted payload tr
        /\ Forall2 (fun a v => authorizes tr a v
                               /\ observed (challenge_key a) v tr)
                   auths payload
  | Acme_completeChallenge ch =>
      exists a, In (Reply (Acme_verifyChallenge a ch) (Success tt)) tr
  | Acme_waitForValidStatus ch =>
      In (Reply (Acme_completeChallenge ch) (Success tt)) tr
  | Acme_createCsr cn alts =>
      (exists ds, assigned ds tr /\ cn = head ds /\ alts = drop 1 ds)
      /\ exists o auths, granted o auths tr /\ Forall (validated tr) auths
  | Acme_finalizeOrder o csr =>
      ordered o tr
      /\ exists cn alts privKey,
           In (Reply (Acme_createCsr cn alts) (Success (privKey, csr))) tr
  | Acme_getCertificate o =>
      exists csr, In (Reply (Acme_finalizeOrder o csr) (Success tt)) tr
  | Rpc_verifiedCallback u csr64 key64 cert64 =>
      u = uuid
      /\ exists cn alts privKey csr o cert,
           In (Reply (Acme_createCsr cn alts) (Success (privKey, csr))) tr
           /\ In (Reply (Acme_getCertificate o) (Success cert)) tr
           /\ csr64 = toString_base64 csr
           /\ key64 = toString_base64 privKey
           /\ cert64 = toString_base64 (Buffer_from cert)
  end.

End Learnt.

(** ** Progress *)

Section Progress.

Context {W : Type} `{!Env W}.

(** DNS shows the value of [rcd]: whenever it is asked, the key of
    [rcd] is an alias of some [addr] first of all, and the TXT records
    of [addr] hold the value. *)
Definition shown (rcd : record) : Prop :=
  exists addr,
    (forall w : W, exists rest w',
        respond (Dns_resolveCname (key rcd)) w = (Success (addr :: rest), w'))
    /\ (forall w : W, exists result w',
          respond (Dns_resolveTxt addr) w = (Success result, w')
          /\ In (value rcd) (concat result)).

End Progress.

(** The schedule in which [d1] milliseconds pass, each of [n] watchers
    polls once and has its two queries answered, [d2] milliseconds
    pass, and the timers call back. *)
Definition polling_once (n : nat) (d1 d2 : N) : list event :=
  Elapse d1 :: flat_map (fun i => [IntervalFires i; DnsAnswers i 0; DnsAnswers i 0])
                        (seq 0 n)
    ++ Elapse d2 :: map (fun i => TimeoutFires i 0) (seq 0 n).

(** The watcher of [rcd] has seen the value and set its timer for
    [T]. *)
Definition armed (T : N) (rcd : record) (w : watcher) : Prop :=
  w_k w = key rcd /\ w_v w = value rcd
  /\ w_interval w = None /\ w_timeouts w = [T] /\ w_promise w = Unsettled.

(** The task returns after [n] awaits at most, when the calls that it
    awaits succeed. *)
Fixpoint finishing {A : Type} (n : nat) (t : task A) {struct t} : Prop :=
  match t with
  | Return _ => True
  | Throw _ => False
  | Await c k =>
      match n with
      | 0 => False
      | S n' => forall a, finishing n' (k (Success a))
      end
  end.

Section Accepting.

Context {W : Type} `{!Env W}.

(** The environment lets every call that satisfies [P] succeed. *)
Definition accepting (P : call -> Prop) : Prop :=
  forall (c : call) (w : W),
    P c -> exists a w', respond c w = (Success a, w').

End Accepting.

Section Cooperative.

Context {W : Type} `{!Env W}.

(** Every reply of the trace is one that the environment gives. *)
Definition genuine (tr : list io) : Prop :=
  Forall (fun x =>
            match x with
            | Reply c r => exists w w' : W, respond c w = (r, w')
            | _ => True
            end) tr.

(** The collaborators cooperate: every call but the DNS queries
    succeeds, every authorization offers a DNS-01 challenge, and DNS
    shows, under the key of each authorization, whatever key
    authorization the ACME client gives for its first DNS-01
    challenge. *)
Definition cooperative : Prop :=
  accepting (W := W) (fun c => ~ dns c)
  /\ (forall o (w : W) auths w',
        respond (Acme_getAuthorizations o) w = (Success auths, w') ->
        Forall (fun a => exists ch, first_dns01 a ch) auths)
  /\ (forall o (w : W) auths w' a ch (w0 : W) v w1,
        respond (Acme_getAuthorizations o) w = (Success auths, w') ->
        In a auths -> first_dns01 a ch ->
        respond (Acme_getChallengeKeyAuthorization ch) w0 = (Success v, w1) ->
        shown {| key := challenge_key a; value := v |}).

End Cooperative.

(** ** Example environments *)

(** A scripted environment: the world is the number of calls answered
    so far, and the answer may depend on it. *)
Definition scripted (oracle : nat -> forall c : call, reply (answer c)) : Env nat :=
  fun c n => (oracle n c, S n).

(** What a scripted collaborator does at each turn. *)
Record script : Type := Script {
  on_fetchDomains : reply assignment;
  on_getAuthorizations : reply (list authorization);
  on_registerChallenges : reply unit;
  on_resolveCname : nat -> reply (list string);
  on_resolveTxt : nat -> reply (list (list string));
}.

Definition play (s : script) (n : nat) (c : call) : reply (answer c) :=
  match c as c0 return reply (answer c0) with
  | Acme_createPrivateKey => Success [x2d%byte]
  | Acme_createAccount _ _ => Success tt
  | Acme_createOrder _ => Success (Order "https://ca.example/order/1")
  | Acme_getAuthorizations _ => on_getAuthorizations s
  | Acme_getChallengeKeyAuthorization c => Success ("ka-" ++ challenge_token c)%string
  | Acme_verifyChallenge _ _ => Success tt
  | Acme_completeChallenge _ => Success tt
  | Acme_waitForValidStatus _ => Success tt
  | Acme_createCsr _ _ => Success ([x66%byte; x6f%byte], [x6f%byte])
  | Acme_finalizeOrder _ _ => Success tt
  | Acme_getCertificate _ => Success "foobar"
  | Rpc_registerClient _ => Success (Registration "ops@example.com")
  | Rpc_fetchDomains _ => on_fetchDomains s
  | Rpc_registerChallenges _ _ => on_registerChallenges s
  | Rpc_verifiedCallback _ _ _ _ => Success tt
  | Dns_resolveCname _ => on_resolveCname s n
  | Dns_resolveTxt _ => on_resolveTxt s n
  end.

Definition offered (d : string) : list challenge :=
  [Challenge "http-01" ("https://ca.example/chall/" ++ d ++ "/1") ("h-" ++ d);
   Challenge "dns-01" ("https://ca.example/chall/" ++ d ++ "/2") ("d-" ++ d);
   Challenge "dns-01" ("https://ca.example/chall/" ++ d ++ "/3") ("x-" ++ d)]%string.

Definition authorized (d : string) : authorization :=
  Authorization (Identifier "dns" d) (offered d).

Definition example_domains : list string := ["example.com"; "www.example.com"].

(** Everything succeeds, and both expected values are visible in DNS. *)
Definition happy : script :=
  {| on_fetchDomains := Success (Assignment example_domains);
     on_getAuthorizations := Success (map authorized example_domains);
     on_registerChallenges := Success tt;
     on_resolveCname := fun _ => Success ["acme.example.net"];
     on_resolveTxt := fun _ =>
       Success [["unrelated"]; ["ka-d-example.com"; "ka-d-www.example.com"]] |}.

(** The coordinator fails to assign domains. *)
Definition no_assignment : script :=
  {| on_fetchDomains := Failure "UNAVAILABLE";
     on_getAuthorizations := on_getAuthorizations happy;
     on_registerChallenges := on_registerChallenges happy;
     on_resolveCname := on_resolveCname happy;
     on_resolveTxt := on_resolveTxt happy |}.

(** The second authorization offers HTTP-01 only. *)
Definition http_only : script :=
  {| on_fetchDomains := on_fetchDomains happy;
     on_getAuthorizations :=
       Success [authorized "example.com";
                Authorization (Identifier "dns" "www.example.com")
                  [Challenge "http-01" "https://ca.example/chall/9" "h"]];
     on_registerChallenges := on_registerChallenges happy;
     on_resolveCname := on_resolveCname happy;
     on_resolveTxt := on_resolveTxt happy |}.

(** The coordinator refuses the records. *)
Definition refused : script :=
  {| on_fetchDomains := on_fetchDomains happy;
     on_getAuthorizations := on_getAuthorizations happy;
     on_registerChallenges := Failure "PERMISSION_DENIED";
     on_resolveCname := on_resolveCname happy;
     on_resolveTxt := on_resolveTxt happy |}.

(** The coordinator assigns no domain. *)
Definition nothing_assigned : script :=
  {| on_fetchDomains := Success (Assignment []);
     on_getAuthorizations := Success [];
     on_registerChallenges := Success tt;
     on_resolveCname := on_resolveCname happy;
     on_resolveTxt := on_resolveTxt happy |}.

(** The first CNAME lookup fails; later lookups succeed. *)
Definition flaky_dns : script :=
  {| on_fetchDomains := on_fetchDomains happy;
     on_getAuthorizations := on_getAuthorizations happy;
     on_registerChallenges := on_registerChallenges happy;
     on_resolveCname := fun n =>
       match n with 0 => Failure "ENOTFOUND" | _ => Success ["acme.example.net"] end;
     on_resolveTxt := on_resolveTxt happy |}.

Definition example_record : record :=
  {| key := "_acme-challenge.example.com"; value := "ka-d-example.com" |}.

(** One tick, and the answers to its CNAME and TXT queries. *)
Definition one_poll (i : nat) : list event :=
  [IntervalFires i; DnsAnswers i 0; DnsAnswers i 0].

(** Both watchers poll once after 5 seconds and settle 15 seconds
    later. *)
Definition both_verified : list event :=
  Elapse 5000 :: one_poll 0 ++ one_poll 1
    ++ [Elapse 15000; TimeoutFires 0 0; TimeoutFires 1 0].

Definition example_selected : list selected :=
  [Selected (authorized "example.com")
            (Challenge "dns-01" "https://ca.example/chall/example.com/2"
                       "d-example.com");
   Selected (authorized "www.example.com")
            (Challenge "dns-01" "https://ca.example/chall/www.example.com/2"
                       "d-www.example.com")].

(** The scripted environment [oracle], but for the [k]-th call to be
    answered, which fails with [e]. *)
Definition failing (k : nat) (e : error)
    (oracle : nat -> forall c : call, reply (answer c))
  : nat -> forall c : call, reply (answer c) :=
  fun n c => if Nat.eqb n k then Failure e else oracle n c.

(** The example run: everything succeeds. *)
Definition happy_run : outcome unit * state nat :=
  main (Env0 := scripted (play happy)) None None (Some "worker-1")
       (boot 0 0%N both_verified [0; 1; 0; 1; 0; 1; 0; 1]).

(** The example run, but for the [k]-th call to be answered, which
    fails. *)
Definition unhappy_run (k : nat) (e : error) : outcome unit * state nat :=
  main (Env0 := scripted (failing k e (play happy))) None None
       (Some "worker-1")
       (boot 0 0%N both_verified [0; 1; 0; 1; 0; 1; 0; 1]).

(** * Properties *)

Create HintDb watcher.
Create HintDb footprint.

(** ** Platform functions *)

Lemma indexOf_ge (l : list string) (x : string) : (-1 <= indexOf l x)%Z.
Proof.
  induction l as [|y l IH]; simpl; [lia|].
  destruct (String.eqb y x); [lia|].
  destruct (Z.eqb_spec (indexOf l x) (-1)); lia.
Qed.

Lemma indexOf_found (l : list string) (x : string) :
  (indexOf l x =? -1)%Z = false <-> In x l.
Proof.
  induction l as [|y l IH]; simpl.
  - split; [discriminate|tauto].
  - destruct (String.eqb_spec y x) as [->|Hne].
    + split; [auto|reflexivity].
    + pose proof (indexOf_ge l x) as Hge.
      destruct (Z.eqb_spec (indexOf l x) (-1)) as [Heq|Hneq]; simpl.
      * split; [discriminate|].
        intros [Hyx|Hin]; [congruence|].
        apply IH in Hin. discriminate.
      * split.
        -- intros _. right. apply IH. reflexivity.
        -- intros _. apply Z.eqb_neq. lia.
Qed.

Lemma In_lookup {A : Type} (l : list A) (n : nat) (x : A) :
  l !! n = Some x -> In x l.
Proof.
  revert n. induction l as [|y l IH]; intros [|n]; simpl; try discriminate.
  - intros [= ->]. left. reflexivity.
  - intros Hn. right. eapply IH, Hn.
Qed.

Lemma In_delete {A : Type} (l : list A) (n : nat) (x : A) :
  In x (delete n l) -> In x l.
Proof.
  revert n. induction l as [|y l IH]; intros [|n]; simpl; auto.
  intros [->|Hin]; [left|right]; eauto.
Qed.

(** ** The watcher *)

Lemma target_mono K addr tr out : target K addr tr -> target K addr (tr ++ out).
Proof.
  intros (addresses & Hin & Haddr). exists addresses.
  split; [apply in_or_app; left|]; assumption.
Qed.

Lemma observed_mono K V tr out : observed K V tr -> observed K V (tr ++ out).
Proof.
  intros (addr & result & Ht & Hin & HV). exists addr, result.
  split; [apply target_mono; assumption|].
  split; [apply in_or_app; left|]; assumption.
Qed.

#[local] Hint Resolve target_mono observed_mono : watcher.

Lemma observed_app_inv K V tr out :
  (forall addr r, In (Reply (Dns_resolveTxt addr) r) tr -> target K addr tr) ->
  observed K V (tr ++ out) ->
  observed K V tr
  \/ exists x result, In x out /\ txt_result x = Some result /\ In V (concat result).
Proof.
  intros Htxt (addr & result & Ht & Hin & HV).
  apply in_app_or in Hin as [Hin|Hin].
  - left. exists addr, result. eauto.
  - right. exists (Reply (Dns_resolveTxt addr) (Success result)), result. auto.
Qed.

Section Watcher.

Context {W : Type} `{!Env W}.

Lemma watching_called (world0 : W) t0 rcd :
  watching (key rcd) (value rcd) (called world0 t0 rcd)
           (waitUntilVerify t0 rcd).
Proof.
  split; simpl; auto.
  - intros c [].
  - intros [H|[H|H]]; [discriminate|congruence|discriminate].
  - intros addr r [].
Qed.

Ltac unfold_step :=
  unfold commit, emit, set_world, set_now, set_watchers, set_events,
    set_choices, with_interval, with_inflight, with_timeouts,
    on_interval, on_timeout in *;
  cbn [w_k w_v w_interval w_inflight w_timeouts w_promise
       with_interval with_inflight with_timeouts
       on_interval on_timeout commit emit
       set_world set_now set_watchers set_events set_choices
       trace watchers world now events choices fst snd
       lookup list_lookup insert list_insert] in *.

Ltac watching_intro :=
  eexists; split; [reflexivity|..]; unfold_step;
  [assumption|assumption|..].

Lemma step_watching K V st w ev :
  watching K V st w -> exists w', watching K V (step ev st) w'.
Proof.
  intros Hw. pose proof Hw as [Halone Hk Hv Hfl Hpr Hobs Htxt].
  destruct ev as [d|i|i n|i n]; unfold step; try rewrite Halone.
  - exists w. split; auto.
  - destruct i as [|i]; unfold_step; [|exists w; exact Hw].
    destruct (w_interval w) as [due|] eqn:Hint; [|exists w; exact Hw].
    destruct (due <=? now st)%N; [|exists w; exact Hw].
    unfold_step. rewrite Halone. watching_intro.
    + intros c Hc. apply in_app_or in Hc as [Hc|[<-|[]]].
      * destruct (Hfl c Hc) as [->|(addr & -> & Ht)]; eauto with watcher.
      * left. congruence.
    + assumption.
    + intros [Hp|[Ht|Hi]]; [..|discriminate]; apply observed_mono; auto.
    + intros addr r Hin. apply in_app_or in Hin as [Hin|[Hin|[]]];
        [|discriminate]. eauto with watcher.
  - destruct i as [|i]; unfold_step; [|exists w; exact Hw].
    destruct (w_inflight w !! n) as [c|] eqn:Hn; [|exists w; exact Hw].
    destruct (respond c (world st)) as [r world'] eqn:Hr.
    unfold_step. rewrite Halone. unfold_step.
    assert (Hdel : forall c', In c' (delete n (w_inflight w)) ->
              c' = Dns_resolveCname K
              \/ exists addr, c' = Dns_resolveTxt addr
                              /\ target K addr (trace st))
      by (intros c' Hc'; apply Hfl; eapply In_delete, Hc').
    destruct (Hfl c (In_lookup _ _ _ Hn)) as [->|(addr & -> & Htarget)];
      cbn [on_dns].
    + (* the CNAME callback *)
      destruct r as [e|addresses]; cbn [on_cname fst snd]; unfold_step.
      * rewrite app_nil_r. watching_intro.
        -- intros c' Hc'. destruct (Hdel c' Hc') as [->|(a & -> & Ht)];
             eauto 6 with watcher.
        -- assumption.
        -- intros Hor. apply observed_mono; auto.
        -- intros a r Hin.
           apply in_app_or in Hin as [Hin|[Hin|[]]]; [|discriminate].
           eauto with watcher.
      * assert (Hnew : forall a, In a addresses ->
                  target K a ((trace st ++
                    [Reply (Dns_resolveCname K) (Success addresses)]) ++
                    flat_map (fun addr =>
                      [Console_log ("Found CNAME " ++ w_k w ++ " => " ++ addr)%string;
                       Call (Dns_resolveTxt addr)]) addresses)).
        { intros a Ha. exists addresses. split; [|assumption].
          apply in_or_app. left. apply in_or_app. right. left. reflexivity. }
        watching_intro.
        -- intros c' Hc'. apply in_app_or in Hc' as [Hc'|Hc'].
           ++ destruct (Hdel c' Hc') as [->|(a & -> & Ht)];
                eauto 6 with watcher.
           ++ apply in_map_iff in Hc' as (a & <- & Ha). eauto.
        -- assumption.
        -- intros Hor. do 2 apply observed_mono; auto.
        -- intros a r Hin. apply in_app_or in Hin as [Hin|Hin].
           ++ apply in_app_or in Hin as [Hin|[Hin|[]]]; [|discriminate].
              eauto with watcher.
           ++ apply in_flat_map in Hin as (a' & _ & [Hin|[Hin|[]]]);
                discriminate.
    + (* the TXT callback *)
      destruct r as [e|result]; cbn [on_txt fst snd]; unfold_step.
      * rewrite app_nil_r. watching_intro.
        -- intros c' Hc'. destruct (Hdel c' Hc') as [->|(a & -> & Ht)];
             eauto 6 with watcher.
        -- assumption.
        -- intros Hor. apply observed_mono; auto.
        -- intros a r Hin.
           apply in_app_or in Hin as [Hin|[Hin|[]]].
           ++ eauto with watcher.
           ++ injection Hin as <-. auto with watcher.
      * assert (Htxt' : forall out a r,
                  In (Reply (Dns_resolveTxt a) r)
                     ((trace st ++ [Reply (Dns_resolveTxt addr) (Success result)])
                        ++ [Console_log out]) ->
                  target K a ((trace st ++
                     [Reply (Dns_resolveTxt addr) (Success result)])
                        ++ [Console_log out])).
        { intros out a r Hin. apply in_app_or in Hin as [Hin|[Hin|[]]];
            [|discriminate].
          apply in_app_or in Hin as [Hin|[Hin|[]]].
          - eauto with watcher.
          - injection Hin as <-. auto with watcher. }
        destruct (indexOf (concat result) (w_v w) =? -1)%Z eqn:Hidx;
          cbn [negb fst snd].
        -- watching_intro.
           ++ intros c' Hc'. destruct (Hdel c' Hc') as [->|(a & -> & Ht)];
                eauto 6 with watcher.
           ++ assumption.
           ++ intros Hor. do 2 apply observed_mono; auto.
           ++ apply Htxt'.
        -- apply indexOf_found in Hidx. rewrite Hv in Hidx.
           watching_intro.
           ++ intros c' Hc'. destruct (Hdel c' Hc') as [->|(a & -> & Ht)];
                eauto 6 with watcher.
           ++ assumption.
           ++ intros _. exists addr, result. split; [auto with watcher|].
              split; [|assumption].
              apply in_or_app. left. apply in_or_app. right. left. reflexivity.
           ++ apply Htxt'.
  - destruct i as [|i]; unfold_step; [|exists w; exact Hw].
    destruct (w_timeouts w !! n) as [due|] eqn:Hn; [|exists w; exact Hw].
    destruct (due <=? now st)%N; [|exists w; exact Hw].
    unfold_step. rewrite Halone. unfold_step. rewrite app_nil_r.
    assert (Hseen : observed K V (trace st)).
    { apply Hobs. right. left. intros Hnil. rewrite Hnil in Hn. discriminate. }
    watching_intro.
    + assumption.
    + destruct (w_promise w); auto.
    + intros _. assumption.
    + assumption.
Qed.

Lemma run_watching K V evs : forall st w,
  watching K V st w -> exists w', watching K V (run evs st) w'.
Proof.
  induction evs as [|ev evs IH]; intros st w Hw; [exists w; exact Hw|].
  destruct (step_watching K V st w ev Hw) as (w1 & Hw1).
  exact (IH _ _ Hw1).
Qed.

(** *** The moves of a single watcher *)

Lemma step_moves K V st w ev :
  watching K V st w -> exists w', moves st w (step ev st) w'.
Proof.
  intros [Halone Hk Hv Hfl _ _ _].
  assert (Hst : st = State (world st) (trace st) (now st) [w]
                       (events st) (choices st))
    by (rewrite <- Halone; destruct st; reflexivity).
  destruct ev as [d|i|i n|i n]; unfold step; try rewrite Halone.
  - exists w. constructor.
  - destruct i as [|i]; cbn [lookup list_lookup]; [|exists w; constructor].
    destruct (w_interval w) as [due|] eqn:Hint; [|exists w; constructor].
    destruct (N.leb_spec due (now st)); [|exists w; constructor].
    eexists. unfold on_interval, commit, emit, set_watchers.
    rewrite Halone. eapply (moves_tick st w due); assumption.
  - destruct i as [|i]; cbn [lookup list_lookup]; [|exists w; constructor].
    destruct (w_inflight w !! n) as [c|] eqn:Hn; [|exists w; constructor].
    destruct (respond c (world st)) as [r world'] eqn:Hr.
    unfold commit, emit, set_watchers, set_world; cbn [trace watchers world
      now events choices]. rewrite Halone, <- app_assoc.
    destruct (Hfl c (In_lookup _ _ _ Hn)) as [->|(addr & -> & _)];
      cbn [on_dns]; rewrite <- ?Hk in *.
    + destruct r as [e|addresses]; cbn [on_cname fst snd];
        eexists.
      * eapply (moves_cname_failed st w n e world'); assumption.
      * eapply (moves_cname st w n addresses world'); assumption.
    + destruct r as [e|result]; cbn [on_txt fst snd].
      * eexists. eapply (moves_txt_failed st w n addr e world'); assumption.
      * cbn [with_inflight w_v].
        destruct (indexOf (concat result) (w_v w) =? -1)%Z eqn:Hidx;
          cbn [negb fst snd]; eexists.
        -- eapply (moves_txt_miss st w n addr result world'); try assumption.
           intros Hin. apply indexOf_found in Hin. congruence.
        -- apply indexOf_found in Hidx.
           eapply (moves_txt_hit st w n addr result world'); assumption.
  - destruct i as [|i]; cbn [lookup list_lookup]; [|exists w; constructor].
    destruct (w_timeouts w !! n) as [due|] eqn:Hn; [|exists w; constructor].
    destruct (N.leb_spec due (now st)); [|exists w; constructor].
    eexists. unfold commit, emit, set_watchers. rewrite Halone.
    eapply (moves_timeout st w n due); assumption.
Qed.

(** *** The settle delay *)

Lemma moves_settling T st w st' w' :
  moves st w st' w' -> settling T st w -> settling T st' w'.
Proof.
  intros Hm (Hnow & Hdue & Hful).
  destruct Hm; subst; unfold settling, after, set_now in *;
    try subst w'; unfold_step; try (split; [|split]; auto; lia).
  - (* time passes *)
    split; [lia|]. split; [auto|]. intros Hp. specialize (Hful Hp). lia.
  - (* the value is seen: a new timer *)
    split; [lia|]. split; [|auto].
    intros due Hin. apply in_app_or in Hin as [Hin|[<-|[]]]; [auto|lia].
  - (* a timer calls back *)
    split; [lia|]. split.
    + intros d Hin. apply Hdue. eapply In_delete, Hin.
    + intros _. pose proof (Hdue due (In_lookup _ _ _ H)). lia.
Qed.

(** *** The end of polling *)

Lemma polls_app tr out : polls (tr ++ out) = polls tr ++ polls out.
Proof. apply List.filter_app. Qed.

Lemma polls_found w addresses :
  polls (flat_map (fun addr =>
           [Console_log ("Found CNAME " ++ w_k w ++ " => " ++ addr)%string;
            Call (Dns_resolveTxt addr)]) addresses) = [].
Proof. induction addresses as [|a l IH]; simpl; auto. Qed.

Lemma moves_stopped st w st' w' :
  moves st w st' w' ->
  w_interval w = None ->
  w_interval w' = None /\ polls (trace st') = polls (trace st).
Proof.
  intros Hm Hnone.
  destruct Hm; subst; unfold after, set_now in *; try subst w';
    unfold_step; rewrite ?polls_app; cbn [polls List.filter is_poll];
    rewrite ?polls_found, ?app_nil_r; auto.
  congruence.
Qed.

(** *** The first observation *)

Lemma moves_first_observation K V st w st' w' :
  watching K V st w ->
  moves st w st' w' ->
  ~ observed K V (trace st) ->
  observed K V (trace st') ->
  now st' = now st
  /\ w_promise w' = Unsettled
  /\ w_interval w' = None
  /\ w_timeouts w' = [(now st + 15 * 1000)%N].
Proof.
  intros [Halone Hk Hv Hfl Hpr Hobs Htxt] Hm Hnot Hnow.
  assert (Hempty : w_timeouts w = []).
  { destruct (w_timeouts w) eqn:Ht; [reflexivity|].
    exfalso. apply Hnot, Hobs. right. left. discriminate. }
  assert (Hun : w_promise w = Unsettled).
  { destruct Hpr as [Hp|Hp]; [assumption|]. exfalso. auto. }
  destruct Hm; subst; unfold after, set_now in *; try subst w';
    unfold_step; try contradiction;
    try (apply (observed_app_inv _ _ _ _ Htxt) in Hnow
           as [Hold|(x & res & Hin & Hres & HV)]; [contradiction|];
         simpl in Hin).
  - destruct Hin as [<-|[]]. discriminate.
  - destruct Hin as [<-|[]]. discriminate.
  - destruct Hin as [<-|Hin]; [discriminate|].
    apply in_flat_map in Hin as (a & _ & [<-|[<-|[]]]); discriminate.
  - destruct Hin as [<-|[]]. discriminate.
  - destruct Hin as [<-|[<-|[]]]; [|discriminate].
    injection Hres as <-. contradiction.
  - rewrite Hempty. auto.
  - destruct Hin.
Qed.

(** *** Executions *)

Lemma moves_alone st w st' w' :
  watchers st = [w] -> moves st w st' w' -> watchers st' = [w'].
Proof. intros Halone Hm. destruct Hm; auto. Qed.

Lemma step_next K V st w ev :
  watching K V st w ->
  exists w', moves st w (step ev st) w' /\ watching K V (step ev st) w'.
Proof.
  intros Hw.
  destruct (step_moves K V st w ev Hw) as (w1 & Hm).
  destruct (step_watching K V st w ev Hw) as (w2 & Hw2).
  pose proof (moves_alone _ _ _ _ (watching_alone _ _ _ _ Hw) Hm) as H1.
  rewrite (watching_alone _ _ _ _ Hw2) in H1. injection H1 as ->.
  exists w1. auto.
Qed.

Lemma run_snoc evs ev (st : state W) :
  run (evs ++ [ev]) st = step ev (run evs st).
Proof. unfold run. rewrite foldl_app. reflexivity. Qed.

Lemma run_app evs more (st : state W) :
  run (evs ++ more) st = run more (run evs st).
Proof. unfold run. apply foldl_app. Qed.

Lemma run_settling K V T evs : forall st w,
  watching K V st w -> settling T st w ->
  exists w', watching K V (run evs st) w' /\ settling T (run evs st) w'.
Proof.
  induction evs as [|ev evs IH]; intros st w Hw Hs; [eauto|].
  destruct (step_next K V st w ev Hw) as (w1 & Hm & Hw1).
  apply (IH _ w1 Hw1). eapply moves_settling; eassumption.
Qed.

Lemma run_stopped K V evs : forall st w,
  watching K V st w -> w_interval w = None ->
  exists w', watching K V (run evs st) w'
             /\ w_interval w' = None
             /\ polls (trace (run evs st)) = polls (trace st).
Proof.
  induction evs as [|ev evs IH]; intros st w Hw Hnone; [eauto|].
  destruct (step_next K V st w ev Hw) as (w1 & Hm & Hw1).
  destruct (moves_stopped _ _ _ _ Hm Hnone) as (Hnone1 & Hpolls).
  destruct (IH _ w1 Hw1 Hnone1) as (w' & Hw' & Hnone' & Hpolls').
  exists w'. split; [assumption|]. split; [assumption|].
  change (run (ev :: evs) st) with (run evs (step ev st)).
  rewrite Hpolls'. exact Hpolls.
Qed.

Lemma run_called (world0 : W) t0 rcd evs :
  exists w, watching (key rcd) (value rcd) (run evs (called world0 t0 rcd)) w.
Proof. eapply run_watching, watching_called. Qed.

End Watcher.

(** ** C1: the watcher signals after the observation, and only then *)

(** C1.  Take the process in which [waitUntilVerify] has been called for
    the key [K] and the value [V], and any sequence of timer and DNS
    events.  The promise is fulfilled only if [V] has been observed among
    the flattened TXT record sets resolved at a CNAME target of [K].  At
    the event that makes the first observation, at time [t], the
    interval is cleared and one timer is set for [t] plus 15 seconds;
    from then on no CNAME query is started any more, the promise is not
    fulfilled before [t] plus 15 seconds, and it is fulfilled when that
    timer calls back. *)
Theorem waitUntilVerify_signals_after_observation
    {W : Type} `{!Env W} (world0 : W) (t0 : N) (rcd : record) :
  let K := key rcd in
  let V := value rcd in
  let at_ := fun evs => run evs (called world0 t0 rcd) in
  (forall evs, exists w,
      watchers (at_ evs) = [w]
      /\ (w_promise w = Fulfilled -> observed K V (trace (at_ evs))))
  /\ (forall evs ev,
        ~ observed K V (trace (at_ evs)) ->
        observed K V (trace (at_ (evs ++ [ev]))) ->
        let T := (now (at_ evs) + 15 * 1000)%N in
        (exists w,
            watchers (at_ (evs ++ [ev])) = [w]
            /\ w_promise w = Unsettled
            /\ w_interval w = None
            /\ w_timeouts w = [T])
        /\ (forall more, exists w,
              watchers (at_ (evs ++ ev :: more)) = [w]
              /\ w_interval w = None
              /\ polls (trace (at_ (evs ++ ev :: more)))
                 = polls (trace (at_ (evs ++ [ev])))
              /\ (w_promise w = Fulfilled ->
                  (T <= now (at_ (evs ++ ev :: more)))%N))
        /\ (forall d, (15 * 1000 <= d)%N -> exists w,
              watchers (at_ (evs ++ [ev; Elapse d; TimeoutFires 0 0])) = [w]
              /\ w_promise w = Fulfilled)).
Proof.
  intros K V at_. split.
  - intros evs. destruct (run_called world0 t0 rcd evs) as (w & Hw).
    exists w. split; [apply Hw|]. intros Hp. apply Hw. auto.
  - intros evs ev Hnot Hobs T. subst at_. cbv beta in *.
    destruct (run_called world0 t0 rcd evs) as (w0 & Hw0).
    rewrite run_snoc in *.
    set (st1 := run evs (called world0 t0 rcd)) in *.
    destruct (step_next K V st1 w0 ev Hw0) as (w1 & Hm & Hw1).
    destruct (moves_first_observation K V _ _ _ _ Hw0 Hm Hnot Hobs)
      as (Hnow & Hun & Hnone & Htimers).
    fold T in Htimers.
    assert (Hset : settling T (step ev st1) w1).
    { split; [|split].
      - rewrite Hnow. subst T. lia.
      - rewrite Htimers. intros due [<-|[]]. lia.
      - rewrite Hun. discriminate. }
    split; [|split].
    + exists w1. split; [apply Hw1|]. auto.
    + intros more.
      replace (evs ++ ev :: more) with ((evs ++ [ev]) ++ more)
        by (rewrite <- app_assoc; reflexivity).
      rewrite run_app, run_snoc. fold st1.
      destruct (run_settling K V T more _ _ Hw1 Hset) as (w & Hw & _ & _ & Hful).
      destruct (run_stopped K V more _ _ Hw1 Hnone) as (w' & Hw' & Hnone' & Hpolls).
      pose proof (watching_alone _ _ _ _ Hw) as Ha.
      rewrite (watching_alone _ _ _ _ Hw') in Ha. injection Ha as ->.
      exists w. split; [apply Hw|]. auto.
    + intros d Hd.
      replace (evs ++ [ev; Elapse d; TimeoutFires 0 0])
        with ((evs ++ [ev]) ++ [Elapse d; TimeoutFires 0 0])
        by (rewrite <- app_assoc; reflexivity).
      rewrite run_app, run_snoc. fold st1.
      cbn [run foldl]. unfold step at 1 2.
      pose proof (watching_alone _ _ _ _ Hw1) as Ha.
      cbn [set_now watchers now]. rewrite Ha.
      cbn [lookup list_lookup]. rewrite Htimers. cbn [lookup list_lookup].
      destruct (N.leb_spec T (now (step ev st1) + d)) as [_|Hlt];
        [|rewrite Hnow in Hlt; subst T; lia].
      unfold commit, emit, set_watchers, set_now, on_timeout, with_timeouts.
      cbn [watchers fst snd]. rewrite ?Ha. cbn [insert list_insert].
      eexists. split; [reflexivity|]. cbn [w_promise]. rewrite Hun. reflexivity.
Qed.

(** ** C6: DNS failures are skipped *)

(** C6.  When the callback of an in-flight DNS query of a watcher runs
    with an error (CNAME or TXT alike), nothing happens but the query
    leaving the set of queries in flight: nothing is logged, the promise
    and the timers are as before.  In particular the interval stays
    armed: if it is due at [due], a tick before [due] does nothing, and
    the tick at or after [due] starts the next CNAME query and re-arms
    the interval 5 seconds later. *)
Theorem dns_failure_is_skipped
    {W : Type} `{!Env W} (st : state W) (i n : nat) (w : watcher)
    (c : call) (e : error) (world' : W) :
  watchers st !! i = Some w ->
  w_inflight w !! n = Some c ->
  respond c (world st) = (Failure e, world') ->
  let w' := with_inflight (delete n (w_inflight w)) w in
  let st' := step (DnsAnswers i n) st in
  st' = State world' (trace st ++ [Reply c (Failure e)]) (now st)
              (<[i := w']> (watchers st)) (events st) (choices st)
  /\ w_promise w' = w_promise w
  /\ w_interval w' = w_interval w
  /\ w_timeouts w' = w_timeouts w
  /\ forall due d,
       w_interval w = Some due ->
       ((now st + d < due)%N ->
        step (IntervalFires i) (step (Elapse d) st') = step (Elapse d) st')
       /\ ((due <= now st + d)%N ->
           step (IntervalFires i) (step (Elapse d) st')
           = State world'
               (trace st ++ [Reply c (Failure e);
                             Call (Dns_resolveCname (w_k w))])
               (now st + d)
               (<[i := with_interval (Some (now st + d + 5 * 1000)%N)
                         (with_inflight
                            (delete n (w_inflight w)
                               ++ [Dns_resolveCname (w_k w)]) w)]>
                  (watchers st))
               (events st) (choices st)).
Proof.
  intros Hi Hn Hr w' st'.
  assert (Hst' : st' = State world' (trace st ++ [Reply c (Failure e)]) (now st)
              (<[i := w']> (watchers st)) (events st) (choices st)).
  { subst st'. unfold step. rewrite Hi, Hn, Hr.
    unfold commit, emit, set_watchers, set_world.
    cbn [trace watchers world now events choices].
    assert (Hdns : on_dns (now st) c (Failure e)
                     (with_inflight (delete n (w_inflight w)) w) = (w', [])).
    { destruct c; reflexivity. }
    rewrite Hdns. cbn [fst snd]. rewrite app_nil_r. reflexivity. }
  split; [exact Hst'|]. do 3 (split; [reflexivity|]).
  intros due d Hdue.
  assert (Hlook : <[i := w']> (watchers st) !! i = Some w').
  { apply list_lookup_insert_eq. eapply lookup_lt_Some, Hi. }
  rewrite Hst'. unfold step. cbn [set_now watchers now].
  rewrite Hlook. subst w'. cbn [with_inflight w_interval]. rewrite Hdue.
  split; intros Hcmp.
  - destruct (N.leb_spec due (now st + d)); [lia|reflexivity].
  - destruct (N.leb_spec due (now st + d)); [|lia].
    unfold on_interval, commit, emit, set_watchers, set_now, with_interval,
      with_inflight.
    cbn [trace watchers world now events choices fst snd
         w_k w_v w_interval w_inflight w_timeouts w_promise].
    rewrite list_insert_insert_eq, <- app_assoc. reflexivity.
Qed.

(** ** C9: the watcher's promise never rejects *)

Lemma broken_None (ws : list watcher) :
  Forall unbroken ws -> broken ws = None.
Proof.
  induction 1 as [|w ws Hw _ IH]; [reflexivity|].
  simpl. destruct Hw as [-> | ->]; assumption.
Qed.

Lemma on_dns_promise (t : N) (c : call) (r : reply (answer c)) (w : watcher) :
  w_promise (fst (on_dns t c r w)) = w_promise w.
Proof.
  destruct c; try reflexivity; destruct r; try reflexivity.
  cbn [on_dns on_txt]. destruct (negb _); reflexivity.
Qed.

Lemma waitUntilVerify_unbroken (t : N) (records : list record) :
  Forall unbroken (map (waitUntilVerify t) records).
Proof.
  induction records as [|r records IH]; constructor; [|exact IH].
  left. reflexivity.
Qed.

Section Unbroken.

Context {W : Type} `{!Env W}.

Lemma step_unbroken (ev : event) (st : state W) :
  Forall unbroken (watchers st) -> Forall unbroken (watchers (step ev st)).
Proof.
  intros Hall.
  assert (Hget : forall i w, watchers st !! i = Some w -> unbroken w)
    by (intros i w Hi; eapply Forall_lookup_1; eassumption).
  destruct ev as [d|i|i n|i n]; unfold step; [exact Hall|..].
  - destruct (watchers st !! i) as [w|] eqn:Hi; [|exact Hall].
    destruct (w_interval w); [|exact Hall].
    destruct (_ <=? _)%N; [|exact Hall].
    cbn. apply Forall_insert; [exact Hall|]. exact (Hget i w Hi).
  - destruct (watchers st !! i) as [w|] eqn:Hi; [|exact Hall].
    destruct (w_inflight w !! n) as [c|]; [|exact Hall].
    destruct (respond c (world st)) as [r world'].
    cbn. apply Forall_insert; [exact Hall|].
    unfold unbroken. rewrite on_dns_promise. exact (Hget i w Hi).
  - destruct (watchers st !! i) as [w|] eqn:Hi; [|exact Hall].
    destruct (w_timeouts w !! n); [|exact Hall].
    destruct (_ <=? _)%N; [|exact Hall].
    cbn. apply Forall_insert; [exact Hall|].
    unfold unbroken. cbn. destruct (Hget i w Hi) as [-> | ->]; auto.
Qed.

(** What [Promise.all] over watchers yields, in terms of the events
    consumed. *)
Lemma until_settled_run (evs : list event) : forall (st : state W) o st',
  until_settled evs st = (o, st') ->
  exists done rest,
    evs = done ++ rest
    /\ st' = set_events rest (run done st)
    /\ match o with
       | Resolved _ => forallb fulfilled (watchers st') = true
       | Rejected e => broken (watchers st') = Some e
       | Pending => rest = [] /\ forallb fulfilled (watchers st') = false
       end.
Proof.
  induction evs as [|ev evs IH]; intros st o st' Hrun; simpl in Hrun.
  - destruct (broken (watchers st)) as [e|] eqn:Hb.
    + injection Hrun as <- <-. exists [], []. auto.
    + destruct (forallb fulfilled (watchers st)) eqn:Hf;
        injection Hrun as <- <-; exists [], []; auto.
  - destruct (broken (watchers st)) as [e|] eqn:Hb.
    + injection Hrun as <- <-. exists [], (ev :: evs). auto.
    + destruct (forallb fulfilled (watchers st)) eqn:Hf.
      * injection Hrun as <- <-. exists [], (ev :: evs). auto.
      * destruct (IH _ _ _ Hrun) as (done & rest & -> & -> & Ho).
        exists (ev :: done), rest. auto.
Qed.

Lemma run_unbroken (evs : list event) : forall st : state W,
  Forall unbroken (watchers st) -> Forall unbroken (watchers (run evs st)).
Proof.
  induction evs as [|ev evs IH]; intros st Hall; [exact Hall|].
  apply (IH (step ev st)), step_unbroken, Hall.
Qed.

Lemma Promise_all_watchers_unbroken (ws : list watcher) (st : state W) :
  Forall unbroken ws ->
  forall e, fst (Promise_all_watchers ws st) <> Rejected e.
Proof.
  intros Hall e Hrej. unfold Promise_all_watchers in Hrej.
  destruct (until_settled _ _) as [o st'] eqn:Hrun. cbn in Hrej. subst o.
  apply until_settled_run in Hrun as (done & rest & _ & -> & Hb).
  cbn in Hb. rewrite broken_None in Hb; [discriminate|].
  apply run_unbroken. exact Hall.
Qed.

End Unbroken.

(** C9.  Whatever the record and whatever the DNS answers and their
    timing, the promise of [waitUntilVerify] is either unsettled or
    fulfilled, the latter only once the expected value has been
    observed; it is never rejected, and [Promise.all] over any number of
    such promises never rejects either. *)
Theorem waitUntilVerify_never_rejects
    {W : Type} `{!Env W} (world0 : W) (t0 : N) (rcd : record)
    (evs : list event) :
  (exists w,
      watchers (run evs (called world0 t0 rcd)) = [w]
      /\ (w_promise w = Unsettled
          \/ (w_promise w = Fulfilled
              /\ observed (key rcd) (value rcd)
                          (trace (run evs (called world0 t0 rcd)))))
      /\ forall e, w_promise w <> Broken e)
  /\ forall (records : list record) (st : state W) (e : error),
       fst (Promise_all_watchers (map (waitUntilVerify (now st)) records) st)
       <> Rejected e.
Proof.
  split.
  - destruct (run_called world0 t0 rcd evs) as (w & Hw).
    exists w. split; [apply Hw|]. split.
    + destruct (watching_promise _ _ _ _ Hw) as [Hp|Hp]; [left|right]; auto.
      split; [assumption|]. apply Hw. auto.
    + intros e He. destruct (watching_promise _ _ _ _ Hw); congruence.
  - intros records st e.
    apply Promise_all_watchers_unbroken, waitUntilVerify_unbroken.
Qed.

(** ** Footprints: which calls a computation can make *)

Lemma within_bind {A B : Type} (P : call -> Prop) (t : task A) (f : A -> task B) :
  within P t -> (forall a, within P (f a)) -> within P (t ≫= f).
Proof.
  intros Ht Hf. induction t as [a|e|c k IH]; simpl; auto.
  destruct Ht as [Hc Hk]. split; [assumption|].
  intros r. apply IH, Hk.
Qed.

Lemma within_perform (P : call -> Prop) (c : call) : P c -> within P (perform c).
Proof. intros Hc. split; [assumption|]. intros [e|a]; exact I. Qed.

Lemma extends_refl {W : Type} (P : call -> Prop) (st : state W) : extends P st st.
Proof. exists []. rewrite app_nil_r. auto. Qed.

Lemma extends_same {W : Type} (P : call -> Prop) (st st' : state W) :
  trace st' = trace st -> extends P st st'.
Proof. intros Heq. exists []. rewrite app_nil_r. auto. Qed.

Lemma extends_trans {W : Type} (P : call -> Prop) (st1 st2 st3 : state W) :
  extends P st1 st2 -> extends P st2 st3 -> extends P st1 st3.
Proof.
  intros (out1 & H1 & F1) (out2 & H2 & F2). exists (out1 ++ out2).
  split; [rewrite H2, H1, app_assoc; reflexivity|].
  apply Forall_app; auto.
Qed.

Lemma extends_emit {W : Type} (P : call -> Prop) (st : state W) (out : list io) :
  Forall (about P) out -> extends P st (emit out st).
Proof. intros Hout. exists out. auto. Qed.

Lemma extends_weaken {W : Type} (P Q : call -> Prop) (st st' : state W) :
  (forall c, P c -> Q c) -> extends P st st' -> extends Q st st'.
Proof.
  intros HPQ (out & Htr & Hout). exists out. split; [assumption|].
  eapply Forall_impl; [exact Hout|]. intros [c|c r|line]; simpl; auto.
Qed.

(** A trace property that holds of [st] and of what came after holds
    of [st']. *)
Lemma extends_Forall {W : Type} (P : call -> Prop) (phi : io -> Prop)
    (st st' : state W) :
  (forall x, about P x -> phi x) ->
  extends P st st' ->
  Forall phi (trace st) -> Forall phi (trace st').
Proof.
  intros Himp (out & -> & Hout) Hst. apply Forall_app. split; [assumption|].
  eapply Forall_impl; eassumption.
Qed.

Section Footprint.

Context {W : Type} `{!Env W}.

Lemma exec_extends {A : Type} (P : call -> Prop) (t : task A) :
  within P t -> forall st : state W,
  extends P st (exec t st).2
  /\ watchers (exec t st).2 = watchers st
  /\ now (exec t st).2 = now st
  /\ events (exec t st).2 = events st
  /\ choices (exec t st).2 = choices st.
Proof.
  induction t as [a|e|c k IH]; intros Ht st; simpl.
  - split; [apply extends_refl|auto].
  - split; [apply extends_refl|auto].
  - destruct Ht as [Hc Hk].
    destruct (respond c (world st)) as [r world'].
    destruct (IH r (Hk r) (emit [Call c; Reply c r] (set_world world' st)))
      as (Hext & Hrest).
    split; [|exact Hrest].
    eapply extends_trans; [|exact Hext].
    exists [Call c; Reply c r]. split; [reflexivity|].
    repeat constructor; assumption.
Qed.

Lemma first_call_about {A : Type} (P : call -> Prop) (t : task A) :
  within P t -> Forall (about P) (first_call t).
Proof. destruct t; simpl; intros Ht; repeat constructor. apply Ht. Qed.

Lemma deliver_extends {A : Type} (P : call -> Prop) (i : nat)
    (ts : list (task A)) (st : state W) :
  Forall (within P) ts ->
  Forall (within P) (deliver i ts st).1
  /\ extends P st (deliver i ts st).2
  /\ watchers (deliver i ts st).2 = watchers st
  /\ now (deliver i ts st).2 = now st
  /\ events (deliver i ts st).2 = events st.
Proof.
  intros Hts. unfold deliver.
  destruct (ts !! i) as [[a|e|c k]|] eqn:Hi; cbn [fst snd];
    try (split; [assumption|split; [apply extends_refl|auto]]).
  destruct (Forall_lookup_1 _ _ _ _ Hts Hi) as [Hc Hk].
  destruct (respond c (world st)) as [r world']. cbn [fst snd].
  split; [apply Forall_insert; [assumption|apply Hk]|].
  split; [|auto].
  exists (Reply c r :: first_call (k r)). split; [reflexivity|].
  constructor; [exact Hc|]. apply first_call_about, Hk.
Qed.

Lemma settle_extends {A : Type} (P : call -> Prop) (cs : list nat) :
  forall (ts : list (task A)) (st : state W),
  Forall (within P) ts ->
  extends P st (settle cs ts st).2
  /\ watchers (settle cs ts st).2 = watchers st
  /\ now (settle cs ts st).2 = now st
  /\ events (settle cs ts st).2 = events st.
Proof.
  induction cs as [|c cs IH]; intros ts st Hts; simpl.
  - destruct (thrown ts); [split; [apply extends_same|]; auto|].
    destruct (awaiting ts); (split; [apply extends_same|]; auto).
  - destruct (thrown ts); [split; [apply extends_same|]; auto|].
    destruct (awaiting ts) as [|p ps]; [split; [apply extends_same|]; auto|].
    match goal with |- context [deliver ?j ts st] => set (i := j) end.
    destruct (deliver_extends P i ts st Hts) as (Hts' & Hext & Hw & Hn & He).
    destruct (deliver i ts st) as [ts' st']. cbn [fst snd] in *.
    destruct (IH ts' st' Hts') as (Hext' & Hw' & Hn' & He').
    split; [eapply extends_trans; eassumption|].
    repeat split; congruence.
Qed.

Lemma Promise_all_extends {A : Type} (P : call -> Prop) (ts : list (task A))
    (st : state W) :
  Forall (within P) ts ->
  extends P st (Promise_all ts st).2
  /\ watchers (Promise_all ts st).2 = watchers st
  /\ now (Promise_all ts st).2 = now st
  /\ events (Promise_all ts st).2 = events st.
Proof.
  intros Hts. unfold Promise_all.
  destruct (settle_extends P (choices st) ts
              (emit (flat_map first_call ts) st) Hts) as (Hext & Hrest).
  split; [|exact Hrest].
  eapply extends_trans; [|exact Hext].
  apply extends_emit. clear Hext Hrest.
  induction Hts as [|t ts Ht _ IH]; simpl; [constructor|].
  apply Forall_app. split; [apply first_call_about, Ht|exact IH].
Qed.

End Footprint.

(** *** The footprint of the watchers *)

Lemma Forall_delete {A : Type} (P : A -> Prop) (n : nat) (l : list A) :
  Forall P l -> Forall P (delete n l).
Proof.
  intros Hl. apply Forall_forall. intros x Hx.
  apply list_elem_of_In, In_delete, list_elem_of_In in Hx.
  eapply Forall_forall in Hl; eassumption.
Qed.

Lemma map_insert_same {A B : Type} (f : A -> B) (l : list A) (i : nat) (x y : A) :
  l !! i = Some x -> f y = f x -> map f (<[i := y]> l) = map f l.
Proof.
  revert i. induction l as [|a l IH]; intros [|i]; simpl; try discriminate.
  - intros [= ->] ->. reflexivity.
  - intros Hi Hf. f_equal. apply IH; assumption.
Qed.

Lemma on_dns_footprint (t : N) (c : call) (r : reply (answer c)) (w : watcher) :
  dns c -> dns_only w ->
  Forall (about dns) (on_dns t c r w).2
  /\ dns_only (on_dns t c r w).1
  /\ w_k (on_dns t c r w).1 = w_k w
  /\ w_v (on_dns t c r w).1 = w_v w.
Proof.
  intros Hc Hw. destruct c; try discriminate Hc; cbn [on_dns].
  - destruct r as [e|addresses]; cbn; [auto|].
    split; [|split; [|auto]].
    + induction addresses as [|a l IH]; simpl; repeat constructor. exact IH.
    + apply Forall_app. split; [exact Hw|].
      induction addresses as [|a l IH]; simpl; constructor; auto.
  - destruct r as [e|result]; cbn; [auto|].
    destruct (negb _); cbn; repeat split; auto; repeat constructor.
Qed.

Lemma waitUntilVerify_dns_only (t : N) (records : list record) :
  Forall dns_only (map (waitUntilVerify t) records).
Proof. induction records; constructor; [constructor|assumption]. Qed.

Section WatcherFootprint.

Context {W : Type} `{!Env W}.

Lemma step_extends (ev : event) (st : state W) :
  Forall dns_only (watchers st) ->
  extends dns st (step ev st)
  /\ Forall dns_only (watchers (step ev st))
  /\ map w_k (watchers (step ev st)) = map w_k (watchers st)
  /\ map w_v (watchers (step ev st)) = map w_v (watchers st)
  /\ choices (step ev st) = choices st.
Proof.
  intros Hall.
  assert (Hidle : extends dns st st
                  /\ Forall dns_only (watchers st)
                  /\ map w_k (watchers st) = map w_k (watchers st)
                  /\ map w_v (watchers st) = map w_v (watchers st)
                  /\ choices st = choices st)
    by (split; [apply extends_refl|auto]).
  assert (Hmap : forall (f : watcher -> string) i w w',
             watchers st !! i = Some w -> f w' = f w ->
             map f (<[i := w']> (watchers st)) = map f (watchers st)).
  { intros f i w w' Hi Hf. eapply map_insert_same; eassumption. }
  destruct ev as [d|i|i n|i n]; unfold step.
  - split; [apply extends_same; reflexivity|auto].
  - destruct (watchers st !! i) as [w|] eqn:Hi; [|exact Hidle].
    destruct (w_interval w); [|exact Hidle].
    destruct (_ <=? _)%N; [|exact Hidle].
    pose proof (Forall_lookup_1 _ _ _ _ Hall Hi) as Hw.
    cbn. split; [|split; [|split; [|split]]].
    + eexists. split; [reflexivity|]. repeat constructor.
    + apply Forall_insert; [exact Hall|].
      apply Forall_app. split; [exact Hw|]. repeat constructor.
    + eapply Hmap; [exact Hi|reflexivity].
    + eapply Hmap; [exact Hi|reflexivity].
    + reflexivity.
  - destruct (watchers st !! i) as [w|] eqn:Hi; [|exact Hidle].
    destruct (w_inflight w !! n) as [c|] eqn:Hn; [|exact Hidle].
    destruct (respond c (world st)) as [r world'].
    pose proof (Forall_lookup_1 _ _ _ _ Hall Hi) as Hw.
    pose proof (Forall_lookup_1 _ _ _ _ Hw Hn) as Hc.
    destruct (on_dns_footprint (now st) c r
                (with_inflight (delete n (w_inflight w)) w) Hc)
      as (Hout & Hw' & Hk & Hv); [apply Forall_delete, Hw|].
    unfold commit, emit, set_watchers, set_world.
    cbn [trace watchers world now events choices].
    split; [|split; [|split; [|split]]].
    + exists (Reply c r :: (on_dns (now st) c r
                (with_inflight (delete n (w_inflight w)) w)).2).
      cbn [trace]. rewrite <- app_assoc. split; [reflexivity|].
      constructor; [exact Hc|exact Hout].
    + apply Forall_insert; [exact Hall|exact Hw'].
    + eapply Hmap; [exact Hi|exact Hk].
    + eapply Hmap; [exact Hi|exact Hv].
    + reflexivity.
  - destruct (watchers st !! i) as [w|] eqn:Hi; [|exact Hidle].
    destruct (w_timeouts w !! n); [|exact Hidle].
    destruct (_ <=? _)%N; [|exact Hidle].
    pose proof (Forall_lookup_1 _ _ _ _ Hall Hi) as Hw.
    cbn. split; [|split; [|split; [|split]]].
    + apply extends_same. cbn. apply app_nil_r.
    + apply Forall_insert; [exact Hall|exact Hw].
    + eapply Hmap; [exact Hi|reflexivity].
    + eapply Hmap; [exact Hi|reflexivity].
    + reflexivity.
Qed.

Lemma run_extends (evs : list event) : forall st : state W,
  Forall dns_only (watchers st) ->
  extends dns st (run evs st)
  /\ map w_k (watchers (run evs st)) = map w_k (watchers st)
  /\ map w_v (watchers (run evs st)) = map w_v (watchers st)
  /\ choices (run evs st) = choices st.
Proof.
  induction evs as [|ev evs IH]; intros st Hall.
  - split; [apply extends_refl|auto].
  - destruct (step_extends ev st Hall) as (Hext & Hall' & Hk & Hv & Hc).
    destruct (IH (step ev st) Hall') as (Hext' & Hk' & Hv' & Hc').
    split; [eapply extends_trans; eassumption|].
    change (run (ev :: evs) st) with (run evs (step ev st)).
    repeat split; congruence.
Qed.

(** The barrier: what [Promise.all] over the watchers of [records]
    leaves behind. *)
Lemma Promise_all_watchers_extends (t : N) (records : list record)
    (st : state W) :
  let r := Promise_all_watchers (map (waitUntilVerify t) records) st in
  extends dns st r.2
  /\ map w_k (watchers r.2) = map key records
  /\ map w_v (watchers r.2) = map value records
  /\ choices r.2 = choices st
  /\ match r.1 with
     | Resolved _ => forallb fulfilled (watchers r.2) = true
     | Rejected _ => False
     | Pending => forallb fulfilled (watchers r.2) = false /\ events r.2 = []
     end.
Proof.
  intros r. subst r. unfold Promise_all_watchers.
  set (ws := map (waitUntilVerify t) records).
  destruct (until_settled (events st) (set_watchers ws st)) as [o st'] eqn:Hrun.
  cbn [fst snd].
  apply until_settled_run in Hrun as (done & rest & Hevs & -> & Ho).
  destruct (run_extends done (set_watchers ws st)) as (Hext & Hk & Hv & Hc);
    [apply waitUntilVerify_dns_only|].
  split; [|split; [|split; [|split]]].
  - destruct Hext as (out & Htr & Hout). exists out. auto.
  - cbn. rewrite Hk. cbn. subst ws. rewrite map_map. reflexivity.
  - cbn. rewrite Hv. cbn. subst ws. rewrite map_map. reflexivity.
  - exact Hc.
  - destruct o as [[]|e|].
    + exact Ho.
    + cbn in Ho. rewrite broken_None in Ho; [discriminate|].
      apply run_unbroken, waitUntilVerify_unbroken.
    + destruct Ho as (-> & Hf). split; [exact Hf|reflexivity].
Qed.

End WatcherFootprint.

(** ** Reasoning about the top level *)

Lemma hoare_bind {W A B : Type} (P : state W -> Prop) (m : M W A)
    (Q1 : outcome A -> state W -> Prop) (f : A -> M W B)
    (Q : outcome B -> state W -> Prop) :
  hoare P m Q1 ->
  (forall a, hoare (Q1 (Resolved a)) (f a) Q) ->
  (forall e st, Q1 (Rejected e) st -> Q (Rejected e) st) ->
  (forall st, Q1 Pending st -> Q Pending st) ->
  hoare P (m ≫= f) Q.
Proof.
  intros Hm Hf Hrej Hpend st HP. specialize (Hm st HP).
  unfold mbind, M_mbind. destruct (m st) as [[a|e|] st']; cbn [fst snd] in *.
  - apply Hf, Hm.
  - apply Hrej, Hm.
  - apply Hpend, Hm.
Qed.

Lemma hoare_weaken {W A : Type} (P P' : state W -> Prop) (m : M W A)
    (Q Q' : outcome A -> state W -> Prop) :
  hoare P' m Q' ->
  (forall st, P st -> P' st) ->
  (forall o st, Q' o st -> Q o st) ->
  hoare P m Q.
Proof. intros Hm HP HQ st Hst. apply HQ, Hm, HP, Hst. Qed.

Lemma confined_bind {W A B : Type} (P : call -> Prop) (m : M W A)
    (f : A -> M W B) :
  confined P m -> (forall a, confined P (f a)) -> confined P (m ≫= f).
Proof.
  intros Hm Hf st. specialize (Hm st).
  unfold mbind, M_mbind. destruct (m st) as [[a|e|] st']; cbn [fst snd] in *;
    [|assumption..].
  eapply extends_trans; [exact Hm|apply Hf].
Qed.

Lemma confined_weaken {W A : Type} (P Q : call -> Prop) (m : M W A) :
  (forall c, P c -> Q c) -> confined P m -> confined Q m.
Proof. intros HPQ Hm st. eapply extends_weaken; [exact HPQ|apply Hm]. Qed.

(** A computation confined to [P] keeps every trace property that the
    entries about [P] have. *)
Lemma confined_keeps {W A : Type} (P : call -> Prop) (phi : io -> Prop)
    (m : M W A) :
  confined P m ->
  (forall x, about P x -> phi x) ->
  hoare (fun st => Forall phi (trace st)) m
        (fun _ st => Forall phi (trace st)).
Proof. intros Hm Hphi st Hst. eapply extends_Forall; [exact Hphi|apply Hm|exact Hst]. Qed.

Lemma within_weaken {A : Type} (P Q : call -> Prop) (t : task A) :
  (forall c, P c -> Q c) -> within P t -> within Q t.
Proof.
  intros HPQ. induction t as [a|e|c k IH]; simpl; auto.
  intros [Hc Hk]. split; auto.
Qed.

(** *** The footprint of each async function *)

Lemma within_initialize u : within (between 0 1) (initialize u).
Proof.
  unfold initialize. apply within_bind.
  - apply within_perform. unfold between. simpl. lia.
  - intros _. split; [unfold between; simpl; lia|]. intros [e|a]; exact I.
Qed.

Lemma within_createAccount mail : within (between 2 2) (createAccount mail).
Proof. apply within_perform. unfold between. simpl. lia. Qed.

Lemma within_fetchDomains u : within (between 3 3) (fetchDomains u).
Proof. split; [unfold between; simpl; lia|]. intros [e|a]; exact I. Qed.

Lemma within_getChallenges ds : within (between 4 5) (getChallenges ds).
Proof.
  unfold getChallenges. apply within_bind.
  - apply within_perform. unfold between. simpl. lia.
  - intros o. apply within_bind.
    + apply within_perform. unfold between. simpl. lia.
    + intros auths. destruct (map_throwing _ _); exact I.
Qed.

Lemma within_expectedRecord c : within (between 6 6) (expectedRecord c).
Proof.
  unfold expectedRecord. apply within_bind.
  - apply within_perform. unfold between. simpl. lia.
  - intros v. exact I.
Qed.

Lemma within_pushRecords u rs : within (between 7 7) (pushRecords u rs).
Proof. split; [unfold between; simpl; lia|]. intros [e|a]; exact I. Qed.

Lemma within_finalize c : within (between 9 9) (finalize c).
Proof.
  unfold finalize. apply within_bind.
  - apply within_perform. unfold between. simpl. lia.
  - intros _. apply within_bind.
    + apply within_perform. unfold between. simpl. lia.
    + intros _. apply within_perform. unfold between. simpl. lia.
Qed.

Lemma within_issue u ds o : within (between 10 13) (issue u ds o).
Proof.
  unfold issue. apply within_bind.
  - apply within_perform. unfold between. simpl. lia.
  - intros [k csr]. apply within_bind.
    + apply within_perform. unfold between. simpl. lia.
    + intros _. apply within_bind.
      * apply within_perform. unfold between. simpl. lia.
      * intros cert. split; [unfold between; simpl; lia|].
        intros [e|a]; exact I.
Qed.

Lemma Forall_within_map {A B : Type} (P : call -> Prop) (f : A -> task B)
    (l : list A) :
  (forall a, within P (f a)) -> Forall (within P) (map f l).
Proof. intros Hf. induction l; constructor; auto. Qed.

Section Confined.

Context {W : Type} `{!Env W}.

Lemma confined_await {A : Type} (P : call -> Prop) (t : task A) :
  within P t -> confined (W := W) P (await t).
Proof. intros Ht st. apply exec_extends, Ht. Qed.

Lemma confined_Promise_all {A : Type} (P : call -> Prop) (ts : list (task A)) :
  Forall (within P) ts -> confined (W := W) P (Promise_all ts).
Proof. intros Hts st. apply Promise_all_extends, Hts. Qed.

Lemma confined_watchers (P : call -> Prop) (t : N) (records : list record) :
  (forall c, dns c -> P c) ->
  confined (W := W) P (Promise_all_watchers (map (waitUntilVerify t) records)).
Proof.
  intros HP st. eapply extends_weaken; [exact HP|].
  apply Promise_all_watchers_extends.
Qed.

Lemma confined_console_log (P : call -> Prop) (line : string) :
  confined (W := W) P (console_log line).
Proof. intros st. apply extends_emit. repeat constructor. Qed.

Lemma confined_clock (P : call -> Prop) : confined (W := W) P clock.
Proof. intros st. apply extends_refl. Qed.

End Confined.

(** ** The stages of [startWorker] *)

Ltac stages := unfold between, dns in *; intros; simpl in *; lia.

#[local] Hint Resolve within_initialize within_createAccount
  within_fetchDomains within_getChallenges within_expectedRecord
  within_pushRecords within_finalize within_issue : footprint.

Ltac confine :=
  lazymatch goal with
  | |- confined _ (_ ≫= _) =>
      apply confined_bind;
      [confine
      |let a := fresh "a" in
       intros a;
       lazymatch type of a with
       | (_ * _)%type => destruct a
       | _ => idtac
       end;
       confine]
  | |- confined _ (await _) =>
      apply confined_await; eapply within_weaken; cycle 1;
      [solve [eauto with footprint]|stages]
  | |- confined _ (Promise_all (map _ _)) =>
      apply confined_Promise_all, Forall_within_map;
      let a := fresh "a" in
      intros a; eapply within_weaken; cycle 1;
      [solve [eauto with footprint]|stages]
  | |- confined _ (Promise_all_watchers _) =>
      apply confined_watchers; stages
  | |- confined _ (console_log _) => apply confined_console_log
  | |- confined _ clock => apply confined_clock
  end.

Lemma about_between_mono (lo hi lo' hi' : nat) (x : io) :
  lo' <= lo -> hi <= hi' -> about (between lo hi) x -> about (between lo' hi') x.
Proof. destruct x; simpl; unfold between; intros; lia || exact I. Qed.

Lemma about_not_failed (lo hi n : nat) (e : error) (x : io) :
  n < lo \/ hi < n -> about (between lo hi) x -> ~ failed_with n e x.
Proof.
  destruct x as [c|c [e'|a]|line]; simpl; auto.
  unfold between. intros Hn Hc [Hs _]. lia.
Qed.

Lemma fresh_between {W : Type} (lo hi : nat) (st : state W) :
  fresh st -> Forall (about (between lo hi)) (trace st).
Proof.
  intros Hst. eapply Forall_impl; [exact Hst|].
  intros [c|c r|line]; simpl; tauto.
Qed.

Lemma In_failed_with (c : call) (e : error) (tr : list io) :
  In (Reply c (Failure e)) tr -> Exists (failed_with (stage c) e) tr.
Proof.
  intros Hin. apply Exists_exists. exists (Reply c (Failure e)).
  split; [apply list_elem_of_In, Hin|]. simpl. auto.
Qed.

Lemma In_about (P : call -> Prop) (c : call) (tr : list io) :
  Forall (about P) tr -> In (Call c) tr -> P c.
Proof.
  intros Hall Hin. eapply Forall_forall in Hall;
    [|apply list_elem_of_In, Hin]. exact Hall.
Qed.

(** ** Calls whose failure ends the job *)

Lemma early_none_failed {W : Type} (lo hi n : nat) (st : state W) :
  n < lo \/ hi < n ->
  Forall (about (between lo hi)) (trace st) -> none_failed n st.
Proof.
  intros Hn Hst. eapply Forall_impl; [exact Hst|].
  intros x Hx e. eapply about_not_failed; eassumption.
Qed.

Section SingleCall.

Context {W : Type} `{!Env W}.

Lemma await_single_call {A : Type} (n : nat) (t : task A) :
  single_call t ->
  within (between n n) t ->
  hoare (W := W)
    (fun st => Forall (about (between 0 (pred n))) (trace st) /\ 0 < n)
    (await t)
    (fun o st =>
       match o with
       | Resolved _ => none_failed n st
       | Rejected e => stopped_at n e st
       | Pending => False
       end).
Proof.
  destruct t as [a|e|c k]; try contradiction.
  intros [Hfail Hok] [Hc _] st [Hst Hn].
  assert (Hsc : stage c = n) by (unfold between in Hc; lia).
  assert (Hold : none_failed n st)
    by (eapply (early_none_failed 0 (pred n)); [lia|exact Hst]).
  unfold await. cbn [exec].
  destruct (respond c (world st)) as [[e|a] w'].
  - rewrite Hfail. cbn [exec fst snd emit set_world trace]. split.
    + apply Forall_app. split.
      * eapply Forall_impl; [exact Hst|].
        intros x. apply about_between_mono; lia.
      * repeat constructor; unfold between; simpl; lia.
    + apply Forall_app. split.
      * eapply Forall_impl; [exact Hold|]. intros x Hx e' Hf.
        exfalso. eapply Hx, Hf.
      * constructor; [simpl; tauto|]. constructor; [|constructor].
        simpl. intros e' [_ Heq]. symmetry. exact Heq.
  - destruct (Hok a) as (v & Hv). rewrite Hv.
    cbn [exec fst snd emit set_world trace].
    apply Forall_app. split; [exact Hold|].
    constructor; [simpl; tauto|]. constructor; [|constructor]. simpl. tauto.
Qed.

Lemma confined_none_failed {A : Type} (lo hi n : nat) (m : M W A) :
  n < lo \/ hi < n ->
  confined (between lo hi) m ->
  hoare (none_failed n) m (fun _ st => none_failed n st).
Proof.
  intros Hn Hm. apply (confined_keeps (between lo hi)); [exact Hm|].
  intros x Hx e. eapply about_not_failed; eassumption.
Qed.

Lemma confined_early {A : Type} (lo hi n : nat) (m : M W A) :
  hi <= n ->
  confined (between lo hi) m ->
  hoare (fun st => Forall (about (between 0 n)) (trace st)) m
        (fun _ st => Forall (about (between 0 n)) (trace st)).
Proof.
  intros Hn Hm. apply (confined_keeps (between lo hi)); [exact Hm|].
  intros x. apply about_between_mono; lia.
Qed.

End SingleCall.

(** ** C8: a failure of [fetchDomains] *)

Section FetchDomains.

Context {W : Type} `{!Env W}.

(** The stages up to [fetchDomains]: if it fails the worker rejects
    with that error, having made no call of a later stage. *)
Lemma startWorker_fetchDomains (uuid : option string) :
  hoare (W := W) fresh (startWorker uuid)
    (fun o st =>
       none_failed 3 st \/ exists e, o = Rejected e /\ stopped_at 3 e st).
Proof.
  assert (Hearly : forall st : state W,
            Forall (about (between 0 2)) (trace st) -> none_failed 3 st)
    by (intros st; apply early_none_failed; lia).
  unfold startWorker.
  eapply hoare_bind with (Q1 := fun _ st => Forall (about (between 0 2)) (trace st)).
  { eapply hoare_weaken; [apply (confined_early 0 1 2); [lia|confine]|..];
      [|auto].
    intros st Hst. apply fresh_between, Hst. }
  2, 3: intros; left; auto.
  intros initResult.
  eapply hoare_bind with (Q1 := fun _ st => Forall (about (between 0 2)) (trace st)).
  { apply (confined_early 2 2 2); [lia|confine]. }
  2, 3: intros; left; auto.
  intros _.
  eapply hoare_bind.
  - eapply hoare_weaken; [apply (await_single_call 3)|..].
    + split; [reflexivity|]. intros a. eexists. reflexivity.
    + auto with footprint.
    + intros st Hst. split; [exact Hst|lia].
    + intros o' st Hst. exact Hst.
  - intros domains.
    eapply hoare_weaken; [apply (confined_none_failed 4 13 3)|..].
    + lia.
    + confine.
    + auto.
    + intros; left; assumption.
  - intros e st Hst. right. exists e. auto.
  - intros st [].
Qed.

End FetchDomains.

(** C8.  In every execution of the program in which the coordinator
    answers [fetchDomains] with an error, the worker rejects with that
    error and [registerChallenges] is never called. *)
Theorem fetchDomains_failure_prevents_publication
    {W : Type} `{!Env W} (HOST PORT WORKER_UUID : option string)
    (world0 : W) (t0 : N) (evs : list event) (cs : list nat)
    (u : option string) (e : error) :
  let r := main HOST PORT WORKER_UUID (boot world0 t0 evs cs) in
  In (Reply (Rpc_fetchDomains u) (Failure e)) (trace r.2) ->
  r.1 = Rejected e
  /\ forall u' payload, ~ In (Call (Rpc_registerChallenges u' payload)) (trace r.2).
Proof.
  intros r Hin. subst r. unfold main in *.
  unfold mbind, M_mbind, console_log in *. cbn [fst snd] in *.
  set (st1 := emit _ _) in *.
  assert (Hfresh : fresh st1) by (repeat constructor).
  destruct (startWorker_fetchDomains WORKER_UUID st1 Hfresh)
    as [Hnone|(e' & Hrej & Hstage & Hsame)].
  - exfalso. apply In_failed_with in Hin. apply Exists_exists in Hin
      as (x & Hx & Hf).
    eapply Forall_forall in Hnone; [|exact Hx]. eapply Hnone, Hf.
  - destruct (startWorker WORKER_UUID st1) as [o st']. cbn [fst snd] in *.
    subst o. split.
    + apply In_failed_with in Hin. apply Exists_exists in Hin as (x & Hx & Hf).
      eapply Forall_forall in Hsame; [|exact Hx]. f_equal. symmetry.
      apply Hsame. exact Hf.
    + intros u' payload Hcall.
      pose proof (In_about _ _ _ Hstage Hcall) as Hb. stages.
Qed.

(** ** C5: the DNS-01 challenge of each authorization *)

Lemma filter_first (l : list challenge) :
  match List.filter (fun c => String.eqb (challenge_type c) "dns-01") l with
  | [] => Forall (fun c => challenge_type c <> "dns-01") l
  | c :: _ =>
      exists before after_,
        l = before ++ c :: after_
        /\ challenge_type c = "dns-01"
        /\ Forall (fun c' => challenge_type c' <> "dns-01") before
  end.
Proof.
  induction l as [|c l IH]; simpl; [constructor|].
  destruct (String.eqb_spec (challenge_type c) "dns-01") as [Heq|Hne].
  - exists [], l. auto.
  - destruct (List.filter _ l) as [|c' rest].
    + constructor; assumption.
    + destruct IH as (before & after_ & -> & Hty & Hbefore).
      exists (c :: before), after_. auto.
Qed.

Lemma select_dns01_spec (a : authorization) :
  match select_dns01 a with
  | inl e => e = no_dns01 /\ lacks_dns01 a
  | inr s => auth s = a /\ first_dns01 a (dns01 s)
  end.
Proof.
  unfold select_dns01, lacks_dns01, first_dns01.
  pose proof (filter_first (auth_challenges a)) as H.
  destruct (List.filter _ _) as [|c rest]; simpl; auto.
Qed.

Lemma lacks_dns01_not_first (a : authorization) (c : challenge) :
  lacks_dns01 a -> ~ first_dns01 a c.
Proof.
  intros Hl (before & after_ & Heq & Hty & _). unfold lacks_dns01 in Hl.
  rewrite Heq in Hl. apply Forall_app in Hl as [_ Hl].
  apply Forall_cons in Hl as [Hc _]. contradiction.
Qed.

Lemma map_throwing_select (auths : list authorization) :
  match map_throwing select_dns01 auths with
  | inl e => e = no_dns01 /\ Exists lacks_dns01 auths
  | inr cs =>
      Forall2 (fun a s => auth s = a /\ first_dns01 a (dns01 s)) auths cs
      /\ Forall (fun a => ~ lacks_dns01 a) auths
  end.
Proof.
  induction auths as [|a auths IH]; simpl; [auto|].
  pose proof (select_dns01_spec a) as Ha.
  destruct (select_dns01 a) as [e|s].
  - destruct Ha as [-> Hl]. auto.
  - destruct (map_throwing select_dns01 auths) as [e|cs].
    + destruct IH as [-> Hex]. auto.
    + destruct IH as [Hcs Hall]. destruct Ha as [Hs Hfirst]. split.
      * constructor; auto.
      * constructor; [|exact Hall].
        intros Hl. eapply lacks_dns01_not_first; eassumption.
Qed.

Lemma about_no_authorizations (lo hi : nat) (x : io) :
  5 < lo \/ hi < 5 -> about (between lo hi) x -> authorizations_of x = None.
Proof.
  destruct x as [c|c r|line]; simpl; auto.
  unfold between. intros Hn Hc. destruct c; simpl in *; try reflexivity. lia.
Qed.

Ltac run_task :=
  repeat (unfold mbind, task_mbind, perform;
          cbn [exec task_bind fst snd emit set_world trace world]).

Section GetChallenges.

Context {W : Type} `{!Env W}.

Lemma confined_all_offer_dns01 {A : Type} (lo hi : nat) (m : M W A) :
  5 < lo \/ hi < 5 ->
  confined (between lo hi) m ->
  hoare all_offer_dns01 m (fun _ st => all_offer_dns01 st).
Proof.
  intros Hn Hm. apply (confined_keeps (between lo hi)); [exact Hm|].
  intros x Hx auths Hsome.
  rewrite (about_no_authorizations lo hi x Hn Hx) in Hsome. discriminate.
Qed.

Lemma await_getChallenges (ds : list string) :
  hoare (W := W)
    (fun st => Forall (about (between 0 3)) (trace st))
    (await (getChallenges ds))
    (fun o st =>
       match o with
       | Resolved _ => all_offer_dns01 st
       | Rejected e =>
           all_offer_dns01 st
           \/ (e = no_dns01 /\ Forall (about (between 0 5)) (trace st))
       | Pending => False
       end).
Proof.
  intros st Hst.
  assert (Hold : all_offer_dns01 st).
  { eapply Forall_impl; [exact Hst|]. intros x Hx auths Hsome.
    rewrite (about_no_authorizations 0 3 x) in Hsome; [discriminate|lia|exact Hx]. }
  assert (Hold5 : Forall (about (between 0 5)) (trace st)).
  { eapply Forall_impl; [exact Hst|]. intros x. apply about_between_mono; lia. }
  unfold await, getChallenges. run_task.
  set (ids := map _ ds).
  destruct (respond (Acme_createOrder ids) (world st)) as [[e|o] w1];
    run_task.
  - left. apply Forall_app. split; [exact Hold|].
    repeat constructor; simpl; discriminate.
  - destruct (respond (Acme_getAuthorizations o) w1) as [[e|auths] w2];
      run_task.
    + left. repeat (apply Forall_app; split); [exact Hold|..];
        repeat constructor; simpl; discriminate.
    + pose proof (map_throwing_select auths) as Hsel.
      destruct (map_throwing select_dns01 auths) as [e|cs];
        cbn [exec fst snd trace].
      * destruct Hsel as [-> _]. right. split; [reflexivity|].
        repeat (apply Forall_app; split); [exact Hold5|..];
          repeat constructor; unfold between; simpl; lia.
      * destruct Hsel as [_ Hall].
        repeat (apply Forall_app; split); [exact Hold|..];
          repeat constructor; simpl; try discriminate.
        intros auths' [= <-]. exact Hall.
Qed.

Lemma startWorker_getChallenges (uuid : option string) :
  hoare (W := W) fresh (startWorker uuid)
    (fun o st =>
       all_offer_dns01 st
       \/ (o = Rejected no_dns01 /\ Forall (about (between 0 5)) (trace st))).
Proof.
  assert (Hearly : forall st : state W,
            Forall (about (between 0 3)) (trace st) -> all_offer_dns01 st).
  { intros st Hst. eapply Forall_impl; [exact Hst|]. intros x Hx auths Hsome.
    rewrite (about_no_authorizations 0 3 x) in Hsome; [discriminate|lia|exact Hx]. }
  unfold startWorker.
  eapply hoare_bind with (Q1 := fun _ st => Forall (about (between 0 3)) (trace st)).
  { eapply hoare_weaken;
      [apply (confined_keeps (between 0 3) (about (between 0 3)));
       [confine|auto]|..]; [|auto].
    intros st Hst. apply fresh_between, Hst. }
  2, 3: intros; left; auto.
  intros initResult.
  eapply hoare_bind with (Q1 := fun _ st => Forall (about (between 0 3)) (trace st)).
  { apply (confined_keeps (between 0 3) (about (between 0 3))); [confine|auto]. }
  2, 3: intros; left; auto.
  intros _.
  eapply hoare_bind with (Q1 := fun _ st => Forall (about (between 0 3)) (trace st)).
  { apply (confined_keeps (between 0 3) (about (between 0 3))); [confine|auto]. }
  2, 3: intros; left; auto.
  intros domains.
  eapply hoare_bind; [apply await_getChallenges|..].
  - intros [o challenges].
    eapply hoare_weaken; [apply (confined_all_offer_dns01 6 13)|..].
    + lia.
    + confine.
    + auto.
    + intros; left; assumption.
  - intros e st [Hst|[-> Hst]]; [left|right]; auto.
  - intros st [].
Qed.

End GetChallenges.

(** C5.  [getChallenges] pairs every authorization with its first
    challenge of type [dns-01]; if some authorization has none it throws.
    In every execution of the program in which [getAuthorizations]
    returns an authorization without a [dns-01] challenge, the worker
    rejects with that error and [registerChallenges] is never called. *)
Theorem getChallenges_selects_first_dns01
    {W : Type} `{!Env W} (HOST PORT WORKER_UUID : option string) :
  (forall (ds : list string) (st : state W) (o : order)
          (auths : list authorization) (w1 w2 : W),
      respond (Acme_createOrder
                 (map (fun d => Identifier "dns" d) ds)) (world st)
        = (Success o, w1) ->
      respond (Acme_getAuthorizations o) w1 = (Success auths, w2) ->
      (Forall (fun a => exists c, first_dns01 a c) auths ->
       exists cs,
         (await (getChallenges ds) st).1 = Resolved (o, cs)
         /\ Forall2 (fun a s => auth s = a /\ first_dns01 a (dns01 s)) auths cs)
      /\ (Exists lacks_dns01 auths ->
          (await (getChallenges ds) st).1 = Rejected no_dns01))
  /\ (forall (world0 : W) (t0 : N) (evs : list event) (cs : list nat)
             (o : order) (auths : list authorization),
        let r := main HOST PORT WORKER_UUID (boot world0 t0 evs cs) in
        In (Reply (Acme_getAuthorizations o) (Success auths)) (trace r.2) ->
        Exists lacks_dns01 auths ->
        r.1 = Rejected no_dns01
        /\ forall u payload,
             ~ In (Call (Rpc_registerChallenges u payload)) (trace r.2)).
Proof.
  split.
  - intros ds st o auths w1 w2 Ho Ha.
    unfold await, getChallenges. run_task.
    rewrite Ho. run_task. rewrite Ha. run_task.
    pose proof (map_throwing_select auths) as Hsel.
    destruct (map_throwing select_dns01 auths) as [e|chs]; cbn [exec fst].
    + destruct Hsel as [-> Hex]. split; [|reflexivity].
      intros Hall. exfalso.
      apply Exists_exists in Hex as (a & Hin & Hl).
      eapply Forall_forall in Hall as (c & Hc); [|exact Hin].
      eapply lacks_dns01_not_first; eassumption.
    + destruct Hsel as [Hcs Hnone]. split.
      * intros _. exists chs. auto.
      * intros Hex. exfalso.
        apply Exists_exists in Hex as (a & Hin & Hl).
        eapply Forall_forall in Hnone; [|exact Hin]. contradiction.
  - intros world0 t0 evs cs o auths r Hin Hex. subst r. unfold main in *.
    unfold mbind, M_mbind, console_log in *. cbn [fst snd] in *.
    set (st1 := emit _ _) in *.
    assert (Hfresh : fresh st1) by (repeat constructor).
    destruct (startWorker_getChallenges WORKER_UUID st1 Hfresh)
      as [Hgood|[Hrej Hstage]].
    + exfalso. eapply Forall_forall in Hgood; [|apply list_elem_of_In, Hin].
      specialize (Hgood auths eq_refl).
      apply Exists_exists in Hex as (a & Ha & Hl).
      eapply Forall_forall in Hgood; [|exact Ha]. contradiction.
    + split; [exact Hrej|].
      intros u payload Hcall.
      pose proof (In_about _ _ _ Hstage Hcall) as Hb. stages.
Qed.

(** ** C3: what is published *)

Section PushRecords.

Context {W : Type} `{!Env W}.

(** The stages up to [pushRecords]: if [registerChallenges] fails the
    worker rejects with that error, having made no call of a later
    stage. *)
Lemma startWorker_pushRecords (uuid : option string) :
  hoare (W := W) fresh (startWorker uuid)
    (fun o st =>
       none_failed 7 st \/ exists e, o = Rejected e /\ stopped_at 7 e st).
Proof.
  assert (Hearly : forall st : state W,
            Forall (about (between 0 6)) (trace st) -> none_failed 7 st)
    by (intros st; apply early_none_failed; lia).
  unfold startWorker.
  eapply hoare_bind with (Q1 := fun _ st => Forall (about (between 0 6)) (trace st)).
  { eapply hoare_weaken; [apply (confined_early 0 1 6); [lia|confine]|..];
      [|auto].
    intros st Hst. apply fresh_between, Hst. }
  2, 3: intros; left; auto.
  intros initResult.
  eapply hoare_bind with (Q1 := fun _ st => Forall (about (between 0 6)) (trace st)).
  { apply (confined_early 2 2 6); [lia|confine]. }
  2, 3: intros; left; auto.
  intros _.
  eapply hoare_bind with (Q1 := fun _ st => Forall (about (between 0 6)) (trace st)).
  { apply (confined_early 3 3 6); [lia|confine]. }
  2, 3: intros; left; auto.
  intros domains.
  eapply hoare_bind with (Q1 := fun _ st => Forall (about (between 0 6)) (trace st)).
  { apply (confined_early 4 5 6); [lia|confine]. }
  2, 3: intros; left; auto.
  intros [o challenges].
  eapply hoare_bind with (Q1 := fun _ st => Forall (about (between 0 6)) (trace st)).
  { apply (confined_early 6 6 6); [lia|confine]. }
  2, 3: intros; left; auto.
  intros records.
  eapply hoare_bind.
  - eapply hoare_weaken; [apply (await_single_call 7)|..].
    + split; [reflexivity|]. intros a. exists tt. reflexivity.
    + auto with footprint.
    + intros st Hst. split; [exact Hst|lia].
    + intros o' st Hst. exact Hst.
  - intros []. eapply hoare_weaken; [apply (confined_none_failed 8 13 7)|..].
    + lia.
    + confine.
    + auto.
    + intros; left; assumption.
  - intros e st Hst. right. exists e. auto.
  - intros st [].
Qed.

End PushRecords.

(** C3, as amended.  [pushRecords] makes one [registerChallenges] call,
    whose payload is the worker's identity and the expected TXT value of
    every record, in order (the DNS keys are not sent); it rejects if
    and only if that call fails, with the same error.  In every
    execution of the program in which [registerChallenges] fails, the
    worker rejects with that error and makes no call of a later stage
    (no DNS query, no finalization, no issuance). *)
Theorem pushRecords_sends_values
    {W : Type} `{!Env W} (HOST PORT WORKER_UUID : option string) :
  (forall (records : list record) (st : state W),
      let c := Rpc_registerChallenges WORKER_UUID (map value records) in
      let r := await (pushRecords WORKER_UUID records) st in
      trace r.2 = trace st ++ [Call c; Reply c (respond c (world st)).1]
      /\ r.1 = match (respond c (world st)).1 with
               | Failure e => Rejected e
               | Success _ => Resolved tt
               end)
  /\ (forall (world0 : W) (t0 : N) (evs : list event) (cs : list nat)
             (u : option string) (payload : list string) (e : error),
        let r := main HOST PORT WORKER_UUID (boot world0 t0 evs cs) in
        In (Reply (Rpc_registerChallenges u payload) (Failure e)) (trace r.2) ->
        r.1 = Rejected e
        /\ forall c, In (Call c) (trace r.2) -> stage c <= 7).
Proof.
  split.
  - intros records st c r. subst r.
    unfold await, pushRecords, workerUuid.
    change (map (fun r => value r) records) with (map value records).
    fold c. cbn [exec].
    destruct (respond c (world st)) as [[e|[]] w']; cbn; auto.
  - intros world0 t0 evs cs u payload e r Hin. subst r. unfold main in *.
    unfold mbind, M_mbind, console_log in *. cbn [fst snd] in *.
    set (st1 := emit _ _) in *.
    assert (Hfresh : fresh st1) by (repeat constructor).
    destruct (startWorker_pushRecords WORKER_UUID st1 Hfresh)
      as [Hnone|(e' & Hrej & Hstage & Hsame)].
    + exfalso. apply In_failed_with in Hin.
      apply Exists_exists in Hin as (x & Hx & Hf).
      eapply Forall_forall in Hnone; [|exact Hx]. eapply Hnone, Hf.
    + destruct (startWorker WORKER_UUID st1) as [o st']. cbn [fst snd] in *.
      subst o. split.
      * apply In_failed_with in Hin.
        apply Exists_exists in Hin as (x & Hx & Hf).
        eapply Forall_forall in Hsame; [|exact Hx]. f_equal. symmetry.
        apply Hsame. exact Hf.
      * intros c Hcall.
        pose proof (In_about _ _ _ Hstage Hcall) as Hb. stages.
Qed.

(** ** C2: the barrier before finalization *)

Lemma finalizing_stage (c : call) : finalizing c -> stage c = 9.
Proof. destruct c; simpl; tauto. Qed.

Lemma forallb_fulfilled (ws : list watcher) :
  forallb fulfilled ws = true <-> Forall (fun w => w_promise w = Fulfilled) ws.
Proof.
  induction ws as [|w ws IH]; simpl; [split; auto|].
  unfold fulfilled at 1. rewrite Forall_cons.
  destruct (w_promise w); simpl; rewrite ?IH; intuition discriminate.
Qed.

Lemma forallb_fulfilled_false (ws : list watcher) :
  forallb fulfilled ws = false ->
  Exists (fun w => w_promise w <> Fulfilled) ws.
Proof.
  induction ws as [|w ws IH]; simpl; [discriminate|].
  unfold fulfilled at 1.
  destruct (w_promise w) eqn:Hp; simpl; intros Hf;
    try (apply Exists_cons_hd; rewrite Hp; discriminate).
  apply Exists_cons_tl, IH, Hf.
Qed.

Lemma extends_In {W : Type} (P : call -> Prop) (st st' : state W) (x : io) :
  extends P st st' -> In x (trace st) -> In x (trace st').
Proof. intros (out & -> & _) Hin. apply in_or_app. left. exact Hin. Qed.

Section Barrier.

Context {W : Type} `{!Env W}.

Lemma verified_kept {A : Type} (P : call -> Prop) uuid records (m : M W A) :
  (forall st, extends P st (m st).2 /\ watchers (m st).2 = watchers st) ->
  hoare (verified uuid records) m (fun _ st => verified uuid records st).
Proof.
  intros Hm st (Hall & Hk & Hv & Hin). destruct (Hm st) as (Hext & Hw).
  unfold verified. rewrite Hw. repeat split; try assumption.
  eapply extends_In; eassumption.
Qed.

Lemma startWorker_barrier (uuid : option string) :
  hoare (W := W) fresh (startWorker uuid)
    (fun o st =>
       Forall (about (between 0 8)) (trace st)
       \/ exists records, verified uuid records st).
Proof.
  unfold startWorker.
  eapply hoare_bind with (Q1 := fun _ st => Forall (about (between 0 8)) (trace st)).
  { eapply hoare_weaken; [apply (confined_early 0 1 8); [lia|confine]|..];
      [|auto].
    intros st Hst. apply fresh_between, Hst. }
  2, 3: intros; left; auto.
  intros initResult.
  eapply hoare_bind with (Q1 := fun _ st => Forall (about (between 0 8)) (trace st)).
  { apply (confined_early 2 2 8); [lia|confine]. }
  2, 3: intros; left; auto.
  intros _.
  eapply hoare_bind with (Q1 := fun _ st => Forall (about (between 0 8)) (trace st)).
  { apply (confined_early 3 3 8); [lia|confine]. }
  2, 3: intros; left; auto.
  intros domains.
  eapply hoare_bind with (Q1 := fun _ st => Forall (about (between 0 8)) (trace st)).
  { apply (confined_early 4 5 8); [lia|confine]. }
  2, 3: intros; left; auto.
  intros [o challenges].
  eapply hoare_bind with (Q1 := fun _ st => Forall (about (between 0 8)) (trace st)).
  { apply (confined_early 6 6 8); [lia|confine]. }
  2, 3: intros; left; auto.
  intros records.
  eapply hoare_bind with (Q1 := fun _ st => published uuid records st).
  { (* pushRecords *)
    intros st Hst. unfold await, pushRecords, workerUuid. cbn [exec].
    change (map (fun r => value r) records) with (map value records).
    destruct (respond _ (world st)) as [[e|[]] w'];
      cbn [exec fst snd emit set_world trace]; split;
      try (apply Forall_app; split; [exact Hst|];
           repeat constructor; unfold between; simpl; lia);
      apply in_or_app; right; left; reflexivity. }
  2, 3: cbv beta; intros;
    match goal with H : published _ _ _ |- _ => destruct H; left; assumption end.
  intros [].
  eapply hoare_bind with (Q1 := fun _ st => published uuid records st).
  { intros st [Hst Hin]. cbn. split.
    - apply Forall_app. split; [exact Hst|]. repeat constructor.
    - apply in_or_app. left. exact Hin. }
  2, 3: cbv beta; intros;
    match goal with H : published _ _ _ |- _ => destruct H; left; assumption end.
  intros [].
  eapply hoare_bind with (Q1 := fun _ st => published uuid records st).
  { intros st Hst. exact Hst. }
  2, 3: cbv beta; intros;
    match goal with H : published _ _ _ |- _ => destruct H; left; assumption end.
  intros t.
  eapply hoare_bind
    with (Q1 := fun o st =>
                  match o with
                  | Resolved _ => verified uuid records st
                  | _ => Forall (about (between 0 8)) (trace st)
                  end).
  { (* the barrier *)
    intros st [Hst Hin].
    destruct (Promise_all_watchers_extends t records st)
      as (Hext & Hk & Hv & _ & Ho).
    assert (Hearly : Forall (about (between 0 8))
              (trace (Promise_all_watchers (map (waitUntilVerify t) records) st).2)).
    { eapply extends_Forall; [|exact Hext|exact Hst].
      intros [c|c r|line]; simpl; auto; stages. }
    destruct (Promise_all_watchers _ st) as [[[]|e|] st']; cbn [fst snd] in *;
      [|exact Hearly..].
    split; [apply forallb_fulfilled, Ho|]. split; [exact Hk|].
    split; [exact Hv|]. eapply extends_In; eassumption. }
  2, 3: intros; left; assumption.
  intros [].
  eapply hoare_bind with (Q1 := fun _ st => verified uuid records st).
  { apply (verified_kept (between 9 9)). intros st.
    destruct (Promise_all_extends (between 9 9) (map finalize challenges) st)
      as (Hext & Hw & _); [|auto].
    apply Forall_within_map. intros c. auto with footprint. }
  2, 3: cbv beta; intros; right; exists records; assumption.
  intros _.
  eapply hoare_weaken; [apply (verified_kept (between 10 13) uuid records)|..].
  - intros st.
    destruct (exec_extends (between 10 13) (issue uuid domains o)
                (within_issue _ _ _) st) as (Hext & Hw & _). auto.
  - auto.
  - cbv beta. intros o' st Hst. right. exists records. exact Hst.
Qed.

End Barrier.

(** C2.  [Promise.all] over the watchers of N records resolves only in
    a state in which all N watchers have signalled; it never rejects,
    and while it is pending some watcher has not signalled.  In every
    execution of the program, once a call of [finalize] has been made
    for any challenge, the watchers of all the published records have
    signalled. *)
Theorem finalize_after_all_verified
    {W : Type} `{!Env W} (HOST PORT WORKER_UUID : option string) :
  (forall (t : N) (records : list record) (st : state W),
      let b := Promise_all_watchers (map (waitUntilVerify t) records) st in
      length (watchers b.2) = length records
      /\ match b.1 with
         | Resolved _ =>
             Forall (fun w => w_promise w = Fulfilled) (watchers b.2)
         | Rejected _ => False
         | Pending =>
             Exists (fun w => w_promise w <> Fulfilled) (watchers b.2)
         end)
  /\ (forall (world0 : W) (t0 : N) (evs : list event) (cs : list nat)
             (c : call),
        let r := main HOST PORT WORKER_UUID (boot world0 t0 evs cs) in
        In (Call c) (trace r.2) ->
        finalizing c ->
        exists records,
          In (Call (Rpc_registerChallenges WORKER_UUID (map value records)))
             (trace r.2)
          /\ length (watchers r.2) = length records
          /\ map w_k (watchers r.2) = map key records
          /\ map w_v (watchers r.2) = map value records
          /\ Forall (fun w => w_promise w = Fulfilled) (watchers r.2)).
Proof.
  split.
  - intros t records st b. subst b.
    destruct (Promise_all_watchers_extends t records st)
      as (_ & Hk & _ & _ & Ho).
    split.
    + rewrite <- (length_map w_k), Hk, length_map. reflexivity.
    + destruct (Promise_all_watchers _ st).1 as [[]|e|].
      * apply forallb_fulfilled, Ho.
      * exact Ho.
      * destruct Ho as [Hf _]. apply forallb_fulfilled_false, Hf.
  - intros world0 t0 evs cs c r Hin Hfin. subst r. unfold main in *.
    unfold mbind, M_mbind, console_log in *. cbn [fst snd] in *.
    set (st1 := emit _ _) in *.
    assert (Hfresh : fresh st1) by (repeat constructor).
    destruct (startWorker_barrier WORKER_UUID st1 Hfresh)
      as [Hearly|(records & Hall & Hk & Hv & Hcall)].
    + exfalso. pose proof (In_about _ _ _ Hearly Hin) as Hb.
      apply finalizing_stage in Hfin. stages.
    + exists records. repeat split; try assumption.
      rewrite <- (length_map w_k), Hk, length_map. reflexivity.
Qed.

(** ** C4: the expected records *)

Lemma record_state_mono c t out more :
  record_state c t out -> record_state c t (out ++ more).
Proof.
  intros [H|[(v & H & Hin)|H]]; [left|right; left|right; right]; auto.
  exists v. split; [assumption|]. apply in_or_app. left. assumption.
Qed.

Lemma length_awaiting_from {A : Type} (ts : list (task A)) : forall b,
  length (awaiting_from b ts) = length (List.filter is_awaiting ts).
Proof.
  induction ts as [|t ts IH]; intros b; simpl; [reflexivity|].
  destruct (is_awaiting t); simpl; rewrite IH; reflexivity.
Qed.

Lemma In_awaiting_from {A : Type} (ts : list (task A)) : forall b i,
  In i (awaiting_from b ts) ->
  exists j t, i = b + j /\ ts !! j = Some t /\ is_awaiting t = true.
Proof.
  induction ts as [|t ts IH]; intros b i; simpl; [tauto|].
  destruct (is_awaiting t) eqn:Ht.
  - intros [<-|Hin].
    + exists 0, t. split; [lia|]. auto.
    + destruct (IH _ _ Hin) as (j & t' & -> & Hj & Ht').
      exists (S j), t'. split; [lia|]. auto.
  - intros Hin. destruct (IH _ _ Hin) as (j & t' & -> & Hj & Ht').
    exists (S j), t'. split; [lia|]. auto.
Qed.

Lemma filter_awaiting_insert {A : Type} (ts : list (task A)) : forall i t t',
  ts !! i = Some t -> is_awaiting t = true -> is_awaiting t' = false ->
  S (length (List.filter is_awaiting (<[i := t']> ts)))
  = length (List.filter is_awaiting ts).
Proof.
  induction ts as [|t0 ts IH]; intros [|i] t t' Hi Ht Ht'; simpl in *;
    try discriminate.
  - injection Hi as ->. rewrite Ht, Ht'. reflexivity.
  - destruct (is_awaiting t0); simpl; erewrite <- IH; eauto.
Qed.

Lemma awaiting_nil_returned {A : Type} (ts : list (task A)) :
  thrown ts = None -> List.filter is_awaiting ts = [] ->
  Forall2 (fun t a => t = Return a) ts (returned ts).
Proof.
  induction ts as [|t ts IH]; simpl; [constructor|].
  destruct t as [a|e|c k]; simpl; try discriminate.
  intros Hth Haw. constructor; auto.
Qed.

Section Records.

Context {W : Type} `{!Env W}.

Variable challenges : list selected.
Variable tr0 : list io.

Lemma computing_start (st : state W) :
  trace st = tr0 ->
  computing challenges tr0 (map expectedRecord challenges)
            (emit (flat_map first_call (map expectedRecord challenges)) st).
Proof.
  intros Htr. eexists. split; [unfold emit; cbn [trace]; rewrite Htr; reflexivity|].
  induction challenges as [|c cs IH]; simpl; constructor.
  - left. reflexivity.
  - eapply Forall2_impl; [exact IH|].
    intros c' t [H|[(v & H & Hin)|H]]; [left|right; left|right; right]; auto.
    exists v. split; [exact H|]. right. exact Hin.
Qed.

Lemma deliver_computing (i : nat) (ts : list (task record)) (st : state W) :
  computing challenges tr0 ts st ->
  computing challenges tr0 (deliver i ts st).1 (deliver i ts st).2
  /\ (key_authorizing (W := W) ->
      Forall (fun t => thrown [t] = None) ts ->
      Forall (fun t => thrown [t] = None) (deliver i ts st).1
      /\ forall t, ts !! i = Some t -> is_awaiting t = true ->
           S (length (List.filter is_awaiting (deliver i ts st).1))
           = length (List.filter is_awaiting ts)).
Proof.
  intros (out & Htr & Hall). unfold deliver.
  destruct (ts !! i) as [t|] eqn:Hi; cbn [fst snd];
    [|split; [exists out; auto|intros _ Hth; split; [exact Hth|discriminate]]].
  destruct (Forall2_lookup_r _ _ _ _ _ Hall Hi) as (c & Hc & Hstate).
  destruct Hstate as [->|[(v & -> & Hin)|(e & ->)]]; cbn [fst snd];
    try (split; [exists out; auto|intros _ Hth; split; [exact Hth|]];
         intros t [= <-]; discriminate).
  unfold expectedRecord, mbind, task_mbind, perform. cbn [task_bind].
  destruct (respond (Acme_getChallengeKeyAuthorization (dns01 c)) (world st))
    as [r w'] eqn:Hr.
  unfold emit, set_world. cbn [fst snd trace].
  assert (Hothers : forall more,
            Forall2 (fun c t => record_state c t (out ++ more)) challenges ts).
  { intros more. eapply Forall2_impl; [exact Hall|].
    intros c' t'. apply record_state_mono. }
  split.
  - eexists. split; [rewrite Htr, <- app_assoc; reflexivity|].
    rewrite <- (list_insert_id challenges i c Hc).
    apply Forall2_insert; [apply Hothers|].
    destruct r as [e|v]; cbn [task_bind first_call].
    + right. right. exists e. reflexivity.
    + right. left. exists v. split; [reflexivity|].
      apply in_or_app. right. left. reflexivity.
  - intros Hka Hth. destruct (Hka (dns01 c) (world st)) as (v & w'' & Hv).
    rewrite Hv in Hr. injection Hr as <- <-. cbn [task_bind]. split.
    + apply Forall_insert; [exact Hth|reflexivity].
    + intros t [= <-] _. eapply filter_awaiting_insert; eauto.
Qed.

Lemma thrown_None {A : Type} (ts : list (task A)) :
  Forall (fun t => thrown [t] = None) ts -> thrown ts = None.
Proof.
  induction 1 as [|t ts Ht _ IH]; [reflexivity|].
  destruct t; simpl in *; auto.
Qed.

Lemma awaiting_nil {A : Type} (ts : list (task A)) :
  awaiting ts = [] -> List.filter is_awaiting ts = [].
Proof.
  intros Haw. apply length_zero_iff_nil.
  rewrite <- (length_awaiting_from ts 0). fold (awaiting ts).
  rewrite Haw. reflexivity.
Qed.

Lemma computing_resolved (ts : list (task record)) (st : state W) :
  computing challenges tr0 ts st -> thrown ts = None -> awaiting ts = [] ->
  exists out,
    trace st = tr0 ++ out /\ Forall2 (record_of out) challenges (returned ts).
Proof.
  intros (out & Htr & Hall) Hth Haw. exists out. split; [exact Htr|].
  pose proof (awaiting_nil_returned ts Hth (awaiting_nil ts Haw)) as Hret.
  clear Hth Haw Htr. revert Hret. generalize (returned ts).
  induction Hall as [|c t cs ts Hc _ IH]; intros rs Hret;
    inversion Hret as [|? r ? rs' Hr Hrest]; subst; constructor.
  - destruct Hc as [Hc|[(v & [= ->] & Hin)|(e & Hc)]]; try discriminate.
    split; [reflexivity|exact Hin].
  - apply IH, Hrest.
Qed.

Lemma settle_computing (cs : list nat) :
  forall (ts : list (task record)) (st : state W),
  computing challenges tr0 ts st ->
  (forall records, (settle cs ts st).1 = Resolved records ->
     exists out,
       trace (settle cs ts st).2 = tr0 ++ out
       /\ Forall2 (record_of out) challenges records)
  /\ (key_authorizing (W := W) ->
      Forall (fun t => thrown [t] = None) ts ->
      length (List.filter is_awaiting ts) <= length cs ->
      exists records, (settle cs ts st).1 = Resolved records).
Proof.
  induction cs as [|c cs IH]; intros ts st Hcomp; cbn [settle].
  - destruct (thrown ts) as [e|] eqn:Hth.
    + split; [discriminate|]. intros _ Hall _.
      rewrite (thrown_None ts Hall) in Hth. discriminate.
    + destruct (awaiting ts) as [|p ps] eqn:Haw; cbn [fst snd].
      * split; [|eauto]. intros records [= <-].
        destruct (computing_resolved ts st Hcomp Hth Haw) as (out & Htr & Hrec).
        exists out. auto.
      * split; [discriminate|]. intros _ _ Hlen.
        rewrite <- (length_awaiting_from ts 0) in Hlen. fold (awaiting ts) in Hlen.
        rewrite Haw in Hlen. simpl in Hlen. lia.
  - destruct (thrown ts) as [e|] eqn:Hth.
    + split; [discriminate|]. intros _ Hall _.
      rewrite (thrown_None ts Hall) in Hth. discriminate.
    + destruct (awaiting ts) as [|p ps] eqn:Haw; cbn [fst snd].
      * split; [|eauto]. intros records [= <-].
        destruct (computing_resolved ts st Hcomp Hth Haw) as (out & Htr & Hrec).
        exists out. auto.
      * set (i := nth (c mod length (p :: ps)) (p :: ps) p).
        destruct (deliver_computing i ts st Hcomp) as (Hcomp' & Hprog).
        destruct (deliver i ts st) as [ts' st'] eqn:Hd. cbn [fst snd] in *.
        destruct (IH ts' st' Hcomp') as (Hsound & Hlive).
        split; [exact Hsound|].
        intros Hka Hall Hlen. destruct (Hprog Hka Hall) as (Hall' & Hdec).
        apply Hlive; [exact Hka|exact Hall'|].
        assert (Hin : In i (awaiting ts)).
        { rewrite Haw. apply nth_In. apply Nat.mod_upper_bound. discriminate. }
        apply In_awaiting_from in Hin as (j & t & Hij & Hj & Ht).
        simpl in Hij. subst j.
        specialize (Hdec t Hj Ht). simpl in Hlen. lia.
Qed.

End Records.

Lemma expectedRecord_awaiting (challenges : list selected) :
  length (List.filter is_awaiting (map expectedRecord challenges))
  = length challenges
  /\ Forall (fun t => thrown [t] = None) (map expectedRecord challenges).
Proof.
  induction challenges as [|c cs [IH1 IH2]]; simpl; [auto|].
  split; [rewrite IH1; reflexivity|]. constructor; [reflexivity|exact IH2].
Qed.

Lemma record_of_keys (out : list io) (challenges : list selected)
    (records : list record) :
  Forall2 (record_of out) challenges records ->
  map key records
  = map (String.append "_acme-challenge.")
        (map (fun c => identifier_value (auth_identifier (auth c))) challenges)
  /\ length records = length challenges.
Proof.
  induction 1 as [|c r cs rs [Hk _] _ [IH1 IH2]]; simpl; [auto|].
  rewrite Hk, IH1, IH2. auto.
Qed.

(** C4.  The expected records are computed by [Promise.all] over the
    challenge list.  When it resolves, it yields exactly one record per
    challenge, in the order of the challenge list; the key of each is
    [_acme-challenge.] followed by the domain identifier of that
    challenge's authorization, and its value is a key authorization
    that the ACME client gave for that challenge; so, when the
    authorizations are those of the domains, there is one record per
    domain, in order.  It does resolve whenever the ACME client
    produces the key authorizations and the calls get to complete. *)
Theorem expected_records_one_per_domain
    {W : Type} `{!Env W} (challenges : list selected) (st : state W) :
  let r := Promise_all (map expectedRecord challenges) st in
  (forall records,
      r.1 = Resolved records ->
      exists out,
        trace r.2 = trace st ++ out
        /\ Forall2 (record_of out) challenges records
        /\ length records = length challenges
        /\ forall ds,
             map (fun c => identifier_value (auth_identifier (auth c)))
                 challenges = ds ->
             length records = length ds
             /\ map key records = map (String.append "_acme-challenge.") ds)
  /\ (key_authorizing (W := W) ->
      length challenges <= length (choices st) ->
      exists records, r.1 = Resolved records).
Proof.
  intros r. subst r. unfold Promise_all.
  destruct (expectedRecord_awaiting challenges) as (Hlen & Hth).
  set (st1 := emit _ st).
  destruct (settle_computing challenges (trace st) (choices st)
              (map expectedRecord challenges) st1) as (Hsound & Hlive).
  { apply computing_start. reflexivity. }
  split.
  - intros records Hres. destruct (Hsound records Hres) as (out & Htr & Hrec).
    exists out. split; [exact Htr|]. split; [exact Hrec|].
    destruct (record_of_keys out challenges records Hrec) as (Hkeys & Hl).
    split; [exact Hl|]. intros ds <-. rewrite length_map. auto.
  - intros Hka Hcs. apply Hlive; [exact Hka|exact Hth|].
    rewrite Hlen. exact Hcs.
Qed.

(** ** C7: issuance *)

(** C7.  [issue] first asks for a CSR whose common name is the first
    domain and whose alternative names are the remaining domains, in
    order.  When the CSR is created, the order finalized and the
    certificate retrieved, it reports to the coordinator the CSR, the
    private key and the certificate, each base64-encoded, and resolves
    or rejects as that report does. *)
Theorem issue_builds_csr_and_reports
    {W : Type} `{!Env W} (uuid : option string) (d : string)
    (others : list string) (o : order) (st : state W) :
  (exists k, issue uuid (d :: others) o
             = Await (Acme_createCsr (Some d) others) k)
  /\ forall (privKey csr : Buffer) (cert : string) (w1 w2 w3 : W),
       respond (Acme_createCsr (Some d) others) (world st)
         = (Success (privKey, csr), w1) ->
       respond (Acme_finalizeOrder o csr) w1 = (Success tt, w2) ->
       respond (Acme_getCertificate o) w2 = (Success cert, w3) ->
       let report :=
         Rpc_verifiedCallback uuid (toString_base64 csr)
           (toString_base64 privKey) (toString_base64 (Buffer_from cert)) in
       let r := await (issue uuid (d :: others) o) st in
       trace r.2
       = trace st ++
           [Call (Acme_createCsr (Some d) others);
            Reply (Acme_createCsr (Some d) others) (Success (privKey, csr));
            Call (Acme_finalizeOrder o csr);
            Reply (Acme_finalizeOrder o csr) (Success tt);
            Call (Acme_getCertificate o);
            Reply (Acme_getCertificate o) (Success cert);
            Call report;
            Reply report (respond report w3).1]
       /\ r.1 = match (respond report w3).1 with
                | Failure e => Rejected e
                | Success _ => Resolved tt
                end.
Proof.
  split; [eexists; reflexivity|].
  intros privKey csr cert w1 w2 w3 Hcsr Hfin Hcert report r. subst r.
  unfold await, issue, workerUuid. run_task.
  change (drop 1 (d :: others)) with others.
  change (head (d :: others)) with (Some d). rewrite Hcsr. run_task.
  rewrite Hfin. run_task. rewrite Hcert. run_task. fold report.
  destruct (respond report w3) as [[e|[]] w4]; run_task;
    rewrite <- !app_assoc; auto.
Qed.

(** ** C10: the empty domain set *)

Section Empty.

Context {W : Type} `{!Env W}.

Lemma Promise_all_nil {A : Type} (st : state W) :
  Promise_all (A := A) [] st
  = (Resolved [],
     State (world st) (trace st ++ []) (now st) (watchers st) (events st)
           (choices st)).
Proof. unfold Promise_all. destruct (choices st); reflexivity. Qed.

Lemma Promise_all_watchers_nil (st : state W) :
  Promise_all_watchers [] st
  = (Resolved tt,
     State (world st) (trace st) (now st) [] (events st) (choices st)).
Proof. unfold Promise_all_watchers. destruct (events st); reflexivity. Qed.

Lemma exec_first_call {A : Type} (P : call -> Prop) (c : call)
    (k : reply (answer c) -> task A) (st : state W) :
  within P (Await c k) ->
  exists rest,
    trace (exec (Await c k) st).2 = trace st ++ Call c :: rest
    /\ Forall (about P) rest.
Proof.
  intros [Hc Hk]. cbn [exec].
  destruct (respond c (world st)) as [r w'].
  destruct (exec_extends P (k r) (Hk r)
              (emit [Call c; Reply c r] (set_world w' st)))
    as ((out & Htr & Hout) & _).
  exists (Reply c r :: out). split.
  - rewrite Htr. cbn [emit trace]. rewrite <- app_assoc. reflexivity.
  - constructor; assumption.
Qed.

Lemma exec_settles {A : Type} (t : task A) : forall st : state W,
  (exec t st).1 <> Pending.
Proof.
  induction t as [a|e|c k IH]; intros st; cbn [exec]; try discriminate.
  destruct (respond c (world st)) as [r w']. apply IH.
Qed.

End Empty.

(** C10.  Take an execution in which the collaborators accept
    everything up to the publication and the coordinator assigns no
    domain, the ACME server then returning an order without
    authorizations.  No step of the worker rejects the empty set:
    [getChallenges] resolves with an empty challenge list,
    [registerChallenges] is called with no record, the barrier resolves
    without consuming a single event or making a single DNS query, no
    challenge is finalized, and the worker goes on to ask for a CSR
    without a common name. *)
Theorem empty_domain_set_is_not_rejected
    {W : Type} `{!Env W} (HOST PORT WORKER_UUID : option string)
    (world0 w1 w2 w3 w4 w5 w6 w7 : W) (t0 : N) (evs : list event)
    (cs : list nat) (accountKey : Buffer) (reg : registration) (o : order) :
  respond Acme_createPrivateKey world0 = (Success accountKey, w1) ->
  respond (Rpc_registerClient WORKER_UUID) w1 = (Success reg, w2) ->
  respond (Acme_createAccount true [("mailto:" ++ email reg)%string]) w2
    = (Success tt, w3) ->
  respond (Rpc_fetchDomains WORKER_UUID) w3 = (Success (Assignment []), w4) ->
  respond (Acme_createOrder []) w4 = (Success o, w5) ->
  respond (Acme_getAuthorizations o) w5 = (Success [], w6) ->
  respond (Rpc_registerChallenges WORKER_UUID []) w6 = (Success tt, w7) ->
  let r := main HOST PORT WORKER_UUID (boot world0 t0 evs cs) in
  (forall st, world st = w4 ->
     (await (getChallenges []) st).1 = Resolved (o, []))
  /\ In (Call (Rpc_registerChallenges WORKER_UUID [])) (trace r.2)
  /\ In (Call (Acme_createCsr None [])) (trace r.2)
  /\ (forall c, In (Call c) (trace r.2) -> ~ dns c /\ ~ finalizing c)
  /\ watchers r.2 = []
  /\ events r.2 = evs
  /\ choices r.2 = cs
  /\ r.1 <> Pending.
Proof.
  intros H1 H2 H3 H4 H5 H6 H7 r.
  split.
  { intros st Hst. unfold await, getChallenges. run_task.
    cbn [map]. rewrite Hst, H5. run_task. rewrite H6. run_task. reflexivity. }
  subst r.
  unfold main, startWorker, mbind at 1 2 3 4 5 6 7 8 9 10 11, M_mbind,
    console_log, clock, await, boot.
  unfold initialize, createAccount, fetchDomains, getChallenges, pushRecords,
    workerUuid.
  run_task. rewrite H1. run_task. rewrite H2. run_task. rewrite H3. run_task.
  rewrite H4. run_task. cbn [domains map]. rewrite H5. run_task.
  rewrite H6. run_task. cbn [map_throwing exec fst snd map].
  rewrite Promise_all_nil. run_task. cbn [map]. rewrite H7. run_task.
  rewrite Promise_all_watchers_nil. rewrite Promise_all_nil.
  cbn [world trace now watchers events choices].
  match goal with |- context [exec _ ?s] => set (st9 := s) end.
  destruct (exec_extends (between 10 13) (issue WORKER_UUID [] o)
              (within_issue _ _ _) st9) as (_ & Hw & _ & Hev & Hcs).
  destruct (exec_first_call (between 10 13) (Acme_createCsr None []) _ st9
              (within_issue WORKER_UUID [] o)) as (rest & Htr & Hrest).
  change (Await (Acme_createCsr None []) _) with (issue WORKER_UUID [] o) in Htr.
  pose proof (exec_settles (issue WORKER_UUID [] o) st9) as Hsettles.
  destruct (exec (issue WORKER_UUID [] o) st9) as [o9 st10].
  cbn [fst snd] in *. rewrite Htr. subst st9. cbn [trace] in *.
  split; [|split; [|split; [|split; [|split; [|split]]]]]; try assumption.
  - apply in_or_app. left. cbn. intuition.
  - apply in_or_app. right. left. reflexivity.
  - intros c Hin. apply in_app_or in Hin as [Hin|[Hin|Hin]].
    + cbn in Hin.
      repeat (destruct Hin as [Hin|Hin];
              [first [discriminate Hin
                     |injection Hin as <-; unfold dns; simpl;
                      split; [discriminate|tauto]]|]).
      destruct Hin.
    + injection Hin as <-. unfold dns. simpl. split; [discriminate|tauto].
    + pose proof (In_about _ _ _ Hrest Hin) as Hb.
      split; [stages|]. intros Hf. apply finalizing_stage in Hf. stages.
Qed.

(** ** The pace of a watcher *)

Ltac watcher_simpl :=
  unfold after, commit, emit, set_world, set_now, set_watchers, set_events,
    set_choices, with_interval, with_inflight, with_timeouts,
    on_interval, on_timeout in *;
  cbn [w_k w_v w_interval w_inflight w_timeouts w_promise
       trace watchers world now events choices fst snd
       lookup list_lookup insert list_insert] in *.

Lemma polls_logged (K : string) (addresses : list string) :
  polls (flat_map (fun addr =>
           [Console_log ("Found CNAME " ++ K ++ " => " ++ addr)%string;
            Call (Dns_resolveTxt addr)]) addresses) = [].
Proof. induction addresses as [|a l IH]; simpl; auto. Qed.

Section Pace.

Context {W : Type} `{!Env W}.

Lemma moves_pacing (t0 : N) (st : state W) w st' w' :
  moves st w st' w' -> pacing t0 st w -> pacing t0 st' w'.
Proof.
  intros Hm (Hnow & Hdue).
  destruct Hm; subst; unfold pacing in *; try subst w'; watcher_simpl;
    rewrite ?polls_app; cbn [polls List.filter is_poll];
    rewrite ?polls_logged, ?app_nil_r; cbn [polls List.filter is_poll];
    rewrite ?app_nil_r;
    try (split; [lia|auto]; fail).
  - (* a tick *)
    specialize (Hdue due H). rewrite length_app. cbn [length].
    split; [lia|]. intros due' [= <-]. lia.
  - (* the value is seen *)
    split; [lia|]. discriminate.
Qed.

Lemma run_pacing K V (t0 : N) evs : forall (st : state W) w,
  watching K V st w -> pacing t0 st w ->
  exists w', watching K V (run evs st) w' /\ pacing t0 (run evs st) w'.
Proof.
  induction evs as [|ev evs IH]; intros st w Hw Hp; [eauto|].
  destruct (step_next K V st w ev Hw) as (w1 & Hm & Hw1).
  apply (IH _ w1 Hw1). eapply moves_pacing; eassumption.
Qed.

Lemma moves_maturing (t0 : N) (st : state W) w st' w' :
  moves st w st' w' -> maturing t0 st w -> maturing t0 st' w'.
Proof.
  intros Hm (Hint & Hfl & Hdue & Hful).
  assert (Hsome : forall n c, w_inflight w !! n = Some c ->
            (t0 + 5 * 1000 <= now st)%N).
  { intros n c Hn. apply Hfl. intros Hnil. rewrite Hnil in Hn. discriminate. }
  destruct Hm; subst; unfold maturing in *; try subst w'; watcher_simpl.
  - auto.
  - (* time passes *)
    split; [auto|]. split; [intros Hne; specialize (Hfl Hne); lia|].
    split; [auto|]. intros Hp. specialize (Hful Hp). lia.
  - (* a tick *)
    specialize (Hint due H).
    split; [intros due' [= <-]; lia|]. split; [intros _; lia|]. auto.
  - split; [auto|]. split; [intros _; eauto|]. auto.
  - split; [auto|]. split; [intros _; eauto|]. auto.
  - split; [auto|]. split; [intros _; eauto|]. auto.
  - split; [auto|]. split; [intros _; eauto|]. auto.
  - (* the value is seen *)
    specialize (Hsome _ _ H).
    split; [discriminate|]. split; [intros _; assumption|].
    split; [|auto].
    intros due Hin. apply in_app_or in Hin as [Hin|[<-|[]]]; [auto|lia].
  - (* a timer calls back *)
    pose proof (Hdue due (In_lookup _ _ _ H)) as Hd.
    split; [auto|]. split; [auto|].
    split; [intros d Hin; apply Hdue; eapply In_delete, Hin|].
    intros _. lia.
Qed.

Lemma run_maturing K V (t0 : N) evs : forall (st : state W) w,
  watching K V st w -> maturing t0 st w ->
  exists w', watching K V (run evs st) w' /\ maturing t0 (run evs st) w'.
Proof.
  induction evs as [|ev evs IH]; intros st w Hw Hp; [eauto|].
  destruct (step_next K V st w ev Hw) as (w1 & Hm & Hw1).
  apply (IH _ w1 Hw1). eapply moves_maturing; eassumption.
Qed.

End Pace.

Section PaceOfCalled.

Context {W : Type} `{!Env W}.

Lemma moves_polls K (st : state W) w st' w' :
  moves st w st' w' -> w_k w = K ->
  Forall (fun x => x = Call (Dns_resolveCname K)) (polls (trace st)) ->
  Forall (fun x => x = Call (Dns_resolveCname K)) (polls (trace st')).
Proof.
  intros Hm Hk Hall.
  destruct Hm; subst; try subst w'; watcher_simpl;
    rewrite ?polls_app; cbn [polls List.filter is_poll];
    rewrite ?polls_logged, ?app_nil_r; cbn [polls List.filter is_poll];
    rewrite ?app_nil_r; try assumption.
  apply Forall_app. split; [assumption|]. repeat constructor.
Qed.

Lemma run_polls K V evs : forall (st : state W) w,
  watching K V st w ->
  Forall (fun x => x = Call (Dns_resolveCname K)) (polls (trace st)) ->
  Forall (fun x => x = Call (Dns_resolveCname K)) (polls (trace (run evs st))).
Proof.
  induction evs as [|ev evs IH]; intros st w Hw Hp; [exact Hp|].
  destruct (step_next K V st w ev Hw) as (w1 & Hm & Hw1).
  apply (IH _ w1 Hw1). eapply moves_polls; [exact Hm|apply Hw|exact Hp].
Qed.

Lemma pacing_called (world0 : W) t0 rcd :
  pacing t0 (called world0 t0 rcd) (waitUntilVerify t0 rcd).
Proof. split; simpl; [lia|]. intros due [= <-]. lia. Qed.

Lemma maturing_called (world0 : W) t0 rcd :
  maturing t0 (called world0 t0 rcd) (waitUntilVerify t0 rcd).
Proof.
  split; [|split; [|split]]; simpl.
  - intros due [= <-]. lia.
  - intros Hne. contradiction.
  - intros due [].
  - discriminate.
Qed.

End PaceOfCalled.

(** X13.  A watcher polls at most once per period: whatever the timer
    and DNS events, when [n] CNAME queries have been started since
    [waitUntilVerify] was called at [t0], at least [n] periods of 5
    seconds have passed; in particular the first query is not started
    before [t0] plus 5 seconds.  Every one of these queries is for the
    key of the record. *)
Theorem waitUntilVerify_polls_once_per_period
    {W : Type} `{!Env W} (world0 : W) (t0 : N) (rcd : record)
    (evs : list event) :
  let st := run evs (called world0 t0 rcd) in
  (t0 + 5 * 1000 * N.of_nat (length (polls (trace st))) <= now st)%N
  /\ Forall (fun x => x = Call (Dns_resolveCname (key rcd))) (polls (trace st)).
Proof.
  intros st. subst st. split.
  - destruct (run_pacing (key rcd) (value rcd) t0 evs
                (called world0 t0 rcd) (waitUntilVerify t0 rcd))
      as (w & _ & Hnow & _);
      [apply watching_called|apply pacing_called|exact Hnow].
  - eapply run_polls; [apply watching_called|constructor].
Qed.

(** X14.  A watcher needs 20 seconds at least: whatever the timer and
    DNS events, a DNS query is in flight only once the first period of
    5 seconds has passed since [waitUntilVerify] was called at [t0], a
    settle timer is never due before [t0] plus 20 seconds, and the
    promise is not fulfilled before [t0] plus 20 seconds. *)
Theorem waitUntilVerify_needs_twenty_seconds
    {W : Type} `{!Env W} (world0 : W) (t0 : N) (rcd : record)
    (evs : list event) :
  let st := run evs (called world0 t0 rcd) in
  exists w,
    watchers st = [w]
    /\ (w_inflight w <> [] -> (t0 + 5 * 1000 <= now st)%N)
    /\ (forall due, In due (w_timeouts w) -> (t0 + 20 * 1000 <= due)%N)
    /\ (w_promise w = Fulfilled -> (t0 + 20 * 1000 <= now st)%N).
Proof.
  intros st. subst st.
  destruct (run_maturing (key rcd) (value rcd) t0 evs
              (called world0 t0 rcd) (waitUntilVerify t0 rcd))
    as (w & Hw & _ & Hfl & Hdue & Hful);
    [apply watching_called|apply maturing_called|].
  exists w. split; [apply Hw|]. split; [exact Hfl|]. split.
  - intros due Hin. specialize (Hdue due Hin). lia.
  - intros Hp. specialize (Hful Hp). lia.
Qed.

(** ** The order of the workflow *)

Lemma ascending_weaken (n m : nat) (tr : list io) :
  n <= m -> ascending m tr -> ascending n tr.
Proof.
  revert n m. induction tr as [|[c|c r|line] tr IH]; intros n m Hnm; simpl; auto.
  - intros [Hc Hrest]. split; [lia|exact Hrest].
  - intros [Hc Hrest]. split; [lia|exact Hrest].
  - apply IH, Hnm.
Qed.

Lemma ascending_app (n m : nat) (tr out : list io) :
  n <= m ->
  ascending n tr -> Forall (about (fun c => stage c <= m)) tr -> ascending m out ->
  ascending n (tr ++ out).
Proof.
  revert n. induction tr as [|[c|c r|line] tr IH]; intros n Hnm Htr Hall Hout;
    simpl in *.
  - eapply ascending_weaken; eassumption.
  - apply Forall_cons in Hall as [Hc Hall]. destruct Htr as [Hn Htr].
    split; [exact Hn|]. apply IH; auto.
  - apply Forall_cons in Hall as [Hc Hall]. destruct Htr as [Hn Htr].
    split; [exact Hn|]. apply IH; auto.
  - apply Forall_cons in Hall as [_ Hall]. apply IH; auto.
Qed.

Lemma ascending_single (s : nat) (out : list io) :
  Forall (about (between s s)) out -> ascending s out.
Proof.
  induction 1 as [|[c|c r|line] out Hc _ IH]; simpl; auto;
    unfold between in Hc; simpl in Hc;
    (split; [lia|]); replace (stage c) with s by lia; exact IH.
Qed.

Lemma ascending_all (n : nat) (tr : list io) :
  ascending n tr -> Forall (about (fun c => n <= stage c)) tr.
Proof.
  revert n. induction tr as [|[c|c r|line] tr IH]; intros n; simpl;
    [constructor|..].
  - intros [Hn Htr]. constructor; [exact Hn|].
    eapply Forall_impl; [apply IH, Htr|].
    intros [c'|c' r'|l]; simpl; auto; lia.
  - intros [Hn Htr]. constructor; [exact Hn|].
    eapply Forall_impl; [apply IH, Htr|].
    intros [c'|c' r'|l]; simpl; auto; lia.
  - intros Htr. constructor; [exact I|]. apply IH, Htr.
Qed.

Lemma ascending_after (n : nat) (tr1 rest : list io) (c : call) :
  ascending n (tr1 ++ Call c :: rest) -> ascending (stage c) rest.
Proof.
  revert n. induction tr1 as [|[c'|c' r|line] tr1 IH]; intros n; simpl.
  - tauto.
  - intros [_ H]. eauto.
  - intros [_ H]. eauto.
  - eauto.
Qed.

(** Nothing of a later stage comes before a reply. *)
Lemma ascending_last (tr : list io) (c : call) (r : reply (answer c)) :
  ascending 0 (tr ++ [Reply c r]) ->
  forall c', In (Call c') (tr ++ [Reply c r]) -> stage c' <= stage c.
Proof.
  intros Hasc c' Hin.
  apply in_app_or in Hin as [Hin|[Hin|[]]]; [|discriminate].
  apply in_split in Hin as (a & b & ->).
  rewrite <- app_assoc in Hasc. cbn [app] in Hasc.
  apply ascending_after, ascending_all in Hasc.
  apply Forall_app in Hasc as [_ Hasc].
  apply Forall_cons in Hasc as [Hc _]. exact Hc.
Qed.

Lemma in_turn_weaken (lo lo' : nat) (tr : list io) :
  lo <= lo' -> in_turn lo' tr -> in_turn lo tr.
Proof.
  revert lo lo'. induction tr as [|[c|c r|line] tr IH]; intros lo lo' Hlo;
    simpl; eauto.
  intros [Hc Hrest]. split; [intros Ha; specialize (Hc Ha); lia|].
  eapply IH; [|exact Hrest]. lia.
Qed.

Lemma in_turn_app (lo n : nat) (tr out : list io) :
  lo <= n ->
  in_turn lo tr -> Forall (about (fun c => stage c < n)) tr -> in_turn n out ->
  in_turn lo (tr ++ out).
Proof.
  revert lo. induction tr as [|[c|c r|line] tr IH]; intros lo Hlo Htr Hall Hout;
    simpl in *.
  - eapply in_turn_weaken; eassumption.
  - apply Forall_cons in Hall as [Hc Hall]. destruct Htr as [Hn Htr].
    split; [exact Hn|]. simpl in Hc. apply IH; auto. lia.
  - apply Forall_cons in Hall as [_ Hall]. apply IH; auto.
  - apply Forall_cons in Hall as [_ Hall]. apply IH; auto.
Qed.

Lemma in_turn_free (lo : nat) (out : list io) :
  Forall (about (fun c => ~ awaited_alone c)) out -> in_turn lo out.
Proof.
  intros Hout. revert lo.
  induction Hout as [|[c|c r|line] out Hc _ IH]; intros lo; simpl; auto.
  split; [intros Ha; contradiction|apply IH].
Qed.

Lemma in_turn_In (lo : nat) (tr : list io) (c : call) :
  in_turn lo tr -> In (Call c) tr -> awaited_alone c -> lo <= stage c.
Proof.
  revert lo. induction tr as [|[c'|c' r|line] tr IH]; intros lo; simpl;
    [tauto|..].
  - intros [Hn Htr] [[= ->]|Hin] Ha; [auto|].
    specialize (IH _ Htr Hin Ha). lia.
  - intros Htr [[=]|Hin]. eauto.
  - intros Htr [[=]|Hin]. eauto.
Qed.

Lemma in_turn_after (lo : nat) (tr1 rest : list io) (c : call) :
  in_turn lo (tr1 ++ Call c :: rest) -> in_turn (S (stage c)) rest.
Proof.
  revert lo. induction tr1 as [|[c'|c' r|line] tr1 IH]; intros lo; simpl; eauto.
  - intros [_ H]. eapply in_turn_weaken; [|exact H]. lia.
  - intros [_ H]. eauto.
Qed.

Lemma reached_weaken {W : Type} (n m : nat) (st : state W) :
  n <= m -> reached n st -> reached m st.
Proof.
  intros Hnm (Hasc & Hturn & Hall). split; [exact Hasc|]. split; [exact Hturn|].
  eapply Forall_impl; [exact Hall|]. intros [c|c r|line]; simpl; auto; lia.
Qed.

Lemma reached_extends {W : Type} (n lo hi : nat) (st st' : state W)
    (out : list io) :
  n <= S lo -> lo <= hi ->
  reached n st ->
  trace st' = trace st ++ out ->
  Forall (about (between lo hi)) out ->
  ascending lo out ->
  in_turn n out ->
  reached (S hi) st'.
Proof.
  intros Hn Hhi (Hasc & Hturn & Hall) Htr Hout Hup Hout'.
  split; [|split]; rewrite Htr.
  - apply (ascending_app 0 lo); [lia|exact Hasc| |exact Hup].
    eapply Forall_impl; [exact Hall|]. intros [c|c r|line]; simpl; auto; lia.
  - apply (in_turn_app 0 n); [lia|exact Hturn|exact Hall|exact Hout'].
  - apply Forall_app. split.
    + eapply Forall_impl; [exact Hall|]. intros [c|c r|line]; simpl; auto; lia.
    + eapply Forall_impl; [exact Hout|].
      intros [c|c r|line]; unfold between; simpl; auto; lia.
Qed.

Section Order.

Context {W : Type} `{!Env W}.

(** A step of the workflow whose calls are made under [Promise.all] or
    in callbacks, or that makes no call. *)
Lemma reached_confined {A : Type} (n s : nat) (m : M W A) :
  n <= S s ->
  (forall c, stage c = s -> ~ awaited_alone c) ->
  confined (between s s) m ->
  hoare (reached n) m (fun _ st => reached (S s) st).
Proof.
  intros Hn Hs Hm st Hst. destruct (Hm st) as (out & Htr & Hout).
  eapply (reached_extends n s s); eauto.
  - apply ascending_single, Hout.
  - apply in_turn_free. eapply Forall_impl; [exact Hout|].
    intros [c|c r|line]; unfold between; simpl; auto;
      intros Hc; apply Hs; lia.
Qed.

Lemma exec_climbing {A : Type} (lo hi : nat) (t : task A) :
  forall (n n' : nat) (st : state W),
  climbing n t -> stepping n' t -> within (between lo hi) t ->
  exists out,
    trace (exec t st).2 = trace st ++ out
    /\ ascending n out
    /\ in_turn n' out
    /\ Forall (about (between lo hi)) out.
Proof.
  induction t as [a|e|c k IH]; intros n n' st Hup Hstep Hin; cbn [exec].
  - exists []. rewrite app_nil_r. simpl. auto.
  - exists []. rewrite app_nil_r. simpl. auto.
  - destruct Hup as [Hn Hup]. destruct Hstep as [Hn' Hstep].
    destruct Hin as [Hc Hin].
    destruct (respond c (world st)) as [r w'].
    destruct (IH r (stage c) (S (stage c))
                (emit [Call c; Reply c r] (set_world w' st))
                (Hup r) (Hstep r) (Hin r)) as (out & Htr & Hasc & Hturn & Hall).
    exists (Call c :: Reply c r :: out). split; [|split; [|split]].
    + rewrite Htr. cbn [emit trace set_world]. rewrite <- app_assoc. reflexivity.
    + simpl. auto.
    + simpl. split; [auto|]. replace (Nat.max n' (S (stage c))) with (S (stage c))
        by lia. exact Hturn.
    + constructor; [exact Hc|]. constructor; [exact Hc|exact Hall].
Qed.

(** A step of the workflow that is one async function, awaited. *)
Lemma reached_await {A : Type} (n lo hi : nat) (t : task A) :
  n <= lo -> lo <= hi ->
  climbing lo t -> stepping lo t -> within (between lo hi) t ->
  hoare (reached n) (await t) (fun _ st => reached (S hi) st).
Proof.
  intros Hn Hhi Hup Hstep Hin st Hst.
  destruct (exec_climbing lo hi t lo lo st Hup Hstep Hin)
    as (out & Htr & Hasc & Hturn & Hall).
  eapply (reached_extends n lo hi); eauto; try lia.
  eapply in_turn_weaken; [exact Hn|exact Hturn].
Qed.

End Order.

Ltac climb :=
  repeat (cbn [climbing stepping task_bind];
          lazymatch goal with
          | |- _ /\ _ => split; [simpl; lia|]
          | |- forall _ : reply _, _ => intros [?|?]
          | |- climbing _ (match ?x with _ => _ end) => destruct x
          | |- stepping _ (match ?x with _ => _ end) => destruct x
          | |- True => exact I
          end).

Lemma climbing_initialize u : climbing 0 (initialize u) /\ stepping 0 (initialize u).
Proof. unfold initialize, mbind, task_mbind, perform. split; climb. Qed.

Lemma climbing_createAccount mail :
  climbing 2 (createAccount mail) /\ stepping 2 (createAccount mail).
Proof. unfold createAccount, perform. split; climb. Qed.

Lemma climbing_fetchDomains u :
  climbing 3 (fetchDomains u) /\ stepping 3 (fetchDomains u).
Proof. unfold fetchDomains. split; climb. Qed.

Lemma climbing_getChallenges ds :
  climbing 4 (getChallenges ds) /\ stepping 4 (getChallenges ds).
Proof. unfold getChallenges, mbind, task_mbind, perform. split; climb. Qed.

Lemma climbing_pushRecords u rs :
  climbing 7 (pushRecords u rs) /\ stepping 7 (pushRecords u rs).
Proof. unfold pushRecords. split; climb. Qed.

Lemma climbing_issue u ds o :
  climbing 10 (issue u ds o) /\ stepping 10 (issue u ds o).
Proof. unfold issue, mbind, task_mbind, perform. split; climb. Qed.

Ltac unawaited :=
  let c := fresh "c" in
  intros c; destruct c; simpl; solve [discriminate | tauto].

Section OrderOfStartWorker.

Context {W : Type} `{!Env W}.

Lemma startWorker_reached (uuid : option string) :
  hoare (W := W) (reached 0) (startWorker uuid) (fun _ st => reached 14 st).
Proof.
  assert (Hend : forall n (st : state W), n <= 14 -> reached n st -> reached 14 st)
    by (intros n st Hn; apply reached_weaken, Hn).
  unfold startWorker.
  eapply hoare_bind with (Q1 := fun _ st => reached 2 st).
  { apply (reached_await 0 0 1); [lia|lia|apply climbing_initialize..
                                  |auto with footprint]. }
  2, 3: intros; eapply Hend; [|eassumption]; lia.
  intros initResult.
  eapply hoare_bind with (Q1 := fun _ st => reached 3 st).
  { apply (reached_await 2 2 2); [lia|lia|apply climbing_createAccount..
                                  |auto with footprint]. }
  2, 3: intros; eapply Hend; [|eassumption]; lia.
  intros _.
  eapply hoare_bind with (Q1 := fun _ st => reached 4 st).
  { apply (reached_await 3 3 3); [lia|lia|apply climbing_fetchDomains..
                                  |auto with footprint]. }
  2, 3: intros; eapply Hend; [|eassumption]; lia.
  intros domains.
  eapply hoare_bind with (Q1 := fun _ st => reached 6 st).
  { apply (reached_await 4 4 5); [lia|lia|apply climbing_getChallenges..
                                  |auto with footprint]. }
  2, 3: intros; eapply Hend; [|eassumption]; lia.
  intros [o challenges].
  eapply hoare_bind with (Q1 := fun _ st => reached 7 st).
  { apply (reached_confined 6 6); [lia|unawaited|confine]. }
  2, 3: intros; eapply Hend; [|eassumption]; lia.
  intros records.
  eapply hoare_bind with (Q1 := fun _ st => reached 8 st).
  { apply (reached_await 7 7 7); [lia|lia|apply climbing_pushRecords..
                                  |auto with footprint]. }
  2, 3: intros; eapply Hend; [|eassumption]; lia.
  intros [].
  eapply hoare_bind with (Q1 := fun _ st => reached 9 st).
  { apply (reached_confined 8 8); [lia|unawaited|confine]. }
  2, 3: intros; eapply Hend; [|eassumption]; lia.
  intros [].
  eapply hoare_bind with (Q1 := fun _ st => reached 9 st).
  { apply (reached_confined 9 8); [lia|unawaited|confine]. }
  2, 3: intros; eapply Hend; [|eassumption]; lia.
  intros t.
  eapply hoare_bind with (Q1 := fun _ st => reached 9 st).
  { apply (reached_confined 9 8); [lia|unawaited|confine]. }
  2, 3: intros; eapply Hend; [|eassumption]; lia.
  intros [].
  eapply hoare_bind with (Q1 := fun _ st => reached 10 st).
  { apply (reached_confined 9 9); [lia|unawaited|confine]. }
  2, 3: intros; eapply Hend; [|eassumption]; lia.
  intros _.
  apply (reached_await 10 10 13); [lia|lia|apply climbing_issue..
                                   |auto with footprint].
Qed.

Lemma main_reached (HOST PORT WORKER_UUID : option string)
    (world0 : W) (t0 : N) (evs : list event) (cs : list nat) :
  reached 14 (main HOST PORT WORKER_UUID (boot world0 t0 evs cs)).2.
Proof.
  unfold main, mbind, M_mbind, console_log. cbn [fst snd].
  apply startWorker_reached. split; [|split]; repeat constructor.
Qed.

End OrderOfStartWorker.

(** X9.  The worker goes through the workflow in order and never back:
    in every execution of the program, a call other than a DNS query is
    of the same step of the workflow as every call made before it, or of
    a later one; and a call that [startWorker] awaits on its own is of a
    later step than every call made before it, so that it is made once
    at most.  So no account is created before the registration, no order
    before the assignment, nothing is sent to the coordinator once a DNS
    query has been made, and the result is reported once at most. *)
Theorem startWorker_never_goes_back
    {W : Type} `{!Env W} (HOST PORT WORKER_UUID : option string)
    (world0 : W) (t0 : N) (evs : list event) (cs : list nat)
    (tr1 tr2 tr3 : list io) (c c' : call) :
  let r := main HOST PORT WORKER_UUID (boot world0 t0 evs cs) in
  trace r.2 = tr1 ++ Call c :: tr2 ++ Call c' :: tr3 ->
  (~ dns c' -> stage c <= stage c')
  /\ (awaited_alone c' -> stage c < stage c').
Proof.
  intros r Htr. subst r.
  destruct (main_reached HOST PORT WORKER_UUID world0 t0 evs cs)
    as (Hasc & Hturn & _).
  rewrite Htr in Hasc, Hturn. split.
  - intros _. apply ascending_after, ascending_all in Hasc.
    apply Forall_app in Hasc as [_ Hasc].
    apply Forall_cons in Hasc as [Hc _]. exact Hc.
  - intros Ha. apply in_turn_after in Hturn.
    apply (in_turn_In _ _ c') in Hturn; [lia| |exact Ha].
    apply in_or_app. right. left. reflexivity.
Qed.

(** ** Failures *)

Lemma steady_rethrowing {A : Type} (t : task A) : steady t -> rethrowing t.
Proof.
  induction t as [a|e|c k IH]; simpl; auto.
  intros (Hc & Hf & Hs). auto.
Qed.

Lemma steady_thrown {A : Type} (ts : list (task A)) :
  Forall steady ts -> thrown ts = None.
Proof.
  induction 1 as [|t ts Ht _ IH]; [reflexivity|].
  destruct t; simpl in *; [exact IH|contradiction|exact IH].
Qed.

Lemma steady_thrown_insert {A : Type} (ts : list (task A)) (e : error) :
  forall i, Forall steady ts -> i < length ts ->
  thrown (<[i := Throw e]> ts) = Some e.
Proof.
  induction ts as [|t ts IH]; intros i Hall Hi; simpl in Hi; [lia|].
  apply Forall_cons in Hall as [Ht Hall].
  destruct i as [|i]; simpl; [reflexivity|].
  destruct t; simpl in Ht; try contradiction; apply IH; auto; lia.
Qed.

Lemma first_call_unfatal {A : Type} (t : task A) :
  Forall (fun x => ~ fatal x) (first_call t).
Proof. destruct t; simpl; repeat constructor; auto. Qed.

Section Failures.

Context {W : Type} `{!Env W}.

Lemma sane_bind {A B : Type} (m : M W A) (f : A -> M W B) :
  hoare unfailed m sane ->
  (forall a, hoare unfailed (f a) sane) ->
  hoare unfailed (m ≫= f) sane.
Proof.
  intros Hm Hf. eapply hoare_bind; [exact Hm|..].
  - intros a. eapply hoare_weaken; [apply (Hf a)|..]; [|auto].
    intros st [Hst|(e & [=] & _)]. exact Hst.
  - intros e st [Hst|(e' & Heq & Hh)]; [left; exact Hst|].
    right. exists e'. injection Heq as <-. auto.
  - intros st [Hst|(e' & [=] & _)]. left. exact Hst.
Qed.

Lemma sane_await {A : Type} (t : task A) :
  rethrowing t -> hoare (W := W) unfailed (await t) sane.
Proof.
  unfold await. induction t as [a|e|c k IH]; intros Ht st Hst; cbn [exec fst snd].
  - left. exact Hst.
  - left. exact Hst.
  - destruct Ht as (Hc & Hfail & Hok).
    destruct (respond c (world st)) as [[e|a] w'].
    + rewrite Hfail. cbn [exec fst snd]. right. exists e. split; [reflexivity|].
      exists c, (trace st ++ [Call c]). split; [exact Hc|]. split.
      * cbn [emit trace set_world]. rewrite <- app_assoc. reflexivity.
      * apply Forall_app. split; [exact Hst|]. repeat constructor. auto.
    + apply (IH (Success a) (Hok a)).
      unfold unfailed. cbn [emit trace set_world].
      apply Forall_app. split; [exact Hst|]. repeat constructor; auto.
Qed.

Lemma sane_settle {A : Type} (cs : list nat) :
  forall (ts : list (task A)) (st : state W),
  Forall steady ts -> unfailed st ->
  sane (settle cs ts st).1 (settle cs ts st).2.
Proof.
  induction cs as [|c cs IH]; intros ts st Hts Hst; cbn [settle];
    rewrite (steady_thrown ts Hts).
  - destruct (awaiting ts); left; exact Hst.
  - destruct (awaiting ts) as [|p ps]; [left; exact Hst|].
    set (i := nth _ _ _). unfold deliver.
    destruct (ts !! i) as [[a|e|c' k]|] eqn:Hi; try (apply IH; assumption).
    pose proof (Forall_lookup_1 _ _ _ _ Hts Hi) as (Hc & Hfail & Hok).
    pose proof (lookup_lt_Some _ _ _ Hi) as Hlt.
    destruct (respond c' (world st)) as [[e|a] w'].
    + rewrite Hfail. cbn [first_call].
      assert (Hth : thrown (<[i := Throw e]> ts) = Some e)
        by (apply steady_thrown_insert; assumption).
      assert (Hnow : forall st', settle cs (<[i := Throw e]> ts) st'
                                 = (Rejected e, set_choices cs st')).
      { intros st'. destruct cs; cbn [settle]; rewrite Hth; reflexivity. }
      rewrite Hnow. cbn [fst snd]. right. exists e. split; [reflexivity|].
      exists c', (trace st). auto.
    + apply IH.
      * apply Forall_insert; [exact Hts|apply Hok].
      * unfold unfailed. cbn [emit trace set_world].
        apply Forall_app. split; [exact Hst|].
        constructor; [auto|apply first_call_unfatal].
Qed.

Lemma sane_Promise_all {A : Type} (ts : list (task A)) :
  Forall steady ts -> hoare (W := W) unfailed (Promise_all ts) sane.
Proof.
  intros Hts st Hst. unfold Promise_all. apply sane_settle; [exact Hts|].
  unfold unfailed. cbn [emit trace]. apply Forall_app. split; [exact Hst|].
  clear Hts. induction ts as [|t ts IH]; simpl; [constructor|].
  apply Forall_app. split; [apply first_call_unfatal|exact IH].
Qed.

Lemma sane_confined {A : Type} (m : M W A) :
  confined dns m -> hoare unfailed m sane.
Proof.
  intros Hm st Hst. left. revert st Hst.
  apply (confined_keeps dns); [exact Hm|].
  intros [c|c [e|a]|line]; simpl; auto.
Qed.

End Failures.

Ltac rethrow :=
  repeat (cbn [rethrowing steady task_bind];
          lazymatch goal with
          | |- _ /\ _ => split
          | |- ~ dns _ => unfold dns; simpl; discriminate
          | |- forall _ : error, _ = Throw _ => intros ?; reflexivity
          | |- forall _, _ => intros ?
          | |- rethrowing (match ?x with _ => _ end) => destruct x
          | |- True => exact I
          end).

Lemma rethrowing_initialize u : rethrowing (initialize u).
Proof. unfold initialize, mbind, task_mbind, perform. rethrow. Qed.

Lemma rethrowing_createAccount mail : rethrowing (createAccount mail).
Proof. unfold createAccount, perform. rethrow. Qed.

Lemma rethrowing_fetchDomains u : rethrowing (fetchDomains u).
Proof. unfold fetchDomains. rethrow. Qed.

Lemma rethrowing_getChallenges ds : rethrowing (getChallenges ds).
Proof. unfold getChallenges, mbind, task_mbind, perform. rethrow. Qed.

Lemma rethrowing_pushRecords u rs : rethrowing (pushRecords u rs).
Proof. unfold pushRecords. rethrow. Qed.

Lemma rethrowing_issue u ds o : rethrowing (issue u ds o).
Proof. unfold issue, mbind, task_mbind, perform. rethrow. Qed.

Lemma steady_expectedRecord c : steady (expectedRecord c).
Proof. unfold expectedRecord, mbind, task_mbind, perform. rethrow. Qed.

Lemma steady_finalize c : steady (finalize c).
Proof. unfold finalize, mbind, task_mbind, perform. rethrow. Qed.

Lemma Forall_steady_map {A B : Type} (f : A -> task B) (l : list A) :
  (forall a, steady (f a)) -> Forall steady (map f l).
Proof. intros Hf. induction l; constructor; auto. Qed.

Section FailuresOfStartWorker.

Context {W : Type} `{!Env W}.

Lemma startWorker_sane (uuid : option string) :
  hoare (W := W) unfailed (startWorker uuid) sane.
Proof.
  unfold startWorker.
  apply sane_bind; [apply sane_await, rethrowing_initialize|intros initResult].
  apply sane_bind; [apply sane_await, rethrowing_createAccount|intros _].
  apply sane_bind; [apply sane_await, rethrowing_fetchDomains|intros domains].
  apply sane_bind; [apply sane_await, rethrowing_getChallenges|intros [o challenges]].
  apply sane_bind;
    [apply sane_Promise_all, Forall_steady_map, steady_expectedRecord
    |intros records].
  apply sane_bind; [apply sane_await, rethrowing_pushRecords|intros []].
  apply sane_bind; [apply sane_confined; confine|intros []].
  apply sane_bind; [apply sane_confined; confine|intros t].
  apply sane_bind; [apply sane_confined; confine|intros []].
  apply sane_bind;
    [apply sane_Promise_all, Forall_steady_map, steady_finalize|intros _].
  apply sane_await, rethrowing_issue.
Qed.

Lemma main_sane (HOST PORT WORKER_UUID : option string)
    (world0 : W) (t0 : N) (evs : list event) (cs : list nat) :
  let r := main HOST PORT WORKER_UUID (boot world0 t0 evs cs) in
  sane r.1 r.2.
Proof.
  unfold main, mbind, M_mbind, console_log. cbn [fst snd].
  apply startWorker_sane. repeat constructor. auto.
Qed.

(** A failure other than of a DNS query ends the job. *)
Lemma main_failure (HOST PORT WORKER_UUID : option string)
    (world0 : W) (t0 : N) (evs : list event) (cs : list nat)
    (c : call) (e : error) :
  let r := main HOST PORT WORKER_UUID (boot world0 t0 evs cs) in
  In (Reply c (Failure e)) (trace r.2) ->
  ~ dns c ->
  r.1 = Rejected e
  /\ (exists tr, trace r.2 = tr ++ [Reply c (Failure e)])
  /\ forall c', In (Call c') (trace r.2) -> stage c' <= stage c.
Proof.
  intros r Hin Hc. subst r.
  pose proof (main_sane HOST PORT WORKER_UUID world0 t0 evs cs) as Hsane.
  destruct (main_reached HOST PORT WORKER_UUID world0 t0 evs cs) as [Hasc _].
  cbv zeta in Hsane.
  destruct (main HOST PORT WORKER_UUID (boot world0 t0 evs cs)) as [o st].
  cbn [fst snd] in *.
  destruct Hsane as [Hnone|(e' & -> & c' & tr & Hc' & Htr & Hclean)].
  - exfalso. eapply Forall_forall in Hnone; [|apply list_elem_of_In, Hin].
    apply Hnone. exact Hc.
  - rewrite Htr in Hin. apply in_app_or in Hin as [Hin|[Hin|[]]].
    + exfalso. eapply Forall_forall in Hclean; [|apply list_elem_of_In, Hin].
      apply Hclean. exact Hc.
    + pose proof (f_equal failure_of Hin) as He. simpl in He.
      injection He as ->. rewrite Hin in Htr.
      split; [reflexivity|]. split; [eauto|].
      rewrite Htr in *. apply ascending_last. exact Hasc.
Qed.

End FailuresOfStartWorker.

(** ** Provenance *)

Lemma justified_nil (J : list io -> call -> Prop) : justified J [].
Proof. intros [|x tr1] c tr2 Heq; discriminate. Qed.

Lemma justified_calls (J : list io -> call -> Prop) (tr out : list io) :
  cumulative J ->
  justified J tr ->
  (forall c, In (Call c) out -> J tr c) ->
  justified J (tr ++ out).
Proof.
  intros HJ Htr Hout tr1 c tr2 Heq.
  apply List.app_eq_app in Heq as (l & [[-> Hl]|[-> ->]]).
  - destruct l as [|x l]; simpl in Hl.
    + rewrite <- (app_nil_r tr1). apply Hout. rewrite <- Hl. left. reflexivity.
    + injection Hl as <- ->. eapply Htr. reflexivity.
  - eapply HJ; [|apply Hout; apply in_or_app; right; left; reflexivity].
    apply incl_appl, incl_refl.
Qed.

Lemma justified_one (J : list io -> call -> Prop) (tr : list io) (x : io) :
  cumulative J ->
  justified J tr ->
  (forall c, x = Call c -> J tr c) ->
  justified J (tr ++ [x]).
Proof.
  intros HJ Htr Hx. apply justified_calls; auto.
  intros c [Hc|[]]. auto.
Qed.

Lemma target_incl K addr tr tr' :
  incl tr tr' -> target K addr tr -> target K addr tr'.
Proof. intros Hi (addresses & Hin & Ha). exists addresses. auto. Qed.

Lemma observed_incl K V tr tr' :
  incl tr tr' -> observed K V tr -> observed K V tr'.
Proof.
  intros Hi (addr & result & Ht & Hin & HV). exists addr, result.
  split; [eapply target_incl; eassumption|]. auto.
Qed.

Lemma sound_incl tr tr' w : incl tr tr' -> sound tr w -> sound tr' w.
Proof.
  intros Hi [Hfl Hobs]. split.
  - intros c Hc. destruct (Hfl c Hc) as [->|(addr & -> & Ht)]; [left; auto|].
    right. exists addr. split; [reflexivity|]. eapply target_incl; eassumption.
  - intros Hor. eapply observed_incl; eauto.
Qed.

Section Attested.

Context {W : Type} `{!Env W}.

Variable J : list io -> call -> Prop.
Hypothesis J_cumulative : cumulative J.

Lemma exec_attested {A : Type} (Q : list io -> A -> Prop) (t : task A) :
  cumulative Q ->
  forall (known : list io) (st : state W),
  attested J Q known t ->
  incl known (trace st) ->
  justified J (trace st) ->
  justified J (trace (exec t st).2)
  /\ forall a, (exec t st).1 = Resolved a -> Q (trace (exec t st).2) a.
Proof.
  intros HQ. induction t as [a|e|c k IH]; intros known st Ht Hi Hj; cbn [exec].
  - split; [exact Hj|]. intros a' [= <-]. eapply HQ; eassumption.
  - split; [exact Hj|]. discriminate.
  - destruct Ht as [Hc Hk]. destruct (respond c (world st)) as [r w'].
    apply (IH r (known ++ [Reply c r])); [apply Hk|..];
      cbn [emit trace set_world].
    + apply incl_app; [apply incl_appl, Hi|].
      apply incl_appr. intros x [<-|[]]. right. left. reflexivity.
    + apply justified_calls; [exact J_cumulative|exact Hj|].
      intros c' [[= <-]|[[=]|[]]]. eapply J_cumulative; eassumption.
Qed.

Lemma pooled_incl {X A : Type} (Q : X -> list io -> A -> Prop)
    (xs : list X) (ts : list (task A)) (st st' : state W) :
  incl (trace st) (trace st') -> pooled J Q xs ts st -> pooled J Q xs ts st'.
Proof.
  intros Hi Hp. eapply Forall2_impl; [exact Hp|].
  intros x t (known & Hk & Ht). exists known. split; [|exact Ht].
  eapply incl_tran; eassumption.
Qed.

Lemma deliver_attested {X A : Type} (Q : X -> list io -> A -> Prop)
    (xs : list X) (i : nat) (ts : list (task A)) (st : state W) :
  pooled J Q xs ts st -> justified J (trace st) ->
  pooled J Q xs (deliver i ts st).1 (deliver i ts st).2
  /\ justified J (trace (deliver i ts st).2).
Proof.
  intros Hp Hj. unfold deliver.
  destruct (ts !! i) as [[a|e|c k]|] eqn:Hi; cbn [fst snd]; auto.
  destruct (Forall2_lookup_r _ _ _ _ _ Hp Hi) as (x & Hx & known & Hk & Hc & Ht).
  destruct (respond c (world st)) as [r w']. cbn [fst snd emit trace set_world].
  assert (Hk' : incl (known ++ [Reply c r])
                     (trace st ++ Reply c r :: first_call (k r))).
  { apply incl_app; [apply incl_appl, Hk|].
    apply incl_appr. intros y [<-|[]]. left. reflexivity. }
  split.
  - rewrite <- (list_insert_id xs i x Hx).
    apply Forall2_insert.
    + eapply (pooled_incl Q xs ts st); [|exact Hp].
      cbn [trace]. apply incl_appl, incl_refl.
    + exists (known ++ [Reply c r]). split; [exact Hk'|apply Ht].
  - change (Reply c r :: first_call (k r)) with ([Reply c r] ++ first_call (k r)).
    rewrite app_assoc. apply justified_calls; [exact J_cumulative|..].
    + apply justified_one; [exact J_cumulative|exact Hj|discriminate].
    + intros c' Hin. specialize (Ht r).
      destruct (k r) as [a|e|c'' k'']; simpl in Hin; try contradiction.
      destruct Hin as [[= <-]|[]]. destruct Ht as [Hc'' _].
      eapply J_cumulative; [|exact Hc''].
      apply incl_app; [apply incl_appl, Hk|].
      apply incl_appr. intros y [<-|[]]. left. reflexivity.
Qed.

Lemma settle_attested {X A : Type} (Q : X -> list io -> A -> Prop)
    (xs : list X) (cs : list nat) :
  (forall x, cumulative (Q x)) ->
  forall (ts : list (task A)) (st : state W),
  pooled J Q xs ts st -> justified J (trace st) ->
  justified J (trace (settle cs ts st).2)
  /\ forall rs, (settle cs ts st).1 = Resolved rs ->
       Forall2 (fun x a => Q x (trace (settle cs ts st).2) a) xs rs.
Proof.
  intros HQ.
  assert (Hdone : forall (ts : list (task A)) (st : state W),
            pooled J Q xs ts st -> thrown ts = None -> awaiting ts = [] ->
            Forall2 (fun x a => Q x (trace st) a) xs (returned ts)).
  { intros ts st Hp Hth Haw.
    pose proof (awaiting_nil_returned ts Hth (awaiting_nil ts Haw)) as Hret.
    clear Hth Haw. revert Hret. generalize (returned ts).
    induction Hp as [|x t xs' ts' Hx _ IH]; intros rs Hret;
      inversion Hret as [|? r ? rs' Hr Hrest]; subst; constructor.
    - destruct Hx as (known & Hk & Ht). simpl in Ht. eapply HQ; eassumption.
    - apply IH, Hrest. }
  induction cs as [|c cs IH]; intros ts st Hp Hj; cbn [settle].
  - destruct (thrown ts) as [e|] eqn:Hth; cbn [fst snd trace set_choices];
      [split; [exact Hj|discriminate]|].
    destruct (awaiting ts) as [|p ps] eqn:Haw; cbn [fst snd trace set_choices];
      [|split; [exact Hj|discriminate]].
    split; [exact Hj|]. intros rs [= <-]. apply Hdone; assumption.
  - destruct (thrown ts) as [e|] eqn:Hth; cbn [fst snd trace set_choices];
      [split; [exact Hj|discriminate]|].
    destruct (awaiting ts) as [|p ps] eqn:Haw; cbn [fst snd trace set_choices].
    + split; [exact Hj|]. intros rs [= <-]. apply Hdone; assumption.
    + set (i := nth _ _ _).
      destruct (deliver_attested Q xs i ts st Hp Hj) as (Hp' & Hj').
      destruct (deliver i ts st) as [ts' st']. cbn [fst snd] in *.
      apply IH; assumption.
Qed.

Lemma Promise_all_attested {X A : Type} (Q : X -> list io -> A -> Prop)
    (f : X -> task A) (xs : list X) (st : state W) :
  (forall x, cumulative (Q x)) ->
  justified J (trace st) ->
  Forall (fun x => attested J (Q x) (trace st) (f x)) xs ->
  justified J (trace (Promise_all (map f xs) st).2)
  /\ forall rs, (Promise_all (map f xs) st).1 = Resolved rs ->
       Forall2 (fun x a => Q x (trace (Promise_all (map f xs) st).2) a) xs rs.
Proof.
  intros HQ Hj Hxs. unfold Promise_all. apply settle_attested; [exact HQ|..].
  - cbn [emit choices trace]. clear Hj.
    induction Hxs as [|x xs Hx _ IH]; simpl; constructor.
    + exists (trace st). split; [apply incl_appl, incl_refl|exact Hx].
    + eapply Forall2_impl; [exact IH|].
      intros x' t (known & Hk & Ht). exists known. split; [|exact Ht].
      intros y Hy. apply Hk in Hy. cbn [trace] in *.
      apply in_app_or in Hy as [Hy|Hy]; apply in_or_app; [left; exact Hy|].
      right. apply in_or_app. right. exact Hy.
  - cbn [emit trace]. apply justified_calls; [exact J_cumulative|exact Hj|].
    intros c Hin. apply in_flat_map in Hin as (t & Ht & Hc).
    apply in_map_iff in Ht as (x & <- & Hx).
    eapply Forall_forall in Hxs; [|apply list_elem_of_In, Hx].
    destruct (f x) as [a|e|c' k]; simpl in Hc; try contradiction.
    destruct Hc as [[= <-]|[]]. apply Hxs.
Qed.

End Attested.

(** *** The watchers *)

Section Attending.

Context {W : Type} `{!Env W}.

Variable J : list io -> call -> Prop.
Hypothesis J_cumulative : cumulative J.
Hypothesis J_txt :
  forall tr k addr, target k addr tr -> J tr (Dns_resolveTxt addr).

Lemma step_attending (ev : event) (st : state W) :
  attending J st -> attending J (step ev st).
Proof.
  intros (Hj & Hs & Hk).
  assert (Hgrow : forall out w' i,
            justified J (trace st ++ out) ->
            sound (trace st ++ out) w' ->
            J (trace st ++ out) (Dns_resolveCname (w_k w')) ->
            attending J (State (world st) (trace st ++ out) (now st)
                           (<[i := w']> (watchers st)) (events st) (choices st))).
  { intros out w' i Hj' Hw' Hk'.
    split; [exact Hj'|]. cbn [trace watchers]. split.
    - apply Forall_insert; [|exact Hw'].
      eapply Forall_impl; [exact Hs|]. intros w.
      apply sound_incl, incl_appl, incl_refl.
    - apply Forall_insert; [|exact Hk'].
      eapply Forall_impl; [exact Hk|]. intros w.
      apply J_cumulative, incl_appl, incl_refl. }
  destruct ev as [d|i|i n|i n]; unfold step.
  - split; [exact Hj|]. split; assumption.
  - destruct (watchers st !! i) as [w|] eqn:Hi; [|split; [exact Hj|split; assumption]].
    destruct (w_interval w) as [due|]; [|split; [exact Hj|split; assumption]].
    destruct (due <=? now st)%N; [|split; [exact Hj|split; assumption]].
    pose proof (Forall_lookup_1 _ _ _ _ Hs Hi) as [Hfl Hobs].
    pose proof (Forall_lookup_1 _ _ _ _ Hk Hi) as Hkw.
    watcher_simpl.
    apply (Hgrow [Call (Dns_resolveCname (w_k w))]).
    + apply justified_one; [exact J_cumulative|exact Hj|].
      intros c [= <-]. exact Hkw.
    + split; cbn [w_k w_v w_inflight w_promise w_timeouts].
      * intros c Hc. apply in_app_or in Hc as [Hc|[<-|[]]]; [|left; reflexivity].
        destruct (Hfl c Hc) as [->|(addr & -> & Ht)]; [left; reflexivity|].
        right. exists addr. split; [reflexivity|]. apply target_mono, Ht.
      * intros Hor. apply observed_mono, Hobs, Hor.
    + cbn [w_k]. eapply J_cumulative; [|exact Hkw]. apply incl_appl, incl_refl.
  - destruct (watchers st !! i) as [w|] eqn:Hi; [|split; [exact Hj|split; assumption]].
    destruct (w_inflight w !! n) as [c|] eqn:Hn; [|split; [exact Hj|split; assumption]].
    destruct (respond c (world st)) as [r world'].
    pose proof (Forall_lookup_1 _ _ _ _ Hs Hi) as [Hfl Hobs].
    pose proof (Forall_lookup_1 _ _ _ _ Hk Hi) as Hkw.
    assert (Hdel : forall c', In c' (delete n (w_inflight w)) ->
              forall out,
              c' = Dns_resolveCname (w_k w)
              \/ exists addr, c' = Dns_resolveTxt addr
                              /\ target (w_k w) addr (trace st ++ out)).
    { intros c' Hc' out. apply In_delete in Hc'.
      destruct (Hfl c' Hc') as [->|(addr & -> & Ht)]; [left; reflexivity|].
      right. exists addr. split; [reflexivity|]. apply target_mono, Ht. }
    assert (Hj1 : justified J (trace st ++ [Reply c r]))
      by (apply justified_one; [exact J_cumulative|exact Hj|discriminate]).
    watcher_simpl. rewrite <- app_assoc.
    destruct (Hfl c (In_lookup _ _ _ Hn)) as [->|(addr & -> & Htarget)];
      cbn [on_dns].
    + (* the CNAME callback *)
      destruct r as [e|addresses]; cbn [on_cname fst snd]; watcher_simpl.
      * apply Hgrow; [exact Hj1| |].
        -- split; cbn [w_k w_v w_inflight w_promise w_timeouts].
           ++ intros c' Hc'. apply Hdel, Hc'.
           ++ intros Hor. apply observed_mono, Hobs, Hor.
        -- cbn [w_k]. eapply J_cumulative; [|exact Hkw]. apply incl_appl, incl_refl.
      * set (found := flat_map _ addresses).
        assert (Hnew : forall a, In a addresses ->
                  target (w_k w) a
                    (trace st ++ Reply (Dns_resolveCname (w_k w)) (Success addresses)
                       :: found)).
        { intros a Ha. exists addresses. split; [|exact Ha].
          apply in_or_app. right. left. reflexivity. }
        apply Hgrow.
        -- change (Reply (Dns_resolveCname (w_k w)) (Success addresses) :: found)
             with ([Reply (Dns_resolveCname (w_k w)) (Success addresses)] ++ found).
           rewrite app_assoc. apply justified_calls; [exact J_cumulative|exact Hj1|].
           intros c' Hin. subst found.
           apply in_flat_map in Hin as (a & Ha & [Hin|[Hin|[]]]); [discriminate|].
           injection Hin as <-. apply (J_txt _ (w_k w)).
           exists addresses. split; [|exact Ha].
           apply in_or_app. right. left. reflexivity.
        -- split; cbn [w_k w_v w_inflight w_promise w_timeouts].
           ++ intros c' Hc'. apply in_app_or in Hc' as [Hc'|Hc'].
              ** apply Hdel, Hc'.
              ** apply in_map_iff in Hc' as (a & <- & Ha). right. eauto.
           ++ intros Hor. apply observed_mono, Hobs, Hor.
        -- cbn [w_k]. eapply J_cumulative; [|exact Hkw]. apply incl_appl, incl_refl.
    + (* the TXT callback *)
      destruct r as [e|result]; cbn [on_txt fst snd]; watcher_simpl.
      * apply Hgrow; [exact Hj1| |].
        -- split; cbn [w_k w_v w_inflight w_promise w_timeouts].
           ++ intros c' Hc'. apply Hdel, Hc'.
           ++ intros Hor. apply observed_mono, Hobs, Hor.
        -- cbn [w_k]. eapply J_cumulative; [|exact Hkw]. apply incl_appl, incl_refl.
      * destruct (indexOf (concat result) (w_v w) =? -1)%Z eqn:Hidx;
          cbn [negb fst snd]; watcher_simpl.
        -- apply Hgrow.
           ++ change (trace st ++ [Reply (Dns_resolveTxt addr) (Success result);
                                   Console_log ("Found TXT " ++ addr ++ " => "
                                      ++ join_comma (concat result))])
                with (trace st ++ [Reply (Dns_resolveTxt addr) (Success result)]
                        ++ [Console_log ("Found TXT " ++ addr ++ " => "
                                      ++ join_comma (concat result))]).
              rewrite app_assoc.
              apply justified_one; [exact J_cumulative|exact Hj1|discriminate].
           ++ split; cbn [w_k w_v w_inflight w_promise w_timeouts].
              ** intros c' Hc'. apply Hdel, Hc'.
              ** intros Hor. apply observed_mono, Hobs, Hor.
           ++ cbn [w_k]. eapply J_cumulative; [|exact Hkw].
              apply incl_appl, incl_refl.
        -- apply indexOf_found in Hidx. apply Hgrow.
           ++ change (trace st ++ [Reply (Dns_resolveTxt addr) (Success result);
                                   Console_log ("Found TXT " ++ addr ++ " => "
                                      ++ join_comma (concat result))])
                with (trace st ++ [Reply (Dns_resolveTxt addr) (Success result)]
                        ++ [Console_log ("Found TXT " ++ addr ++ " => "
                                      ++ join_comma (concat result))]).
              rewrite app_assoc.
              apply justified_one; [exact J_cumulative|exact Hj1|discriminate].
           ++ split; cbn [w_k w_v w_inflight w_promise w_timeouts].
              ** intros c' Hc'. apply Hdel, Hc'.
              ** intros _. exists addr, result.
                 split; [apply target_mono, Htarget|].
                 split; [|exact Hidx].
                 apply in_or_app. right. left. reflexivity.
           ++ cbn [w_k]. eapply J_cumulative; [|exact Hkw].
              apply incl_appl, incl_refl.
  - destruct (watchers st !! i) as [w|] eqn:Hi; [|split; [exact Hj|split; assumption]].
    destruct (w_timeouts w !! n) as [due|] eqn:Hn; [|split; [exact Hj|split; assumption]].
    destruct (due <=? now st)%N; [|split; [exact Hj|split; assumption]].
    pose proof (Forall_lookup_1 _ _ _ _ Hs Hi) as [Hfl Hobs].
    pose proof (Forall_lookup_1 _ _ _ _ Hk Hi) as Hkw.
    assert (Hseen : observed (w_k w) (w_v w) (trace st)).
    { apply Hobs. right. intros Hnil. rewrite Hnil in Hn. discriminate. }
    watcher_simpl.
    apply Hgrow.
    + rewrite app_nil_r. exact Hj.
    + rewrite app_nil_r. split; cbn [w_k w_v w_inflight w_promise w_timeouts].
      * exact Hfl.
      * intros _. exact Hseen.
    + rewrite app_nil_r. exact Hkw.
Qed.

Lemma run_attending (evs : list event) : forall st : state W,
  attending J st -> attending J (run evs st).
Proof.
  induction evs as [|ev evs IH]; intros st Hst; [exact Hst|].
  apply (IH (step ev st)), step_attending, Hst.
Qed.

End Attending.

(** *** What the worker has learnt *)

Lemma authorizes_incl tr tr' a v :
  incl tr tr' -> authorizes tr a v -> authorizes tr' a v.
Proof. intros Hi (ch & Hf & Hin). exists ch. auto. Qed.

Lemma validated_incl tr tr' a :
  incl tr tr' -> validated tr a -> validated tr' a.
Proof. intros Hi (ch & Hf & Hin). exists ch. auto. Qed.

Lemma ordered_incl tr tr' o : incl tr tr' -> ordered o tr -> ordered o tr'.
Proof. intros Hi (ids & Hin). exists ids. auto. Qed.

Lemma assigned_incl u tr tr' ds :
  incl tr tr' -> assigned u ds tr -> assigned u ds tr'.
Proof. intros Hi (a & Hin & Hds). exists a. auto. Qed.

Lemma enrolled_incl tr tr' : incl tr tr' -> enrolled tr -> enrolled tr'.
Proof. intros Hi (contact & Hin). exists contact. auto. Qed.

Lemma challenged_incl u tr tr' ds o chs :
  incl tr tr' -> challenged u ds o chs tr -> challenged u ds o chs tr'.
Proof.
  intros Hi (Ha & Ho & auths & Hg & Hs).
  split; [eapply assigned_incl; eassumption|].
  split; [eapply ordered_incl; eassumption|].
  exists auths. split; [apply Hi, Hg|exact Hs].
Qed.

Lemma recorded_incl u tr tr' ds o chs records :
  incl tr tr' -> recorded u ds o chs records tr -> recorded u ds o chs records tr'.
Proof.
  intros Hi (Ha & Ho & auths & Hg & Hs & Hr).
  split; [eapply assigned_incl; eassumption|].
  split; [eapply ordered_incl; eassumption|].
  exists auths. split; [apply Hi, Hg|]. split; [exact Hs|].
  eapply Forall2_impl; [exact Hr|].
  intros a rcd [Hk Hv]. split; [exact Hk|]. eapply authorizes_incl; eassumption.
Qed.

Lemma pushed_incl u tr tr' ds o chs records :
  incl tr tr' -> pushed u ds o chs records tr -> pushed u ds o chs records tr'.
Proof.
  intros Hi [Hr Ha]. split; [eapply recorded_incl; eassumption|apply Hi, Ha].
Qed.

Lemma attested_in_dns_incl u tr tr' ds o chs records :
  incl tr tr' ->
  attested_in_dns u ds o chs records tr -> attested_in_dns u ds o chs records tr'.
Proof.
  intros Hi [Hp Ho]. split; [eapply pushed_incl; eassumption|].
  eapply Forall_impl; [exact Ho|]. intros rcd. apply observed_incl, Hi.
Qed.

Lemma finalized_incl u tr tr' ds o chs :
  incl tr tr' -> finalized u ds o chs tr -> finalized u ds o chs tr'.
Proof.
  intros Hi (Ha & Ho & auths & Hg & Hv).
  split; [eapply assigned_incl; eassumption|].
  split; [eapply ordered_incl; eassumption|].
  exists auths. split; [apply Hi, Hg|].
  eapply Forall_impl; [exact Hv|]. intros a. apply validated_incl, Hi.
Qed.

Lemma provenance_cumulative (uuid : option string) :
  cumulative (provenance uuid).
Proof.
  intros tr tr' c Hi.
  destruct c as [|tos contact|ids|o|ch|a ch|ch|ch|cn alts|o csr|o
                 |u|u|u payload|u csr64 key64 cert64|k|addr]; simpl.
  - auto.
  - intros [Ht (reg & Hr & Hc)]. split; [exact Ht|]. exists reg.
    split; [apply Hi, Hr|exact Hc].
  - intros (ds & Ha & Hids). exists ds.
    split; [eapply assigned_incl; eassumption|exact Hids].
  - apply ordered_incl, Hi.
  - intros (o & auths & a & Hg & Ha & Hf). exists o, auths, a.
    split; [apply Hi, Hg|auto].
  - intros (o & auths & payload & Hg & Ha & Hf & Hp & Hv).
    exists o, auths, payload. split; [apply Hi, Hg|]. split; [exact Ha|].
    split; [exact Hf|]. split; [apply Hi, Hp|].
    eapply Forall2_impl; [exact Hv|]. intros a' v [Hau Hobs].
    split; [eapply authorizes_incl|eapply observed_incl]; eassumption.
  - intros (a & Hin). exists a. auto.
  - apply Hi.
  - intros [(ds & Ha & Hcn) (o & auths & Hg & Hv)]. split.
    + exists ds. split; [eapply assigned_incl; eassumption|exact Hcn].
    + exists o, auths. split; [apply Hi, Hg|].
      eapply Forall_impl; [exact Hv|]. intros a. apply validated_incl, Hi.
  - intros [Ho (cn & alts & k & Hin)]. split; [eapply ordered_incl; eassumption|].
    exists cn, alts, k. auto.
  - intros (csr & Hin). exists csr. auto.
  - intros [Hu (k & Hin)]. split; [exact Hu|]. exists k. auto.
  - intros [Hu He]. split; [exact Hu|]. eapply enrolled_incl; eassumption.
  - intros [Hu (o & auths & Hg & Hv)]. split; [exact Hu|]. exists o, auths.
    split; [apply Hi, Hg|]. eapply Forall2_impl; [exact Hv|].
    intros a v. apply authorizes_incl, Hi.
  - intros [Hu (cn & alts & k & csr & o & cert & H1 & H2 & H3)].
    split; [exact Hu|]. exists cn, alts, k, csr, o, cert. auto.
  - intros (payload & o & auths & a & Hp & Hg & Ha). exists payload, o, auths, a.
    split; [apply Hi, Hp|]. split; [apply Hi, Hg|exact Ha].
  - intros (k & Ht). exists k. eapply target_incl; eassumption.
Qed.

(** *** Reasoning about the top level, with provenance *)

Lemma within_True {A : Type} (t : task A) : within (fun _ => True) t.
Proof. induction t as [a|e|c k IH]; simpl; auto. Qed.

Lemma observed_records (tr : list io) (ws : list watcher) :
  forall records : list record,
  map w_k ws = map key records ->
  map w_v ws = map value records ->
  Forall (fun w => observed (w_k w) (w_v w) tr) ws ->
  Forall (fun rcd => observed (key rcd) (value rcd) tr) records.
Proof.
  induction ws as [|w ws IH]; intros [|rcd records]; simpl;
    try discriminate; [constructor|].
  intros [= Hk Hks] [= Hv Hvs] Hall. apply Forall_cons in Hall as [Hw Hall].
  constructor; [rewrite <- Hk, <- Hv; exact Hw|auto].
Qed.

Section Justified.

Context {W : Type} `{!Env W}.

Variable J : list io -> call -> Prop.
Hypothesis J_cumulative : cumulative J.

Lemma justified_bind {A B : Type} (P : state W -> Prop) (m : M W A)
    (Q : list io -> A -> Prop) (f : A -> M W B) :
  hoare P m (fun o st => justified J (trace st)
                         /\ forall a, o = Resolved a -> Q (trace st) a) ->
  (forall a, hoare (fun st => justified J (trace st) /\ Q (trace st) a) (f a)
                   (fun _ st => justified J (trace st))) ->
  hoare P (m ≫= f) (fun _ st => justified J (trace st)).
Proof.
  intros Hm Hf. eapply hoare_bind; [exact Hm|..].
  - intros a. eapply hoare_weaken; [apply (Hf a)|..]; [|auto].
    intros st [Hj HQ]. auto.
  - intros e st [Hj _]. exact Hj.
  - intros st [Hj _]. exact Hj.
Qed.

Lemma justified_await {A : Type} (F : list io -> Prop)
    (Q : list io -> A -> Prop) (t : task A) :
  cumulative Q ->
  (forall tr, F tr -> attested J Q tr t) ->
  hoare (fun st : state W => justified J (trace st) /\ F (trace st)) (await t)
        (fun o st => justified J (trace st)
                     /\ forall a, o = Resolved a -> Q (trace st) a).
Proof.
  intros HQ Ht st [Hj HF].
  apply (exec_attested J J_cumulative Q t HQ (trace st) st);
    [apply Ht, HF|apply incl_refl|exact Hj].
Qed.

Lemma justified_Promise_all {X A : Type} (F : list io -> Prop)
    (Q : X -> list io -> A -> Prop) (f : X -> task A) (xs : list X) :
  (forall x, cumulative (Q x)) ->
  (forall tr tr', incl tr tr' -> F tr -> F tr') ->
  (forall tr, F tr -> Forall (fun x => attested J (Q x) tr (f x)) xs) ->
  hoare (fun st : state W => justified J (trace st) /\ F (trace st))
        (Promise_all (map f xs))
        (fun o st => justified J (trace st)
                     /\ forall rs, o = Resolved rs ->
                          F (trace st)
                          /\ Forall2 (fun x a => Q x (trace st) a) xs rs).
Proof.
  intros HQ HF Hxs st [Hj Hst].
  destruct (Promise_all_attested J J_cumulative Q f xs st HQ Hj (Hxs _ Hst))
    as (Hj' & Hrs).
  destruct (Promise_all_extends (fun _ => True) (map f xs) st)
    as ((out & Htr & _) & _).
  { apply Forall_forall. intros t _. apply within_True. }
  split; [exact Hj'|]. intros rs Hres. split; [|apply Hrs, Hres].
  eapply HF; [|exact Hst]. rewrite Htr. apply incl_appl, incl_refl.
Qed.

Hypothesis J_txt :
  forall tr k addr, target k addr tr -> J tr (Dns_resolveTxt addr).

Lemma justified_watchers (F : list io -> Prop) (t : N) (records : list record) :
  (forall tr tr', incl tr tr' -> F tr -> F tr') ->
  (forall tr, F tr ->
     Forall (fun rcd => J tr (Dns_resolveCname (key rcd))) records) ->
  hoare (fun st : state W => justified J (trace st) /\ F (trace st))
        (Promise_all_watchers (map (waitUntilVerify t) records))
        (fun o st => justified J (trace st)
                     /\ forall u, o = Resolved u ->
                          F (trace st)
                          /\ Forall (fun rcd => observed (key rcd) (value rcd)
                                                         (trace st)) records).
Proof.
  intros HF Hkeys st [Hj Hst].
  destruct (Promise_all_watchers_extends t records st)
    as ((out & Htr & _) & Hk & Hv & _ & Ho).
  unfold Promise_all_watchers in *.
  set (ws := map (waitUntilVerify t) records) in *.
  destruct (until_settled (events st) (set_watchers ws st)) as [o st'] eqn:Hrun.
  cbn [fst snd] in *.
  apply until_settled_run in Hrun as (done & rest & _ & -> & _).
  assert (Hstart : attending J (set_watchers ws st)).
  { split; [exact Hj|]. cbn [set_watchers trace watchers]. subst ws. split.
    - apply Forall_forall. intros w Hw.
      apply list_elem_of_In, in_map_iff in Hw as (rcd & <- & _).
      split; simpl; [tauto|]. intros [H|H]; [discriminate|contradiction].
    - specialize (Hkeys _ Hst). clear -Hkeys.
      induction Hkeys; simpl; constructor; auto. }
  apply (run_attending J J_cumulative J_txt done) in Hstart
    as (Hj' & Hs & _).
  cbn [set_events trace watchers] in *.
  split; [exact Hj'|]. intros [] ->. split.
  - eapply HF; [|exact Hst]. rewrite Htr. apply incl_appl, incl_refl.
  - apply forallb_fulfilled in Ho.
    eapply observed_records; [exact Hk|exact Hv|].
    apply Forall_forall. intros w Hw.
    eapply Forall_forall in Hs; [|exact Hw].
    eapply Forall_forall in Ho; [|exact Hw].
    apply Hs. left. exact Ho.
Qed.

Lemma justified_console_log (F : list io -> Prop) (line : string) :
  (forall tr tr', incl tr tr' -> F tr -> F tr') ->
  hoare (fun st : state W => justified J (trace st) /\ F (trace st))
        (console_log line)
        (fun o st => justified J (trace st)
                     /\ forall u, o = Resolved u -> F (trace st)).
Proof.
  intros HF st [Hj Hst]. cbn. split.
  - apply justified_one; [exact J_cumulative|exact Hj|discriminate].
  - intros _ _. eapply HF; [|exact Hst]. apply incl_appl, incl_refl.
Qed.

Lemma justified_clock (F : list io -> Prop) :
  hoare (fun st : state W => justified J (trace st) /\ F (trace st))
        clock
        (fun o st => justified J (trace st)
                     /\ forall t : N, o = Resolved t -> F (trace st)).
Proof. intros st [Hj Hst]. cbn. auto. Qed.

End Justified.

(** *** The provenance of the calls of each async function *)

Lemma Forall2_In_r {A B : Type} (P : A -> B -> Prop) (l : list A) (k : list B)
    (y : B) :
  Forall2 P l k -> In y k -> exists x, In x l /\ P x y.
Proof.
  induction 1 as [|x y' l k Hxy _ IH]; simpl; [tauto|].
  intros [<-|Hin]; [eauto|]. destruct (IH Hin) as (x' & Hx' & HP). eauto.
Qed.

Ltac grown := repeat apply incl_appl; apply incl_refl.

Ltac learnt :=
  lazymatch goal with
  | |- In _ (_ ++ [_]) =>
      apply in_or_app; first [right; left; reflexivity | left; learnt]
  | |- In _ _ => eassumption
  end.

Section ProvenanceOfTasks.

Variable uuid : option string.

Lemma attested_initialize (tr : list io) :
  attested (provenance uuid) (fun tr reg => registered uuid reg tr) tr (initialize uuid).
Proof.
  unfold initialize, mbind, task_mbind, perform, workerUuid.
  cbn [attested task_bind]. split; [exact I|].
  intros [e|accountKey]; cbn [attested task_bind]; [exact I|]. split.
  - split; [reflexivity|]. exists accountKey. learnt.
  - intros [e|reg]; cbn [attested]; [exact I|]. unfold registered. learnt.
Qed.

Lemma attested_createAccount (reg : registration) (tr : list io) :
  registered uuid reg tr ->
  attested (provenance uuid) (fun tr (_ : unit) => enrolled tr) tr (createAccount (email reg)).
Proof.
  intros Hreg. unfold createAccount, perform. cbn [attested]. split.
  - split; [reflexivity|]. exists reg. auto.
  - intros [e|[]]; cbn [attested]; [exact I|]. eexists. learnt.
Qed.

Lemma attested_fetchDomains (tr : list io) :
  enrolled tr ->
  attested (provenance uuid) (fun tr ds => assigned uuid ds tr) tr (fetchDomains uuid).
Proof.
  intros Hacc. unfold fetchDomains, workerUuid. cbn [attested]. split.
  - split; [reflexivity|exact Hacc].
  - intros [e|res]; cbn [attested]; [exact I|]. exists res.
    split; [learnt|reflexivity].
Qed.

Lemma attested_getChallenges (ds : list string) (tr : list io) :
  assigned uuid ds tr ->
  attested (provenance uuid) (fun tr (p : order * list selected) =>
                challenged uuid ds p.1 p.2 tr) tr (getChallenges ds).
Proof.
  intros Hds. unfold getChallenges, mbind, task_mbind, perform.
  cbn [attested task_bind]. split; [exists ds; auto|].
  intros [e|o]; cbn [attested task_bind]; [exact I|]. split.
  - eexists. learnt.
  - intros [e|auths]; cbn [attested task_bind]; [exact I|].
    pose proof (map_throwing_select auths) as Hsel.
    destruct (map_throwing select_dns01 auths) as [e|chs]; cbn [attested];
      [exact I|].
    destruct Hsel as [Hsel _]. cbn [fst snd].
    split; [eapply assigned_incl; [|exact Hds]; grown|].
    split; [eexists; learnt|].
    exists auths. split; [unfold granted; learnt|exact Hsel].
Qed.

Lemma attested_expectedRecord (ds : list string) (o : order)
    (chs : list selected) (s : selected) (tr : list io) :
  challenged uuid ds o chs tr -> In s chs ->
  attested (provenance uuid) (fun tr rcd =>
                key rcd = record_key s
                /\ In (Reply (Acme_getChallengeKeyAuthorization (dns01 s))
                             (Success (value rcd))) tr)
           tr (expectedRecord s).
Proof.
  intros (_ & _ & auths & Hg & Hsel) Hs.
  destruct (Forall2_In_r _ _ _ _ Hsel Hs) as (a & Ha & Hauth & Hfirst).
  unfold expectedRecord, mbind, task_mbind, perform.
  cbn [attested task_bind]. split; [exists o, auths, a; auto|].
  intros [e|v]; cbn [attested task_bind]; [exact I|].
  split; [reflexivity|]. cbn [value]. learnt.
Qed.

Lemma recorded_intro (ds : list string) (o : order) (chs : list selected)
    (records : list record) (tr : list io) :
  challenged uuid ds o chs tr ->
  Forall2 (fun s rcd =>
             key rcd = record_key s
             /\ In (Reply (Acme_getChallengeKeyAuthorization (dns01 s))
                          (Success (value rcd))) tr) chs records ->
  recorded uuid ds o chs records tr.
Proof.
  intros (Ha & Ho & auths & Hg & Hsel) Hrec.
  split; [exact Ha|]. split; [exact Ho|]. exists auths.
  split; [exact Hg|]. split; [exact Hsel|].
  eapply Forall2_trans; [|exact Hsel|exact Hrec].
  intros a s rcd [Hauth Hfirst] [Hk Hv]. split.
  - rewrite Hk. unfold record_key, challenge_key. rewrite Hauth. reflexivity.
  - exists (dns01 s). auto.
Qed.

Lemma attested_pushRecords (ds : list string) (o : order)
    (chs : list selected) (records : list record) (tr : list io) :
  recorded uuid ds o chs records tr ->
  attested (provenance uuid) (fun tr (_ : unit) => pushed uuid ds o chs records tr) tr
           (pushRecords uuid records).
Proof.
  intros Hrec. pose proof Hrec as (_ & _ & auths & Hg & _ & Hvals).
  unfold pushRecords, workerUuid.
  change (map (fun r => value r) records) with (map value records).
  cbn [attested]. split.
  - split; [reflexivity|]. exists o, auths. split; [exact Hg|].
    apply Forall2_fmap_r. eapply Forall2_impl; [exact Hvals|].
    intros a rcd [_ Hv]. exact Hv.
  - intros [e|[]]; cbn [attested]; [exact I|]. split.
    + eapply recorded_incl; [|exact Hrec]. grown.
    + unfold accepted. learnt.
Qed.

Lemma pushed_keys (ds : list string) (o : order) (chs : list selected)
    (records : list record) (tr : list io) :
  pushed uuid ds o chs records tr ->
  Forall (fun rcd => provenance uuid tr (Dns_resolveCname (key rcd))) records.
Proof.
  intros [(_ & _ & auths & Hg & _ & Hvals) Hacc].
  apply Forall_forall. intros rcd Hin. apply list_elem_of_In in Hin.
  destruct (Forall2_In_r _ _ _ _ Hvals Hin) as (a & Ha & Hk & _).
  exists (map value records), o, auths, a. auto.
Qed.

Lemma attested_finalize (ds : list string) (o : order)
    (chs : list selected) (records : list record) (s : selected)
    (tr : list io) :
  attested_in_dns uuid ds o chs records tr -> In s chs ->
  attested (provenance uuid) (fun tr (_ : unit) =>
                In (Reply (Acme_waitForValidStatus (dns01 s)) (Success tt)) tr)
           tr (finalize s).
Proof.
  intros [[(_ & _ & auths & Hg & Hsel & Hvals) Hacc] Hobs] Hs.
  destruct (Forall2_In_r _ _ _ _ Hsel Hs) as (a & Ha & Hauth & Hfirst).
  unfold finalize, mbind, task_mbind, perform.
  cbn [attested task_bind]. split.
  - exists o, auths, (map value records). rewrite Hauth.
    split; [exact Hg|]. split; [exact Ha|]. split; [exact Hfirst|].
    split; [exact Hacc|]. apply Forall2_fmap_r.
    clear -Hvals Hobs. induction Hvals as [|a' rcd auths records [Hk Hv] _ IH];
      constructor.
    + apply Forall_cons in Hobs as [Ho _]. split; [exact Hv|].
      simpl. rewrite <- Hk. exact Ho.
    + apply Forall_cons in Hobs as [_ Ho]. auto.
  - intros [e|[]]; cbn [attested task_bind]; [exact I|]. split.
    + exists (auth s). learnt.
    + intros [e|[]]; cbn [attested task_bind]; [exact I|].
      split; [cbn [provenance]; learnt|].
      intros [e|[]]; cbn [attested task_bind]; [exact I|]. learnt.
Qed.

Lemma finalized_intro (ds : list string) (o : order) (chs : list selected)
    (records : list record) (rs : list unit) (tr : list io) :
  attested_in_dns uuid ds o chs records tr ->
  Forall2 (fun s (_ : unit) =>
             In (Reply (Acme_waitForValidStatus (dns01 s)) (Success tt)) tr)
          chs rs ->
  finalized uuid ds o chs tr.
Proof.
  intros [[(Ha & Ho & auths & Hg & Hsel & _) _] _] Hrs.
  split; [exact Ha|]. split; [exact Ho|]. exists auths. split; [exact Hg|].
  clear -Hsel Hrs. revert rs Hrs.
  induction Hsel as [|a s auths chs [_ Hfirst] _ IH]; intros rs Hrs;
    [constructor|].
  inversion Hrs as [|? r ? rs' Hr Hrest]; subst.
  constructor; [exists (dns01 s); auto|eauto].
Qed.

Lemma attested_issue (ds : list string) (o : order) (chs : list selected)
    (tr : list io) :
  finalized uuid ds o chs tr ->
  attested (provenance uuid) (fun _ (_ : unit) => True) tr (issue uuid ds o).
Proof.
  intros (Ha & Ho & auths & Hg & Hv).
  unfold issue, mbind, task_mbind, perform, workerUuid.
  cbn [attested task_bind]. split.
  - split; [exists ds; auto|]. exists o, auths. auto.
  - intros [e|[privKey csr]]; cbn [attested task_bind]; [exact I|]. split.
    + split; [eapply ordered_incl; [|exact Ho]; grown|].
      eexists _, _, privKey. learnt.
    + intros [e|[]]; cbn [attested task_bind]; [exact I|]. split.
      * exists csr. learnt.
      * intros [e|cert]; cbn [attested task_bind]; [exact I|]. split.
        -- split; [reflexivity|].
           eexists _, _, privKey, csr, o, cert.
           split; [learnt|]. split; [learnt|]. auto.
        -- intros [e|[]]; exact I.
Qed.

End ProvenanceOfTasks.

Section ProvenanceOfStartWorker.

Context {W : Type} `{!Env W}.

Variable uuid : option string.

Lemma provenance_txt (tr : list io) (k addr : string) :
  target k addr tr -> provenance uuid tr (Dns_resolveTxt addr).
Proof. intros Ht. exists k. exact Ht. Qed.

Lemma startWorker_justified :
  hoare (W := W) (fun st => justified (provenance uuid) (trace st)) (startWorker uuid)
        (fun _ st => justified (provenance uuid) (trace st)).
Proof.
  pose proof (provenance_cumulative uuid) as HJ.
  unfold startWorker.
  (* initialize *)
  eapply (justified_bind (provenance uuid)) with
    (Q := fun tr reg => registered uuid reg tr).
  { eapply hoare_weaken;
      [apply (justified_await (provenance uuid) HJ (fun _ => True)
                (fun tr reg => registered uuid reg tr))|..].
    - intros tr tr' reg Hi. apply Hi.
    - intros tr _. apply attested_initialize.
    - cbv beta. auto.
    - intros o' st Hst. exact Hst. }
  intros initResult.
  (* createAccount *)
  eapply (justified_bind (provenance uuid)) with
    (Q := fun tr (_ : unit) => enrolled tr).
  { apply (justified_await (provenance uuid) HJ
             (fun tr => registered uuid initResult tr)
             (fun tr (_ : unit) => enrolled tr)).
    - intros tr tr' _. apply enrolled_incl.
    - intros tr. apply attested_createAccount. }
  intros _.
  (* fetchDomains *)
  eapply (justified_bind (provenance uuid)) with
    (Q := fun tr ds => assigned uuid ds tr).
  { apply (justified_await (provenance uuid) HJ enrolled (fun tr ds => assigned uuid ds tr)).
    - intros tr tr' ds. apply assigned_incl.
    - intros tr. apply attested_fetchDomains. }
  intros domains.
  (* getChallenges *)
  eapply (justified_bind (provenance uuid)) with
    (Q := fun tr (p : order * list selected) =>
            challenged uuid domains p.1 p.2 tr).
  { apply (justified_await (provenance uuid) HJ (fun tr => assigned uuid domains tr)
             (fun tr (p : order * list selected) =>
                challenged uuid domains p.1 p.2 tr)).
    - intros tr tr' p. apply challenged_incl.
    - intros tr. apply attested_getChallenges. }
  intros [o challenges]. cbn [fst snd].
  (* the expected records *)
  eapply (justified_bind (provenance uuid)) with
    (Q := fun tr records => recorded uuid domains o challenges records tr).
  { eapply hoare_weaken;
      [apply (justified_Promise_all (provenance uuid) HJ
                (fun tr => challenged uuid domains o challenges tr)
                (fun s tr rcd =>
                   key rcd = record_key s
                   /\ In (Reply (Acme_getChallengeKeyAuthorization (dns01 s))
                                (Success (value rcd))) tr)
                expectedRecord challenges)|..].
    - intros s tr tr' rcd Hi [Hk Hin]. auto.
    - intros tr tr'. apply challenged_incl.
    - intros tr Hch. apply Forall_forall. intros s Hs.
      eapply attested_expectedRecord; [exact Hch|apply list_elem_of_In, Hs].
    - auto.
    - intros o' st [Hj Hres]. split; [exact Hj|]. intros records ->.
      destruct (Hres records eq_refl) as [Hch Hrec].
      apply recorded_intro; assumption. }
  intros records.
  (* pushRecords *)
  eapply (justified_bind (provenance uuid)) with
    (Q := fun tr (_ : unit) => pushed uuid domains o challenges records tr).
  { apply (justified_await (provenance uuid) HJ
             (fun tr => recorded uuid domains o challenges records tr)
             (fun tr (_ : unit) => pushed uuid domains o challenges records tr)).
    - intros tr tr' _. apply pushed_incl.
    - intros tr. apply attested_pushRecords. }
  intros [].
  eapply (justified_bind (provenance uuid)) with
    (Q := fun tr (_ : unit) => pushed uuid domains o challenges records tr).
  { apply (justified_console_log (provenance uuid) HJ
             (fun tr => pushed uuid domains o challenges records tr)).
    intros tr tr'. apply pushed_incl. }
  intros [].
  eapply (justified_bind (provenance uuid)) with
    (Q := fun tr (_ : N) => pushed uuid domains o challenges records tr).
  { apply (justified_clock (provenance uuid)
             (fun tr => pushed uuid domains o challenges records tr)). }
  intros t.
  (* the barrier *)
  eapply (justified_bind (provenance uuid)) with
    (Q := fun tr (_ : unit) =>
            attested_in_dns uuid domains o challenges records tr).
  { apply (justified_watchers (provenance uuid) HJ provenance_txt
             (fun tr => pushed uuid domains o challenges records tr)).
    - intros tr tr'. apply pushed_incl.
    - intros tr. apply pushed_keys. }
  intros [].
  (* finalize *)
  eapply (justified_bind (provenance uuid)) with
    (Q := fun tr (_ : list unit) => finalized uuid domains o challenges tr).
  { eapply hoare_weaken;
      [apply (justified_Promise_all (provenance uuid) HJ
                (fun tr => attested_in_dns uuid domains o challenges records tr)
                (fun s tr (_ : unit) =>
                   In (Reply (Acme_waitForValidStatus (dns01 s)) (Success tt)) tr)
                finalize challenges)|..].
    - intros s tr tr' _ Hi. apply Hi.
    - intros tr tr'. apply attested_in_dns_incl.
    - intros tr Hobs. apply Forall_forall. intros s Hs.
      eapply attested_finalize; [exact Hobs|apply list_elem_of_In, Hs].
    - auto.
    - intros o' st [Hj Hres]. split; [exact Hj|]. intros rs ->.
      destruct (Hres rs eq_refl) as [Hobs Hrs].
      eapply finalized_intro; eassumption. }
  intros _.
  (* issue *)
  eapply hoare_weaken;
    [apply (justified_await (provenance uuid) HJ
              (fun tr => finalized uuid domains o challenges tr)
              (fun _ (_ : unit) => True))|..].
  - intros tr tr' _ _ _. exact I.
  - intros tr. apply attested_issue.
  - auto.
  - intros o' st [Hj _]. exact Hj.
Qed.

Lemma main_justified (HOST PORT : option string)
    (world0 : W) (t0 : N) (evs : list event) (cs : list nat) :
  justified (provenance uuid) (trace (main HOST PORT uuid (boot world0 t0 evs cs)).2).
Proof.
  unfold main, mbind, M_mbind, console_log. cbn [fst snd].
  apply startWorker_justified. cbn [emit boot trace].
  intros [|x [|y tr1]] c tr2 Heq; discriminate.
Qed.

End ProvenanceOfStartWorker.

(** ** What each call is made with, and after what *)

(** X1.  [initialize], then [createAccount]: in every execution of the
    program, the worker registers with the coordinator under its own
    identity, [WORKER_UUID], and only once the account key has been
    created; and it creates the ACME account only once the coordinator
    has answered the registration, agreeing to the terms of service,
    with the one contact [mailto:] followed by the e-mail address of
    that answer. *)
Theorem account_is_for_registered_email
    {W : Type} `{!Env W} (HOST PORT WORKER_UUID : option string)
    (world0 : W) (t0 : N) (evs : list event) (cs : list nat) :
  let r := main HOST PORT WORKER_UUID (boot world0 t0 evs cs) in
  (forall tr1 u tr2,
      trace r.2 = tr1 ++ Call (Rpc_registerClient u) :: tr2 ->
      u = WORKER_UUID
      /\ exists accountKey,
           In (Reply Acme_createPrivateKey (Success accountKey)) tr1)
  /\ (forall tr1 tos contact tr2,
        trace r.2 = tr1 ++ Call (Acme_createAccount tos contact) :: tr2 ->
        tos = true
        /\ exists reg,
             In (Reply (Rpc_registerClient WORKER_UUID) (Success reg)) tr1
             /\ contact = [("mailto:" ++ email reg)%string]).
Proof.
  intros r. split; intros tr1; intros;
    exact (main_justified WORKER_UUID HOST PORT world0 t0 evs cs
             tr1 _ _ ltac:(eassumption)).
Qed.

(** X2.  [fetchDomains], then [getChallenges]: in every execution of the
    program, the domains are fetched under the worker's identity once
    the ACME account exists; the order is created for exactly the
    domains that the coordinator has assigned, each as an identifier of
    type [dns], in the order of the assignment; and the authorizations
    are asked for the order that the ACME server has returned. *)
Theorem order_is_for_assigned_domains
    {W : Type} `{!Env W} (HOST PORT WORKER_UUID : option string)
    (world0 : W) (t0 : N) (evs : list event) (cs : list nat) :
  let r := main HOST PORT WORKER_UUID (boot world0 t0 evs cs) in
  (forall tr1 u tr2,
      trace r.2 = tr1 ++ Call (Rpc_fetchDomains u) :: tr2 ->
      u = WORKER_UUID
      /\ exists contact,
           In (Reply (Acme_createAccount true contact) (Success tt)) tr1)
  /\ (forall tr1 ids tr2,
        trace r.2 = tr1 ++ Call (Acme_createOrder ids) :: tr2 ->
        exists a,
          In (Reply (Rpc_fetchDomains WORKER_UUID) (Success a)) tr1
          /\ ids = map (fun d => Identifier "dns" d) (domains a))
  /\ (forall tr1 o tr2,
        trace r.2 = tr1 ++ Call (Acme_getAuthorizations o) :: tr2 ->
        exists ids, In (Reply (Acme_createOrder ids) (Success o)) tr1).
Proof.
  intros r. split; [|split]; intros tr1 x tr2 Htr;
    pose proof (main_justified WORKER_UUID HOST PORT world0 t0 evs cs
                  tr1 _ tr2 Htr) as Hj; cbn [provenance] in Hj.
  - exact Hj.
  - destruct Hj as (ds & (a & Hin & ->) & ->). eauto.
  - exact Hj.
Qed.

(** X3.  The expected records (lines 160-165), then [pushRecords]: in
    every execution of the program, a key authorization is asked only
    for the first DNS-01 challenge of an authorization that the ACME
    server has returned; and what is sent to the coordinator is, for
    each of the authorizations returned and in their order, a key
    authorization that the ACME client has given for the first DNS-01
    challenge of that authorization. *)
Theorem published_values_are_key_authorizations
    {W : Type} `{!Env W} (HOST PORT WORKER_UUID : option string)
    (world0 : W) (t0 : N) (evs : list event) (cs : list nat) :
  let r := main HOST PORT WORKER_UUID (boot world0 t0 evs cs) in
  (forall tr1 ch tr2,
      trace r.2 = tr1 ++ Call (Acme_getChallengeKeyAuthorization ch) :: tr2 ->
      exists o auths a,
        In (Reply (Acme_getAuthorizations o) (Success auths)) tr1
        /\ In a auths /\ first_dns01 a ch)
  /\ (forall tr1 u payload tr2,
        trace r.2 = tr1 ++ Call (Rpc_registerChallenges u payload) :: tr2 ->
        u = WORKER_UUID
        /\ exists o auths,
             In (Reply (Acme_getAuthorizations o) (Success auths)) tr1
             /\ Forall2 (authorizes tr1) auths payload).
Proof.
  intros r. split; intros tr1; intros;
    exact (main_justified WORKER_UUID HOST PORT world0 t0 evs cs
             tr1 _ _ ltac:(eassumption)).
Qed.

(** X4.  [waitUntilVerify], as [startWorker] uses it: in every execution
    of the program, a CNAME query is made only once the coordinator has
    accepted the values, and only for [_acme-challenge.] followed by the
    domain of an authorization that the ACME server has returned; and a
    TXT query is made only for an address that a CNAME query has
    returned. *)
Theorem dns_queries_are_for_published_records
    {W : Type} `{!Env W} (HOST PORT WORKER_UUID : option string)
    (world0 : W) (t0 : N) (evs : list event) (cs : list nat) :
  let r := main HOST PORT WORKER_UUID (boot world0 t0 evs cs) in
  (forall tr1 k tr2,
      trace r.2 = tr1 ++ Call (Dns_resolveCname k) :: tr2 ->
      exists payload o auths a,
        In (Reply (Rpc_registerChallenges WORKER_UUID payload) (Success tt)) tr1
        /\ In (Reply (Acme_getAuthorizations o) (Success auths)) tr1
        /\ In a auths
        /\ k = ("_acme-challenge." ++ identifier_value (auth_identifier a))%string)
  /\ (forall tr1 addr tr2,
        trace r.2 = tr1 ++ Call (Dns_resolveTxt addr) :: tr2 ->
        exists k addresses,
          In (Reply (Dns_resolveCname k) (Success addresses)) tr1
          /\ In addr addresses).
Proof.
  intros r. split; intros tr1 x tr2 Htr;
    pose proof (main_justified WORKER_UUID HOST PORT world0 t0 evs cs
                  tr1 _ tr2 Htr) as Hj; cbn [provenance] in Hj.
  - exact Hj.
  - destruct Hj as (k & addresses & Hin & Ha). eauto.
Qed.

(** X5.  The barrier between [waitUntilVerify] and [finalize]: in every
    execution of the program, when [verifyChallenge] is called for an
    authorization and a challenge, that challenge is the first DNS-01
    challenge of that authorization, which the ACME server has
    returned; the coordinator has accepted the values; and for each of
    the authorizations returned, the value sent is a key authorization
    of its first DNS-01 challenge and has been seen in a TXT record at
    a CNAME target of [_acme-challenge.] followed by its domain. *)
Theorem finalize_after_values_observed
    {W : Type} `{!Env W} (HOST PORT WORKER_UUID : option string)
    (world0 : W) (t0 : N) (evs : list event) (cs : list nat)
    (tr1 tr2 : list io) (a : authorization) (ch : challenge) :
  let r := main HOST PORT WORKER_UUID (boot world0 t0 evs cs) in
  trace r.2 = tr1 ++ Call (Acme_verifyChallenge a ch) :: tr2 ->
  exists o auths payload,
    In (Reply (Acme_getAuthorizations o) (Success auths)) tr1
    /\ In a auths
    /\ first_dns01 a ch
    /\ In (Reply (Rpc_registerChallenges WORKER_UUID payload) (Success tt)) tr1
    /\ Forall2 (fun a v => authorizes tr1 a v
                           /\ observed (challenge_key a) v tr1)
               auths payload.
Proof.
  intros r Htr.
  exact (main_justified WORKER_UUID HOST PORT world0 t0 evs cs tr1 _ tr2 Htr).
Qed.

(** X6.  [finalize], whatever the interleaving of the challenges under
    [Promise.all]: in every execution of the program, the ACME server
    is told to complete a challenge only once [verifyChallenge] has
    succeeded for that challenge, and the worker waits for the status
    of a challenge only once [completeChallenge] has succeeded for
    it. *)
Theorem finalize_steps_follow_each_other
    {W : Type} `{!Env W} (HOST PORT WORKER_UUID : option string)
    (world0 : W) (t0 : N) (evs : list event) (cs : list nat) :
  let r := main HOST PORT WORKER_UUID (boot world0 t0 evs cs) in
  (forall tr1 ch tr2,
      trace r.2 = tr1 ++ Call (Acme_completeChallenge ch) :: tr2 ->
      exists a, In (Reply (Acme_verifyChallenge a ch) (Success tt)) tr1)
  /\ (forall tr1 ch tr2,
        trace r.2 = tr1 ++ Call (Acme_waitForValidStatus ch) :: tr2 ->
        In (Reply (Acme_completeChallenge ch) (Success tt)) tr1).
Proof.
  intros r. split; intros tr1; intros;
    exact (main_justified WORKER_UUID HOST PORT world0 t0 evs cs
             tr1 _ _ ltac:(eassumption)).
Qed.

(** X7.  The barrier between [finalize] and [issue]: in every execution
    of the program, when the CSR is asked for, the first DNS-01
    challenge of every authorization that the ACME server has returned
    has been reported valid; and the CSR is asked for the domains that
    the coordinator has assigned: the first as the common name, the
    others as the alternative names. *)
Theorem issue_after_all_challenges_valid
    {W : Type} `{!Env W} (HOST PORT WORKER_UUID : option string)
    (world0 : W) (t0 : N) (evs : list event) (cs : list nat)
    (tr1 tr2 : list io) (cn : option string) (alts : list string) :
  let r := main HOST PORT WORKER_UUID (boot world0 t0 evs cs) in
  trace r.2 = tr1 ++ Call (Acme_createCsr cn alts) :: tr2 ->
  (exists a,
      In (Reply (Rpc_fetchDomains WORKER_UUID) (Success a)) tr1
      /\ cn = head (domains a) /\ alts = drop 1 (domains a))
  /\ exists o auths,
       In (Reply (Acme_getAuthorizations o) (Success auths)) tr1
       /\ Forall (fun a => exists ch,
                    first_dns01 a ch
                    /\ In (Reply (Acme_waitForValidStatus ch) (Success tt)) tr1)
                 auths.
Proof.
  intros r Htr.
  destruct (main_justified WORKER_UUID HOST PORT world0 t0 evs cs tr1 _ tr2 Htr)
    as [(ds & (a & Hin & ->) & Hcn & Halts) Hvalid].
  split; [eauto|exact Hvalid].
Qed.

(** X8.  [issue]: in every execution of the program, the order that is
    finalized is one that the ACME server has returned, and it is
    finalized with the CSR that has been created; the certificate is
    asked for an order only once that order has been finalized; and
    what is reported to the coordinator, under the worker's identity,
    is the base64 encoding of a CSR and its private key, as created
    together, and of a certificate that the ACME server has
    returned. *)
Theorem certificate_is_reported_as_obtained
    {W : Type} `{!Env W} (HOST PORT WORKER_UUID : option string)
    (world0 : W) (t0 : N) (evs : list event) (cs : list nat) :
  let r := main HOST PORT WORKER_UUID (boot world0 t0 evs cs) in
  (forall tr1 o csr tr2,
      trace r.2 = tr1 ++ Call (Acme_finalizeOrder o csr) :: tr2 ->
      (exists ids, In (Reply (Acme_createOrder ids) (Success o)) tr1)
      /\ exists cn alts privKey,
           In (Reply (Acme_createCsr cn alts) (Success (privKey, csr))) tr1)
  /\ (forall tr1 o tr2,
        trace r.2 = tr1 ++ Call (Acme_getCertificate o) :: tr2 ->
        exists csr, In (Reply (Acme_finalizeOrder o csr) (Success tt)) tr1)
  /\ (forall tr1 u csr64 key64 cert64 tr2,
        trace r.2 = tr1 ++ Call (Rpc_verifiedCallback u csr64 key64 cert64) :: tr2 ->
        u = WORKER_UUID
        /\ exists cn alts privKey csr o cert,
             In (Reply (Acme_createCsr cn alts) (Success (privKey, csr))) tr1
             /\ In (Reply (Acme_getCertificate o) (Success cert)) tr1
             /\ csr64 = toString_base64 csr
             /\ key64 = toString_base64 privKey
             /\ cert64 = toString_base64 (Buffer_from cert)).
Proof.
  intros r. split; [|split]; intros tr1; intros;
    exact (main_justified WORKER_UUID HOST PORT world0 t0 evs cs
             tr1 _ _ ltac:(eassumption)).
Qed.

(** ** Failures that end the job *)


(** X11.  The expected records (lines 160-165): in every execution of the
    program in which the ACME client fails to give a key authorization,
    the worker rejects, with the error of such a failure, and no call
    of a later step is made: nothing is sent to the coordinator, and no
    DNS query is made. *)
Theorem key_authorization_failure_prevents_publication
    {W : Type} `{!Env W} (HOST PORT WORKER_UUID : option string)
    (world0 : W) (t0 : N) (evs : list event) (cs : list nat)
    (ch : challenge) (e : error) :
  let r := main HOST PORT WORKER_UUID (boot world0 t0 evs cs) in
  In (Reply (Acme_getChallengeKeyAuthorization ch) (Failure e)) (trace r.2) ->
  (exists ch' e',
      r.1 = Rejected e'
      /\ In (Reply (Acme_getChallengeKeyAuthorization ch') (Failure e'))
            (trace r.2))
  /\ forall c', In (Call c') (trace r.2) -> stage c' <= 6.
Proof.
  intros r Hin.
  destruct (main_failure HOST PORT WORKER_UUID world0 t0 evs cs _ e Hin)
    as (Hrej & _ & Hlast); [unfold dns; simpl; discriminate|].
  split; [exists ch, e; auto|exact Hlast].
Qed.

(** X12.  [finalize] under [Promise.all]: in every execution of the
    program in which a step of [finalize] fails for some challenge, the
    worker rejects, with the error of such a failure, and no call of a
    later step is made: no CSR is created, no certificate is asked for,
    and nothing is reported to the coordinator. *)
Theorem finalize_failure_prevents_issuance
    {W : Type} `{!Env W} (HOST PORT WORKER_UUID : option string)
    (world0 : W) (t0 : N) (evs : list event) (cs : list nat)
    (c : call) (e : error) :
  let r := main HOST PORT WORKER_UUID (boot world0 t0 evs cs) in
  finalizing c ->
  In (Reply c (Failure e)) (trace r.2) ->
  (exists c' e',
      finalizing c' /\ r.1 = Rejected e'
      /\ In (Reply c' (Failure e')) (trace r.2))
  /\ forall c', In (Call c') (trace r.2) -> stage c' <= 9.
Proof.
  intros r Hc Hin. pose proof (finalizing_stage c Hc) as Hs.
  destruct (main_failure HOST PORT WORKER_UUID world0 t0 evs cs c e Hin)
    as (Hrej & _ & Hlast); [unfold dns; rewrite Hs; discriminate|].
  split; [exists c, e; auto|]. rewrite <- Hs. exact Hlast.
Qed.

(** ** Progress *)

Section Progress.

Context {W : Type} `{!Env W}.

Lemma step_now (ev : event) (st : state W) : (now st <= now (step ev st))%N.
Proof.
  destruct ev as [d|i|i n|i n]; unfold step; cbn [set_now now]; [lia|..].
  - destruct (watchers st !! i) as [w|]; [|lia].
    destruct (w_interval w); [|lia]. destruct (_ <=? _)%N; [|lia].
    cbn. lia.
  - destruct (watchers st !! i) as [w|]; [|lia].
    destruct (w_inflight w !! n) as [c|]; [|lia].
    destruct (respond c (world st)). cbn. lia.
  - destruct (watchers st !! i) as [w|]; [|lia].
    destruct (w_timeouts w !! n); [|lia]. destruct (_ <=? _)%N; [|lia].
    cbn. lia.
Qed.

Lemma run_now (evs : list event) : forall st : state W,
  (now st <= now (run evs st))%N.
Proof.
  induction evs as [|ev evs IH]; intros st; [cbn; lia|].
  change (run (ev :: evs) st) with (run evs (step ev st)).
  pose proof (step_now ev st). pose proof (IH (step ev st)). lia.
Qed.

(** [Promise.all] over the watchers resolves once the events that
    fulfil all of them have happened, if not sooner. *)
Lemma until_settled_enough (evs rest : list event) : forall st : state W,
  Forall unbroken (watchers st) ->
  forallb fulfilled (watchers (run evs st)) = true ->
  exists done more,
    evs = done ++ more
    /\ until_settled (evs ++ rest) st
       = (Resolved tt, set_events (more ++ rest) (run done st)).
Proof.
  induction evs as [|ev evs IH]; intros st Hun Hall.
  - exists [], []. split; [reflexivity|]. cbn in Hall. cbn [app].
    destruct rest; cbn [until_settled]; rewrite (broken_None _ Hun), Hall;
      reflexivity.
  - cbn [app until_settled]. rewrite (broken_None _ Hun).
    destruct (forallb fulfilled (watchers st)) eqn:Hnow.
    + exists [], (ev :: evs). split; reflexivity.
    + destruct (IH (step ev st)) as (done & more & -> & Hrun);
        [apply step_unbroken, Hun|exact Hall|].
      exists (ev :: done), more. split; [reflexivity|exact Hrun].
Qed.

(** One poll of a watcher that has just been called, when DNS shows
    its value. *)
Lemma one_poll_arms (i : nat) (t : N) (rcd : record) (st : state W) :
  watchers st !! i = Some (waitUntilVerify t rcd) ->
  shown rcd ->
  (t + 5 * 1000 <= now st)%N ->
  exists w' st',
    run [IntervalFires i; DnsAnswers i 0; DnsAnswers i 0] st = st'
    /\ watchers st' = <[i := w']> (watchers st)
    /\ now st' = now st
    /\ armed (now st + 15 * 1000) rcd w'.
Proof.
  intros Hi (addr & Hcname & Htxt) Hdue.
  pose proof (lookup_lt_Some _ _ _ Hi) as Hlt.
  unfold waitUntilVerify in Hi. cbn [run foldl].
  (* the tick *)
  unfold step at 3. rewrite Hi. cbn [w_interval].
  destruct (N.leb_spec (t + 5 * 1000) (now st)) as [_|]; [|lia].
  watcher_simpl. cbn [app].
  (* the CNAME answer *)
  unfold step at 2. cbn [watchers]. rewrite list_lookup_insert_eq by exact Hlt.
  cbn [w_inflight lookup list_lookup world].
  destruct (Hcname (world st)) as (others & w1 & Hr1).
  rewrite Hr1. cbn [on_dns on_cname].
  watcher_simpl. cbn [delete list_delete app map].
  rewrite list_insert_insert_eq.
  (* the TXT answer *)
  unfold step at 1. cbn [watchers]. rewrite list_lookup_insert_eq by exact Hlt.
  cbn [w_inflight lookup list_lookup world].
  destruct (Htxt w1) as (result & w2 & Hr2 & Hin).
  rewrite Hr2. cbn [on_dns on_txt]. watcher_simpl.
  apply indexOf_found in Hin. rewrite Hin. cbn [negb].
  watcher_simpl. cbn [delete list_delete app]. rewrite list_insert_insert_eq.
  eexists _, _. split; [reflexivity|]. cbn [watchers now].
  split; [reflexivity|]. split; [reflexivity|].
  repeat split.
Qed.

(** Every watcher polls once. *)
Lemma polls_arm (t : N) (records : list record) (st : state W) :
  Forall shown records ->
  (t + 5 * 1000 <= now st)%N ->
  length (watchers st) = length records ->
  (forall i rcd, records !! i = Some rcd ->
     watchers st !! i = Some (waitUntilVerify t rcd)) ->
  forall k, k <= length records ->
  let st' := run (flat_map (fun i => [IntervalFires i; DnsAnswers i 0;
                                      DnsAnswers i 0]) (seq 0 k)) st in
  now st' = now st
  /\ length (watchers st') = length records
  /\ forall i rcd, records !! i = Some rcd ->
       exists w,
         watchers st' !! i = Some w
         /\ (i < k -> armed (now st + 15 * 1000) rcd w)
         /\ (k <= i -> w = waitUntilVerify t rcd).
Proof.
  intros Hshown Hdue Hlen Hfresh k. induction k as [|k IH]; intros Hk st'.
  - subst st'. cbn. split; [reflexivity|]. split; [exact Hlen|].
    intros i rcd Hi. exists (waitUntilVerify t rcd).
    split; [apply Hfresh, Hi|]. split; [lia|reflexivity].
  - subst st'. rewrite seq_S, flat_map_app, run_app. cbn [plus flat_map app].
    destruct IH as (Hnow & Hlen' & Hall); [lia|].
    set (stk := run _ st) in *.
    destruct (lookup_lt_is_Some_2 records k) as (rcdk & Hrk); [lia|].
    destruct (Hall k rcdk Hrk) as (wk & Hwk & _ & Hfk).
    rewrite (Hfk (le_n k)) in Hwk.
    destruct (one_poll_arms k t rcdk stk Hwk) as (w' & st' & Hrun & Hws & Hnow' & Harmed).
    { eapply Forall_lookup_1; eassumption. }
    { lia. }
    rewrite Hrun, Hnow', Hws, length_insert.
    split; [exact Hnow|]. split; [exact Hlen'|].
    intros i rcd Hi. destruct (decide (i = k)) as [->|Hne].
    + rewrite list_lookup_insert_eq by lia. exists w'.
      split; [reflexivity|]. split; [|lia].
      intros _. rewrite Hrk in Hi. injection Hi as <-.
      rewrite <- Hnow. exact Harmed.
    + rewrite list_lookup_insert_ne by auto.
      destruct (Hall i rcd Hi) as (w & Hw & Hlt & Hge). exists w.
      split; [exact Hw|]. split; intros; [apply Hlt|apply Hge]; lia.
Qed.

(** The timer of an armed watcher calls back. *)
Lemma timeout_fulfils (i : nat) (T : N) (rcd : record) (w : watcher)
    (st : state W) :
  watchers st !! i = Some w -> armed T rcd w -> (T <= now st)%N ->
  exists w',
    step (TimeoutFires i 0) st
    = State (world st) (trace st ++ []) (now st) (<[i := w']> (watchers st))
            (events st) (choices st)
    /\ w_promise w' = Fulfilled.
Proof.
  intros Hi (_ & _ & _ & Ht & Hp) Hdue. unfold step. rewrite Hi, Ht.
  cbn [lookup list_lookup].
  destruct (N.leb_spec T (now st)) as [_|]; [|lia].
  watcher_simpl. rewrite Hp. eexists. split; reflexivity.
Qed.

(** Every timer calls back. *)
Lemma timers_fulfil (T : N) (records : list record) (st : state W) :
  (T <= now st)%N ->
  length (watchers st) = length records ->
  (forall i rcd, records !! i = Some rcd ->
     exists w, watchers st !! i = Some w /\ armed T rcd w) ->
  forall k, k <= length records ->
  let st' := run (map (fun i => TimeoutFires i 0) (seq 0 k)) st in
  now st' = now st
  /\ length (watchers st') = length records
  /\ forall i rcd, records !! i = Some rcd ->
       exists w,
         watchers st' !! i = Some w
         /\ (i < k -> w_promise w = Fulfilled)
         /\ (k <= i -> armed T rcd w).
Proof.
  intros Hdue Hlen Harmed k. induction k as [|k IH]; intros Hk st'.
  - subst st'. cbn. split; [reflexivity|]. split; [exact Hlen|].
    intros i rcd Hi. destruct (Harmed i rcd Hi) as (w & Hw & Ha).
    exists w. split; [exact Hw|]. split; [lia|auto].
  - subst st'. rewrite seq_S, map_app, run_app. cbn [plus map].
    destruct IH as (Hnow & Hlen' & Hall); [lia|].
    set (stk := run _ st) in *.
    destruct (lookup_lt_is_Some_2 records k) as (rcdk & Hrk); [lia|].
    destruct (Hall k rcdk Hrk) as (wk & Hwk & _ & Hak).
    destruct (timeout_fulfils k T rcdk wk stk Hwk (Hak (le_n k)))
      as (w' & Hstep & Hp); [lia|].
    cbn [run foldl]. rewrite Hstep. cbn [now watchers]. rewrite length_insert.
    split; [exact Hnow|]. split; [exact Hlen'|].
    intros i rcd Hi. destruct (decide (i = k)) as [->|Hne].
    + rewrite list_lookup_insert_eq by lia. exists w'.
      split; [reflexivity|]. split; [auto|lia].
    + rewrite list_lookup_insert_ne by auto.
      destruct (Hall i rcd Hi) as (w & Hw & Hlt & Hge). exists w.
      split; [exact Hw|]. split; intros; [apply Hlt|apply Hge]; lia.
Qed.

(** The schedule [polling_once] fulfils every watcher. *)
Lemma polling_once_fulfils (t d1 d2 : N) (records : list record)
    (st : state W) :
  Forall shown records ->
  (5 * 1000 <= d1)%N -> (15 * 1000 <= d2)%N ->
  now st = t ->
  watchers st = map (waitUntilVerify t) records ->
  let st' := run (polling_once (length records) d1 d2) st in
  forallb fulfilled (watchers st') = true
  /\ now st' = (t + d1 + d2)%N.
Proof.
  intros Hshown Hd1 Hd2 Hnow Hws st'. subst st'. unfold polling_once.
  change (run (Elapse d1 :: ?evs) st) with (run evs (step (Elapse d1) st)).
  rewrite run_app. set (st1 := step (Elapse d1) st).
  destruct (polls_arm t records st1 Hshown) with (k := length records)
    as (Hnow2 & Hlen2 & Hall2).
  { subst st1. cbn. lia. }
  { subst st1. cbn. rewrite Hws. apply length_map. }
  { intros i rcd Hi. subst st1. cbn. rewrite Hws, list_lookup_fmap, Hi.
    reflexivity. }
  { lia. }
  set (st2 := run _ st1) in *.
  change (run (Elapse d2 :: ?evs) st2) with (run evs (step (Elapse d2) st2)).
  set (st3 := step (Elapse d2) st2).
  assert (Hnow1 : now st1 = (t + d1)%N) by (subst st1; cbn; lia).
  destruct (timers_fulfil (now st1 + 15 * 1000) records st3)
    with (k := length records) as (Hnow4 & Hlen4 & Hall4).
  { subst st3. cbn. lia. }
  { subst st3. cbn. exact Hlen2. }
  { intros i rcd Hi. destruct (Hall2 i rcd Hi) as (w & Hw & Hlt & _).
    exists w. split; [exact Hw|]. apply Hlt.
    eapply lookup_lt_Some, Hi. }
  { lia. }
  set (st4 := run _ st3) in *. split.
  - apply forallb_fulfilled, Forall_lookup. intros i w Hw.
    destruct (lookup_lt_is_Some_2 records i) as (rcd & Hi).
    { rewrite <- Hlen4. eapply lookup_lt_Some, Hw. }
    destruct (Hall4 i rcd Hi) as (w' & Hw' & Hlt & _).
    rewrite Hw in Hw'. injection Hw' as <-. apply Hlt.
    eapply lookup_lt_Some, Hi.
  - rewrite Hnow4. subst st3. cbn. lia.
Qed.

End Progress.

Section Barrier_.

Context {W : Type} `{!Env W}.

Lemma barrier_enough (records : list record) (st : state W)
    (d1 d2 : N) (rest : list event) :
  Forall shown records ->
  (5 * 1000 <= d1)%N -> (15 * 1000 <= d2)%N ->
  events st = polling_once (length records) d1 d2 ++ rest ->
  let b := Promise_all_watchers (map (waitUntilVerify (now st)) records) st in
  b.1 = Resolved tt
  /\ Forall (fun w => w_promise w = Fulfilled) (watchers b.2)
  /\ (now b.2 <= now st + d1 + d2)%N.
Proof.
  intros Hshown Hd1 Hd2 Hevs b. subst b. unfold Promise_all_watchers.
  rewrite Hevs. set (ws := map (waitUntilVerify (now st)) records).
  destruct (polling_once_fulfils (now st) d1 d2 records (set_watchers ws st)
              Hshown Hd1 Hd2 eq_refl eq_refl) as (Hall & Hnow).
  destruct (until_settled_enough (polling_once (length records) d1 d2) rest
              (set_watchers ws st)) as (done & more & Hsplit & Hrun).
  { apply waitUntilVerify_unbroken. }
  { exact Hall. }
  pose proof Hrun as Hres. apply until_settled_run in Hres
    as (done' & rest' & _ & _ & Hful).
  rewrite Hrun in *. cbn [fst snd] in *.
  split; [reflexivity|]. split; [apply forallb_fulfilled, Hful|].
  cbn [set_events now]. rewrite Hsplit, run_app in Hnow.
  pose proof (run_now more (run done (set_watchers ws st))) as Hmono.
  cbn [set_watchers now] in *. lia.
Qed.

End Barrier_.

(** X15.  The barrier of [startWorker], when DNS shows the value of every
    record: it is enough that each watcher polls once, 5 seconds or
    more after [waitUntilVerify] has been called, and that the timers
    call back 15 seconds or more later, for [Promise.all] over the
    promises of [waitUntilVerify] to resolve, however many records there
    are; every watcher has then signalled, and no more time has passed
    than these two delays. *)
Theorem barrier_resolves_when_dns_shows_values
    {W : Type} `{!Env W} (records : list record) (st : state W)
    (d1 d2 : N) (rest : list event) :
  Forall shown records ->
  (5 * 1000 <= d1)%N -> (15 * 1000 <= d2)%N ->
  events st = polling_once (length records) d1 d2 ++ rest ->
  let b := Promise_all_watchers (map (waitUntilVerify (now st)) records) st in
  b.1 = Resolved tt
  /\ Forall (fun w => w_promise w = Fulfilled) (watchers b.2)
  /\ (now b.2 <= now st + d1 + d2)%N.
Proof. apply barrier_enough. Qed.

(** *** Pools that complete *)

Lemma finishing_thrown {A : Type} (ns : list nat) (ts : list (task A)) :
  Forall2 finishing ns ts -> thrown ts = None.
Proof.
  induction 1 as [|n t ns ts Ht _ IH]; [reflexivity|].
  destruct t; simpl in *; [exact IH|contradiction|exact IH].
Qed.

Lemma list_sum_insert (ns : list nat) : forall i n n',
  ns !! i = Some n -> list_sum (<[i := n']> ns) + n = list_sum ns + n'.
Proof.
  induction ns as [|m ns IH]; intros [|i] n n'; simpl; try discriminate.
  - intros [= ->]. lia.
  - intros Hi. specialize (IH i n n' Hi). lia.
Qed.

Section Finishing.

Context {W : Type} `{!Env W}.

Variable P : call -> Prop.
Hypothesis P_accepted : accepting (W := W) P.

Lemma exec_finishes {A : Type} (t : task A) : forall (n : nat) (st : state W),
  finishing n t -> within P t -> exists a, (exec t st).1 = Resolved a.
Proof.
  induction t as [a|e|c k IH]; intros n st Hn Hin; cbn [exec].
  - eauto.
  - contradiction.
  - destruct n as [|n]; [exact (False_ind _ Hn)|]. destruct Hin as [Hc Hin].
    destruct (P_accepted c (world st) Hc) as (a & w' & ->).
    eapply IH; [apply Hn|apply Hin].
Qed.

Lemma settle_finishes {A : Type} (cs : list nat) :
  forall (ns : list nat) (ts : list (task A)) (st : state W),
  Forall2 finishing ns ts -> Forall (within P) ts ->
  list_sum ns <= length cs ->
  exists rs,
    (settle cs ts st).1 = Resolved rs
    /\ length rs = length ts
    /\ length cs <= length (choices (settle cs ts st).2) + list_sum ns.
Proof.
  assert (Hdone : forall (ns : list nat) (ts : list (task A)),
            Forall2 finishing ns ts -> awaiting ts = [] ->
            length (returned ts) = length ts).
  { intros ns ts Hns Haw.
    pose proof (awaiting_nil_returned ts (finishing_thrown ns ts Hns)
                  (awaiting_nil ts Haw)) as Hret.
    symmetry. eapply Forall2_length, Hret. }
  induction cs as [|c cs IH]; intros ns ts st Hns Hin Hsum; cbn [settle];
    rewrite (finishing_thrown ns ts Hns).
  - destruct (awaiting ts) as [|p ps] eqn:Haw; cbn [fst snd choices set_choices].
    + exists (returned ts). split; [reflexivity|]. split; [eauto|simpl; lia].
    + exfalso.
      assert (Hp : In p (awaiting ts)) by (rewrite Haw; left; reflexivity).
      apply In_awaiting_from in Hp as (j & t & _ & Hj & Ht).
      destruct (Forall2_lookup_r _ _ _ _ _ Hns Hj) as (n & Hn & Hfin).
      destruct t as [a|e|c k]; try discriminate.
      destruct n; [exact (False_ind _ Hfin)|].
      pose proof (list_sum_insert ns j (S n) 0 Hn) as Hs. simpl in Hsum. lia.
  - destruct (awaiting ts) as [|p ps] eqn:Haw; cbn [fst snd choices set_choices].
    + exists (returned ts). split; [reflexivity|]. split; [eauto|simpl; lia].
    + set (i := nth _ _ _).
      assert (Hi : In i (awaiting ts)).
      { rewrite Haw. apply nth_In. apply Nat.mod_upper_bound. discriminate. }
      apply In_awaiting_from in Hi as (j & t & Hij & Hj & Ht).
      simpl in Hij. subst j.
      destruct (Forall2_lookup_r _ _ _ _ _ Hns Hj) as (n & Hn & Hfin).
      destruct t as [a|e|c0 k]; try discriminate.
      destruct n as [|n]; [exact (False_ind _ Hfin)|].
      destruct (Forall_lookup_1 _ _ _ _ Hin Hj) as [Hc0 Hk].
      unfold deliver. rewrite Hj.
      destruct (P_accepted c0 (world st) Hc0) as (a & w' & ->).
      destruct (IH (<[i := n]> ns) (<[i := k (Success a)]> ts)
                  (emit (Reply c0 (Success a) :: first_call (k (Success a)))
                        (set_world w' st)))
        as (rs & Hres & Hlen & Hcs).
      * apply Forall2_insert; [exact Hns|apply Hfin].
      * apply Forall_insert; [exact Hin|apply Hk].
      * pose proof (list_sum_insert ns i (S n) n Hn) as Hs. simpl in Hsum. lia.
      * exists rs. split; [exact Hres|]. rewrite length_insert in Hlen.
        split; [exact Hlen|].
        pose proof (list_sum_insert ns i (S n) n Hn) as Hs. simpl. lia.
Qed.

Lemma Promise_all_finishes {X A : Type} (n : nat) (f : X -> task A)
    (xs : list X) (st : state W) :
  (forall x, finishing n (f x)) -> (forall x, within P (f x)) ->
  n * length xs <= length (choices st) ->
  exists rs,
    (Promise_all (map f xs) st).1 = Resolved rs
    /\ length rs = length xs
    /\ length (choices st)
       <= length (choices (Promise_all (map f xs) st).2) + n * length xs.
Proof.
  intros Hfin Hin Hcs. unfold Promise_all.
  destruct (settle_finishes (choices st) (map (fun _ => n) xs) (map f xs)
              (emit (flat_map first_call (map f xs)) st))
    as (rs & Hres & Hlen & Hleft).
  - clear Hcs. induction xs; simpl; constructor; auto.
  - apply Forall_within_map, Hin.
  - clear -Hcs. induction xs as [|x xs IH] in Hcs |- *; simpl in *; [lia|].
    assert (list_sum (map (fun _ : X => n) xs) = n * length xs) as ->; [|lia].
    clear. induction xs; simpl; lia.
  - exists rs. split; [exact Hres|]. rewrite length_map in Hlen.
    split; [exact Hlen|].
    assert (list_sum (map (fun _ : X => n) xs) = n * length xs) as <-; [|exact Hleft].
    clear. induction xs; simpl; lia.
Qed.

End Finishing.

Lemma finishing_finalize (c : selected) : finishing 3 (finalize c).
Proof.
  unfold finalize, mbind, task_mbind, perform. cbn [finishing task_bind].
  intros []. cbn [finishing task_bind]. intros []. cbn [finishing task_bind].
  intros []. exact I.
Qed.

Lemma finalizing_finalize (c : selected) : within finalizing (finalize c).
Proof.
  unfold finalize. apply within_bind; [apply within_perform; exact I|].
  intros _. apply within_bind; [apply within_perform; exact I|].
  intros _. apply within_perform. exact I.
Qed.

(** X16.  [finalize] under [Promise.all] (line 171): when the ACME
    server accepts every step, [Promise.all] over the challenges
    resolves, with one result per challenge, in whatever order the
    calls of the different challenges complete. *)
Theorem finalize_completes_in_any_order
    {W : Type} `{!Env W} (challenges : list selected) (st : state W) :
  accepting (W := W) finalizing ->
  3 * length challenges <= length (choices st) ->
  exists rs,
    (Promise_all (map finalize challenges) st).1 = Resolved rs
    /\ length rs = length challenges.
Proof.
  intros Hacc Hcs.
  destruct (Promise_all_finishes finalizing Hacc 3 finalize challenges st)
    as (rs & Hres & Hlen & _);
    [apply finishing_finalize|apply finalizing_finalize|exact Hcs|eauto].
Qed.

(** *** The whole job *)

Lemma first_dns01_unique (a : authorization) (c c' : challenge) :
  first_dns01 a c -> first_dns01 a c' -> c = c'.
Proof.
  intros (b1 & a1 & H1 & Ht1 & Hb1) (b2 & a2 & H2 & Ht2 & Hb2).
  rewrite H1 in H2. clear H1. revert b2 H2 Hb2.
  induction b1 as [|x b1 IH]; intros [|y b2] Heq Hb2; simpl in Heq.
  - injection Heq as -> _. reflexivity.
  - injection Heq as -> _. apply Forall_cons in Hb2 as [Hy _]. contradiction.
  - injection Heq as -> _. apply Forall_cons in Hb1 as [Hx _]. contradiction.
  - injection Heq as -> Heq. apply Forall_cons in Hb1 as [_ Hb1].
    apply Forall_cons in Hb2 as [_ Hb2]. eauto.
Qed.

Section Genuine.

Context {W : Type} `{!Env W}.

Lemma genuine_first_call {A : Type} (t : task A) :
  genuine (W := W) (first_call t).
Proof. destruct t; simpl; repeat constructor. Qed.

Lemma exec_genuine {A : Type} (t : task A) : forall st : state W,
  genuine (trace st) -> genuine (trace (exec t st).2).
Proof.
  induction t as [a|e|c k IH]; intros st Hst; cbn [exec]; auto.
  destruct (respond c (world st)) as [r w'] eqn:Hr. apply IH.
  cbn [emit trace set_world]. apply Forall_app. split; [exact Hst|].
  constructor; [exact I|]. constructor; [eauto|constructor].
Qed.

Lemma settle_genuine {A : Type} (cs : list nat) :
  forall (ts : list (task A)) (st : state W),
  genuine (trace st) -> genuine (trace (settle cs ts st).2).
Proof.
  induction cs as [|c cs IH]; intros ts st Hst; cbn [settle].
  - destruct (thrown ts); [exact Hst|]. destruct (awaiting ts); exact Hst.
  - destruct (thrown ts); [exact Hst|].
    destruct (awaiting ts) as [|p ps]; [exact Hst|].
    set (i := nth _ _ _). unfold deliver.
    destruct (ts !! i) as [[a|e|c0 k]|]; try (apply IH; exact Hst).
    destruct (respond c0 (world st)) as [r w'] eqn:Hr. apply IH.
    cbn [emit trace set_world]. apply Forall_app. split; [exact Hst|].
    constructor; [eauto|apply genuine_first_call].
Qed.

Lemma Promise_all_genuine {A : Type} (ts : list (task A)) (st : state W) :
  genuine (trace st) -> genuine (trace (Promise_all ts st).2).
Proof.
  intros Hst. unfold Promise_all. apply settle_genuine.
  cbn [emit trace]. apply Forall_app. split; [exact Hst|].
  induction ts as [|t ts IH]; simpl; [constructor|].
  apply Forall_app. split; [apply genuine_first_call|exact IH].
Qed.

End Genuine.

Section WholeJob.

Context {W : Type} `{!Env W}.

Lemma genuine_reply (tr : list io) (c : call) (r : reply (answer c)) :
  genuine (W := W) tr -> In (Reply c r) tr ->
  exists w w' : W, respond c w = (r, w').
Proof.
  intros Hg Hin. eapply Forall_forall in Hg; [|apply list_elem_of_In, Hin].
  exact Hg.
Qed.

(** The expected records, when the ACME client gives the key
    authorizations. *)
Lemma records_computed (chs : list selected) (st : state W) :
  accepting (W := W) (fun c => ~ dns c) ->
  genuine (W := W) (trace st) ->
  length chs <= length (choices st) ->
  exists records st',
    Promise_all (map expectedRecord chs) st = (Resolved records, st')
    /\ length (choices st) <= length (choices st') + length chs
    /\ events st' = events st /\ now st' = now st
    /\ Forall2 (fun s rcd =>
                  key rcd = record_key s
                  /\ exists w0 w1 : W,
                       respond (Acme_getChallengeKeyAuthorization (dns01 s)) w0
                       = (Success (value rcd), w1)) chs records.
Proof.
  intros Hacc Hgen Hcs.
  destruct (Promise_all_finishes (fun c => ~ dns c) Hacc 1 expectedRecord chs st)
    as (records & Hres & Hlen & Hleft).
  { intros s. unfold expectedRecord, mbind, task_mbind, perform.
    cbn [finishing task_bind]. intros v. exact I. }
  { intros s. eapply within_weaken; [|apply within_expectedRecord].
    unfold between, dns. intros c Hc. lia. }
  { lia. }
  destruct (Promise_all_extends (fun _ => True) (map expectedRecord chs) st)
    as (_ & _ & Hnow & Hevs).
  { apply Forall_forall. intros t _. apply within_True. }
  destruct (Promise_all_attested (fun _ _ => True)
              (fun tr tr' c _ _ => I)
              (fun s tr rcd =>
                 key rcd = record_key s
                 /\ In (Reply (Acme_getChallengeKeyAuthorization (dns01 s))
                              (Success (value rcd))) tr)
              expectedRecord chs st) as (_ & Hrec).
  { intros s tr tr' rcd Hi [Hk Hin]. auto. }
  { intros tr1 c tr2 _. exact I. }
  { apply Forall_forall. intros s _.
    unfold expectedRecord, mbind, task_mbind, perform.
    cbn [attested task_bind]. split; [exact I|].
    intros [e|v]; cbn [attested task_bind]; [exact I|].
    split; [reflexivity|]. apply in_or_app. right. left. reflexivity. }
  pose proof (Promise_all_genuine (map expectedRecord chs) st Hgen) as Hgen'.
  destruct (Promise_all (map expectedRecord chs) st) as [o st'].
  cbn [fst snd] in *. subst o. exists records, st'.
  split; [reflexivity|]. split; [lia|]. split; [exact Hevs|].
  split; [exact Hnow|].
  eapply Forall2_impl; [apply Hrec; reflexivity|].
  intros s rcd [Hk Hin]. split; [exact Hk|].
  eapply genuine_reply; eassumption.
Qed.

End WholeJob.

(** X17.  The whole job, for any number of domains: when every call to
    the ACME client and to the coordinator succeeds, every
    authorization offers a DNS-01 challenge, and DNS shows under the
    key of each authorization the key authorization of its challenge,
    then [startWorker] resolves, having reported a CSR, a private key
    and a certificate to the coordinator: it is enough that each
    watcher polls once, 5 seconds or more after the values have been
    published, that the timers call back 15 seconds or more later, and
    that four calls per authorization get to complete under
    [Promise.all], in whatever order. *)
Theorem job_completes_when_all_cooperate
    {W : Type} `{!Env W} (HOST PORT WORKER_UUID : option string)
    (world0 : W) (t0 d1 d2 : N) :
  cooperative (W := W) ->
  (5 * 1000 <= d1)%N -> (15 * 1000 <= d2)%N ->
  exists n,
    forall (cs : list nat) (rest : list event),
      4 * n <= length cs ->
      let r := main HOST PORT WORKER_UUID
                    (boot world0 t0 (polling_once n d1 d2 ++ rest) cs) in
      r.1 = Resolved tt
      /\ exists csr64 key64 cert64,
           In (Reply (Rpc_verifiedCallback WORKER_UUID csr64 key64 cert64)
                     (Success tt)) (trace r.2).
Proof.
  intros (Hacc & Hdns01 & Hshown) Hd1 Hd2.
  assert (Hany : forall (c : call) (w : W), stage c <> 8 ->
            exists a w', respond c w = (Success a, w'))
    by (intros c w Hc; apply Hacc; exact Hc).
  destruct (Hany Acme_createPrivateKey world0) as (accountKey & w1 & H1);
    [discriminate|].
  destruct (Hany (Rpc_registerClient WORKER_UUID) w1) as (reg & w2 & H2);
    [discriminate|].
  destruct (Hany (Acme_createAccount true [("mailto:" ++ email reg)%string]) w2)
    as ([] & w3 & H3); [discriminate|].
  destruct (Hany (Rpc_fetchDomains WORKER_UUID) w3) as (asg & w4 & H4);
    [discriminate|].
  destruct (Hany (Acme_createOrder
                    (map (fun d => Identifier "dns" d) (domains asg))) w4)
    as (o & w5 & H5); [discriminate|].
  destruct (Hany (Acme_getAuthorizations o) w5) as (auths & w6 & H6);
    [discriminate|].
  pose proof (Hdns01 o w5 auths w6 H6) as Hoffer.
  pose proof (map_throwing_select auths) as Hsel.
  destruct (map_throwing select_dns01 auths) as [e|chs] eqn:Hmt.
  { exfalso. destruct Hsel as [_ Hex].
    apply Exists_exists in Hex as (a & Ha & Hl).
    eapply Forall_forall in Hoffer as (ch & Hch); [|exact Ha].
    eapply lacks_dns01_not_first; eassumption. }
  destruct Hsel as [Hsel _].
  pose proof (Forall2_length _ _ _ Hsel) as Hlen.
  exists (length auths). intros cs rest Hcs r. subst r.
  unfold main, startWorker, mbind at 1 2 3 4 5 6 7 8 9 10 11, M_mbind,
    console_log, clock, await, boot.
  unfold initialize, createAccount, fetchDomains, getChallenges, workerUuid.
  run_task. rewrite H1. run_task. rewrite H2. run_task. rewrite H3. run_task.
  rewrite H4. run_task. cbn [domains]. rewrite H5. run_task. rewrite H6. run_task.
  rewrite Hmt. cbn [exec fst snd].
  match goal with
  | |- context [Promise_all (map expectedRecord chs) ?s] => set (st5 := s)
  end.
  assert (Hg5 : genuine (W := W) (trace st5)).
  { subst st5. cbn [emit set_world trace app].
    repeat (constructor; [first [exact I | eauto]|]). constructor. }
  destruct (records_computed chs st5 Hacc Hg5)
    as (records & st6 & E6 & Hleft & Hevs6 & Hnow6 & Hrec).
  { subst st5. cbn [choices emit set_world]. lia. }
  rewrite E6.
  pose proof (Forall2_length _ _ _ Hrec) as Hlen'.
  assert (Hall : Forall (shown (W := W)) records).
  { clear -Hsel Hrec Hshown H6. apply Forall_forall. intros rcd Hin.
    apply list_elem_of_In in Hin.
    destruct (Forall2_In_r _ _ _ _ Hrec Hin) as (s & Hs & Hk & w0 & w1' & Hv).
    destruct (Forall2_In_r _ _ _ _ Hsel Hs) as (a & Ha & Hauth & Hfirst).
    pose proof (Hshown o w5 auths w6 a (dns01 s) w0 (value rcd) w1'
                  H6 Ha Hfirst Hv) as Hsh.
    destruct rcd as [k v]. cbn [key value] in *. rewrite Hk.
    unfold record_key. rewrite Hauth. exact Hsh. }
  (* pushRecords *)
  unfold pushRecords, workerUuid. run_task.
  destruct (Hany (Rpc_registerChallenges WORKER_UUID
                    (map (fun r => value r) records)) (world st6))
    as ([] & w7 & H7); [discriminate|].
  rewrite H7. run_task.
  (* the barrier *)
  match goal with
  | |- context [Promise_all_watchers _ ?s] => set (st8 := s)
  end.
  destruct (barrier_enough records st8 d1 d2 rest Hall Hd1 Hd2) as (Hres9 & _).
  { subst st8. cbn [events emit set_world]. rewrite Hevs6. subst st5.
    cbn [events emit set_world]. rewrite <- Hlen', <- Hlen. reflexivity. }
  destruct (Promise_all_watchers_extends (now st8) records st8)
    as (_ & _ & _ & Hcs9 & _).
  destruct (Promise_all_watchers _ st8) as [o9 st9]. cbn [fst snd] in *.
  subst o9.
  (* finalize *)
  destruct (Promise_all_finishes (fun c => ~ dns c) Hacc 3 finalize chs st9)
    as (rs & Hres10 & _ & _).
  { apply finishing_finalize. }
  { intros s. eapply within_weaken; [|apply finalizing_finalize].
    intros c Hc. apply finalizing_stage in Hc. unfold dns. lia. }
  { rewrite Hcs9. subst st8 st5. cbn [choices emit set_world] in *. lia. }
  destruct (Promise_all (map finalize chs) st9) as [o10 st10].
  cbn [fst snd] in *. subst o10.
  (* issue *)
  unfold issue, workerUuid. run_task.
  destruct (Hany (Acme_createCsr (head (domains asg)) (drop 1 (domains asg)))
                 (world st10)) as ([privKey csr] & w11 & H11); [discriminate|].
  rewrite H11. run_task.
  destruct (Hany (Acme_finalizeOrder o csr) w11) as ([] & w12 & H12);
    [discriminate|].
  rewrite H12. run_task.
  destruct (Hany (Acme_getCertificate o) w12) as (cert & w13 & H13);
    [discriminate|].
  rewrite H13. run_task.
  destruct (Hany (Rpc_verifiedCallback WORKER_UUID (toString_base64 csr)
                    (toString_base64 privKey)
                    (toString_base64 (Buffer_from cert))) w13)
    as ([] & w14 & H14); [discriminate|].
  rewrite H14. run_task.
  split; [reflexivity|].
  exists (toString_base64 csr), (toString_base64 privKey),
    (toString_base64 (Buffer_from cert)).
  apply in_or_app. right. right. left. reflexivity.
Qed.

(** *** The example environment cooperates *)

Lemma happy_accepting :
  accepting (Env0 := scripted (play happy)) (fun c => ~ dns c).
Proof.
  intros c w Hc.
  destruct c; try (eexists _, _; reflexivity);
    exfalso; apply Hc; reflexivity.
Qed.

Lemma happy_accepting_finalizing :
  accepting (Env0 := scripted (play happy)) finalizing.
Proof.
  intros c w Hc. apply happy_accepting. apply finalizing_stage in Hc.
  unfold dns. lia.
Qed.

Lemma happy_shown (k v : string) :
  In v ["ka-d-example.com"; "ka-d-www.example.com"] ->
  shown (Env0 := scripted (play happy)) {| key := k; value := v |}.
Proof.
  intros Hv. exists "acme.example.net". split; intros w.
  - eexists _, _. reflexivity.
  - eexists _, _. split; [reflexivity|]. simpl. right. exact Hv.
Qed.

Lemma happy_first_dns01 (d : string) :
  first_dns01 (authorized d)
    (Challenge "dns-01" ("https://ca.example/chall/" ++ d ++ "/2")
               ("d-" ++ d)).
Proof.
  eexists [_], [_]. split; [reflexivity|]. split; [reflexivity|].
  repeat constructor. discriminate.
Qed.

Lemma happy_cooperative : cooperative (Env0 := scripted (play happy)).
Proof.
  split; [exact happy_accepting|]. split.
  - intros o w auths w' Heq. injection Heq as <- _.
    repeat constructor; eexists; apply happy_first_dns01.
  - intros o w auths w' a ch w0 v w1 Heq Ha Hch Hv.
    injection Heq as <- _. apply happy_shown.
    destruct Ha as [<-|[<-|[]]];
      rewrite (first_dns01_unique _ _ _ Hch (happy_first_dns01 _)) in Hv;
      injection Hv as <- _; simpl; auto.
Qed.

(** ** The encoding of the report *)

Lemma alphabet_NoDup : NoDup Base64.alphabet.
Proof. compute_done. Qed.

Lemma alphabet_length : length Base64.alphabet = 64.
Proof. reflexivity. Qed.

Lemma alphabet_no_pad : ~ In Base64.pad Base64.alphabet.
Proof.
  rewrite <- list_elem_of_In. compute_done.
Qed.

Lemma digit_inj (n m : N) :
  (n < 64)%N -> (m < 64)%N -> Base64.digit n = Base64.digit m -> n = m.
Proof.
  intros Hn Hm Heq. unfold Base64.digit in Heq.
  apply N2Nat.inj.
  eapply (proj1 (List.NoDup_nth Base64.alphabet "="%char));
    [apply NoDup_ListNoDup, alphabet_NoDup| | |exact Heq];
    rewrite alphabet_length; lia.
Qed.

Lemma digit_not_pad (n : N) : (n < 64)%N -> Base64.digit n <> Base64.pad.
Proof.
  intros Hn Heq. apply alphabet_no_pad. rewrite <- Heq.
  unfold Base64.digit. apply nth_In. rewrite alphabet_length. lia.
Qed.

Lemma to_N_lt (a : Byte.byte) : (Byte.to_N a < 256)%N.
Proof. pose proof (Byte.to_N_bounded a). lia. Qed.

Lemma to_N_inj (a b : Byte.byte) : Byte.to_N a = Byte.to_N b -> a = b.
Proof.
  intros Heq. pose proof (Byte.of_to_N a) as Ha.
  rewrite Heq, Byte.of_to_N in Ha. congruence.
Qed.

(** The quotient and the remainder of a byte by a power of two. *)
Ltac split_byte x k :=
  let q := fresh "q" in
  let r := fresh "r" in
  let Hq := fresh "Hq" in
  let Hr := fresh "Hr" in
  pose proof (N.div_mod x k ltac:(lia)) as Hq;
  pose proof (N.mod_lt x k ltac:(lia)) as Hr;
  set (q := (x / k)%N) in *; set (r := (x mod k)%N) in *;
  clearbody q r.

Lemma sextets_1 (x x' : N) :
  (x < 256)%N -> (x' < 256)%N ->
  Base64.digit (x / 4) = Base64.digit (x' / 4) ->
  Base64.digit (x mod 4 * 16) = Base64.digit (x' mod 4 * 16) ->
  x = x'.
Proof.
  intros Hx Hx' H1 H2.
  split_byte x 4%N. split_byte x' 4%N.
  apply digit_inj in H1; [|lia|lia]. apply digit_inj in H2; [|lia|lia]. lia.
Qed.

Lemma sextets_2 (x y x' y' : N) :
  (x < 256)%N -> (y < 256)%N -> (x' < 256)%N -> (y' < 256)%N ->
  Base64.digit (x / 4) = Base64.digit (x' / 4) ->
  Base64.digit (x mod 4 * 16 + y / 16)
  = Base64.digit (x' mod 4 * 16 + y' / 16) ->
  Base64.digit (y mod 16 * 4) = Base64.digit (y' mod 16 * 4) ->
  x = x' /\ y = y'.
Proof.
  intros Hx Hy Hx' Hy' H1 H2 H3.
  split_byte x 4%N. split_byte x' 4%N. split_byte y 16%N. split_byte y' 16%N.
  apply digit_inj in H1; [|lia|lia]. apply digit_inj in H2; [|lia|lia].
  apply digit_inj in H3; [|lia|lia]. lia.
Qed.

Lemma sextets_3 (x y z x' y' z' : N) :
  (x < 256)%N -> (y < 256)%N -> (z < 256)%N ->
  (x' < 256)%N -> (y' < 256)%N -> (z' < 256)%N ->
  Base64.digit (x / 4) = Base64.digit (x' / 4) ->
  Base64.digit (x mod 4 * 16 + y / 16)
  = Base64.digit (x' mod 4 * 16 + y' / 16) ->
  Base64.digit (y mod 16 * 4 + z / 64)
  = Base64.digit (y' mod 16 * 4 + z' / 64) ->
  Base64.digit (z mod 64) = Base64.digit (z' mod 64) ->
  x = x' /\ y = y' /\ z = z'.
Proof.
  intros Hx Hy Hz Hx' Hy' Hz' H1 H2 H3 H4.
  split_byte x 4%N. split_byte x' 4%N. split_byte y 16%N. split_byte y' 16%N.
  split_byte z 64%N. split_byte z' 64%N.
  apply digit_inj in H1; [|lia|lia]. apply digit_inj in H2; [|lia|lia].
  apply digit_inj in H3; [|lia|lia]. apply digit_inj in H4; [|lia|lia]. lia.
Qed.

Lemma sextet_lt_1 (x : N) : (x < 256)%N -> (x mod 4 * 16 < 64)%N.
Proof. intros Hx. split_byte x 4%N. lia. Qed.

Lemma sextet_lt_2 (y : N) : (y < 256)%N -> (y mod 16 * 4 < 64)%N.
Proof. intros Hy. split_byte y 16%N. lia. Qed.

Lemma sextet_lt_3 (y z : N) :
  (y < 256)%N -> (z < 256)%N -> (y mod 16 * 4 + z / 64 < 64)%N.
Proof. intros Hy Hz. split_byte y 16%N. split_byte z 64%N. lia. Qed.

Lemma sextet_lt_4 (z : N) : (z mod 64 < 64)%N.
Proof. apply N.mod_lt. lia. Qed.

(** Induction on a buffer, three bytes at a time. *)
Lemma triples_ind (P : list Byte.byte -> Prop) :
  P [] -> (forall a, P [a]) -> (forall a b, P [a; b]) ->
  (forall a b c rest, P rest -> P (a :: b :: c :: rest)) ->
  forall bs, P bs.
Proof.
  intros H0 H1 H2 H3 bs.
  assert (H : P bs /\ (forall a, P (a :: bs)) /\ forall a b, P (a :: b :: bs)).
  { induction bs as [|c bs (IH0 & IH1 & IH2)]; [auto|].
    split; [apply IH1|]. split; [intros a; apply IH2|].
    intros a b. apply H3. exact IH0. }
  apply H.
Qed.

Lemma encode_chars_inj (bs bs' : list Byte.byte) :
  Base64.encode_chars bs = Base64.encode_chars bs' -> bs = bs'.
Proof.
  revert bs'. induction bs as [|a|a b|a b c rest IH] using triples_ind;
    intros bs' Heq;
    destruct bs' as [|a' [|b' [|c' rest']]]; cbn [Base64.encode_chars] in Heq;
    try discriminate; try reflexivity;
    pose proof (to_N_lt a) as Ha; try pose proof (to_N_lt a') as Ha';
    try pose proof (to_N_lt b) as Hb; try pose proof (to_N_lt b') as Hb';
    try pose proof (to_N_lt c) as Hc; try pose proof (to_N_lt c') as Hc'.
  - injection Heq as H1 H2. f_equal. apply to_N_inj.
    apply sextets_1; assumption.
  - injection Heq as _ _ H3. symmetry in H3.
    apply digit_not_pad in H3; [contradiction|]. apply sextet_lt_2. exact Hb'.
  - injection Heq as _ _ H3 _. symmetry in H3.
    apply digit_not_pad in H3; [contradiction|].
    apply sextet_lt_3; assumption.
  - injection Heq as _ _ H3.
    apply digit_not_pad in H3; [contradiction|]. apply sextet_lt_2. exact Hb.
  - injection Heq as H1 H2 H3.
    destruct (sextets_2 _ _ _ _ Ha Hb Ha' Hb' H1 H2 H3) as [Hx Hy].
    apply to_N_inj in Hx, Hy. congruence.
  - injection Heq as _ _ _ H4 _. symmetry in H4.
    apply digit_not_pad in H4; [contradiction|]. apply sextet_lt_4.
  - injection Heq as _ _ H3 _.
    apply digit_not_pad in H3; [contradiction|].
    apply sextet_lt_3; assumption.
  - injection Heq as _ _ _ H4 _.
    apply digit_not_pad in H4; [contradiction|]. apply sextet_lt_4.
  - injection Heq as H1 H2 H3 H4 Hrest.
    destruct (sextets_3 _ _ _ _ _ _ Ha Hb Hc Ha' Hb' Hc' H1 H2 H3 H4)
      as (Hx & Hy & Hz).
    apply to_N_inj in Hx, Hy, Hz. apply IH in Hrest. congruence.
Qed.

Lemma toString_base64_inj (b b' : Buffer) :
  toString_base64 b = toString_base64 b' -> b = b'.
Proof.
  unfold toString_base64, Base64.encode. intros Heq.
  apply encode_chars_inj.
  rewrite <- (list_ascii_of_string_of_list_ascii (Base64.encode_chars b)),
    <- (list_ascii_of_string_of_list_ascii (Base64.encode_chars b')).
  rewrite Heq. reflexivity.
Qed.

(** X18.  What [issue] reports to the coordinator (lines 143-149) loses
    nothing of what has been issued: two reports with the same base64
    strings are reports of the same CSR, the same private key and the
    same bytes of the certificate. *)
Theorem report_determines_material
    (uuid uuid' : option string) (csr privKey csr' privKey' : Buffer)
    (cert cert' : string) :
  Rpc_verifiedCallback uuid (toString_base64 csr) (toString_base64 privKey)
    (toString_base64 (Buffer_from cert))
  = Rpc_verifiedCallback uuid' (toString_base64 csr')
      (toString_base64 privKey') (toString_base64 (Buffer_from cert')) ->
  csr = csr' /\ privKey = privKey' /\ Buffer_from cert = Buffer_from cert'.
Proof.
  intros Heq. injection Heq as _ Hcsr Hkey Hcert.
  auto using toString_base64_inj.
Qed.

(** * The properties at work *)

Example base64_foobar :
  toString_base64 (Buffer_from "foobar") = "Zm9vYmFy"
  /\ toString_base64 (Buffer_from "fooba") = "Zm9vYmE="
  /\ toString_base64 (Buffer_from "foob") = "Zm9vYg=="
  /\ toString_base64 (Buffer_from "") = "".
Proof. repeat split; reflexivity. Qed.

(** The program, run to the end in the example environment that lets
    everything succeed. *)
Example main_happy :
  (main (Env0 := scripted (play happy)) None None (Some "worker-1")
        (boot 0 0%N both_verified [0; 1; 0; 1; 0; 1; 0; 1])).1
  = Resolved tt.
Proof. vm_compute. reflexivity. Qed.

Ltac find_entry := repeat first [left; reflexivity | right].

(** C1 at work: one poll after 5 seconds observes the value; the
    promise is fulfilled when the timer set 15 seconds later calls
    back. *)
Lemma waitUntilVerify_signals_after_observation_witness :
  exists w,
    watchers
      (run (Env0 := scripted (play happy))
           ([Elapse 5000; IntervalFires 0; DnsAnswers 0 0]
              ++ [DnsAnswers 0 0; Elapse 15000; TimeoutFires 0 0])
           (called 0 0%N example_record)) = [w]
    /\ w_promise w = Fulfilled.
Proof.
  destruct (waitUntilVerify_signals_after_observation
              (Env0 := scripted (play happy)) 0 0%N example_record)
    as [_ Hafter].
  refine (proj2 (proj2 (Hafter [Elapse 5000; IntervalFires 0; DnsAnswers 0 0]
                               (DnsAnswers 0 0) _ _)) 15000%N _).
  - vm_compute. intros (addr & result & _ & Hin & _).
    repeat (destruct Hin as [Hin|Hin]; [discriminate Hin|]). destruct Hin.
  - exists "acme.example.net",
      [["unrelated"]; ["ka-d-example.com"; "ka-d-www.example.com"]].
    split; [exists ["acme.example.net"]; split; vm_compute; find_entry|].
    split; vm_compute; find_entry.
  - vm_compute. discriminate.
Defined.

(** C6 at work: the first CNAME lookup fails and nothing else
    happens. *)
Lemma dns_failure_is_skipped_witness :
  let st := run (Env0 := scripted (play flaky_dns))
                [Elapse 5000; IntervalFires 0] (called 0 0%N example_record) in
  step (Env0 := scripted (play flaky_dns)) (DnsAnswers 0 0) st
  = State 1
      [Call (Dns_resolveCname "_acme-challenge.example.com");
       Reply (Dns_resolveCname "_acme-challenge.example.com")
             (Failure "ENOTFOUND")]
      5000%N
      [Watcher "_acme-challenge.example.com" "ka-d-example.com"
               (Some 10000%N) [] [] Unsettled]
      [] [].
Proof.
  intros st.
  exact (proj1 (dns_failure_is_skipped (Env0 := scripted (play flaky_dns))
                  st 0 0
                  (Watcher "_acme-challenge.example.com" "ka-d-example.com"
                     (Some 10000%N)
                     [Dns_resolveCname "_acme-challenge.example.com"] []
                     Unsettled)
                  (Dns_resolveCname "_acme-challenge.example.com")
                  "ENOTFOUND" 1 eq_refl eq_refl eq_refl)).
Defined.

(** C8 at work. *)
Lemma fetchDomains_failure_prevents_publication_witness :
  let r := main (Env0 := scripted (play no_assignment)) None None
                (Some "worker-1") (boot 0 0%N both_verified [0; 1]) in
  r.1 = Rejected "UNAVAILABLE"
  /\ forall u payload, ~ In (Call (Rpc_registerChallenges u payload)) (trace r.2).
Proof.
  apply (fetchDomains_failure_prevents_publication
           (Env0 := scripted (play no_assignment)) None None (Some "worker-1")
           0 0%N both_verified [0; 1] (Some "worker-1") "UNAVAILABLE").
  vm_compute. find_entry.
Defined.

Ltac first_dns01_at url token :=
  exists (Challenge "dns-01" url token);
  eexists [_], [_]; split; [reflexivity|];
  split; [reflexivity|]; repeat constructor; discriminate.

(** C5 at work: with two DNS-01 challenges on offer the first one is
    selected; and an authorization with HTTP-01 only ends the job before
    anything is published. *)
Lemma getChallenges_selects_first_dns01_witness :
  (exists cs,
      (await (Env0 := scripted (play happy)) (getChallenges example_domains)
             (boot 0 0%N [] [])).1
      = Resolved (Order "https://ca.example/order/1", cs)
      /\ Forall2 (fun a s => auth s = a /\ first_dns01 a (dns01 s))
                 (map authorized example_domains) cs)
  /\ let r := main (Env0 := scripted (play http_only)) None None
                   (Some "worker-1") (boot 0 0%N both_verified [0; 1]) in
     r.1 = Rejected no_dns01
     /\ forall u payload,
          ~ In (Call (Rpc_registerChallenges u payload)) (trace r.2).
Proof.
  split.
  - refine (proj1 (proj1 (getChallenges_selects_first_dns01
                            (Env0 := scripted (play happy)) None None None)
                         example_domains (boot 0 0%N [] [])
                         (Order "https://ca.example/order/1")
                         (map authorized example_domains) 1 2 eq_refl eq_refl) _).
    constructor; [|constructor; [|constructor]].
    + first_dns01_at "https://ca.example/chall/example.com/2" "d-example.com".
    + first_dns01_at "https://ca.example/chall/www.example.com/2"
                     "d-www.example.com".
  - refine (proj2 (getChallenges_selects_first_dns01
                     (Env0 := scripted (play http_only)) None None
                     (Some "worker-1"))
                  0 0%N both_verified [0; 1]
                  (Order "https://ca.example/order/1")
                  [authorized "example.com";
                   Authorization (Identifier "dns" "www.example.com")
                     [Challenge "http-01" "https://ca.example/chall/9" "h"]]
                  _ _).
    + vm_compute. find_entry.
    + apply Exists_cons_tl, Exists_cons_hd.
      repeat constructor. discriminate.
Defined.

(** The claim C3 as stated fails: for a batch of one record, the
    payload of the one call that [pushRecords] makes holds the value
    and not the key. *)
Lemma pushRecords_omits_keys :
  (exists k, pushRecords (Some "worker-1") [example_record]
             = Await (Rpc_registerChallenges (Some "worker-1")
                                             ["ka-d-example.com"]) k)
  /\ ~ publishes_full_batch [example_record] ["ka-d-example.com"].
Proof.
  split; [eexists; reflexivity|].
  intros Hall. destruct (Hall example_record) as [Hkey _]; [left; reflexivity|].
  destruct Hkey as [Hkey|[]]. discriminate Hkey.
Qed.

(** C3 as amended, at work: the values are sent, and a refusal ends the
    job before any DNS query. *)
Lemma pushRecords_sends_values_witness :
  let r := main (Env0 := scripted (play refused)) None None
                (Some "worker-1") (boot 0 0%N both_verified [0; 1]) in
  r.1 = Rejected "PERMISSION_DENIED"
  /\ forall c, In (Call c) (trace r.2) -> stage c <= 7.
Proof.
  refine (proj2 (pushRecords_sends_values
                   (Env0 := scripted (play refused)) None None
                   (Some "worker-1"))
                0 0%N both_verified [0; 1] (Some "worker-1")
                ["ka-d-example.com"; "ka-d-www.example.com"]
                "PERMISSION_DENIED" _).
  vm_compute. find_entry.
Defined.

(** C2 at work: in the example run the challenges are finalized, and
    both watchers have signalled. *)
Lemma finalize_after_all_verified_witness :
  let r := main (Env0 := scripted (play happy)) None None (Some "worker-1")
                (boot 0 0%N both_verified [0; 1; 0; 1; 0; 1; 0; 1]) in
  exists records,
    In (Call (Rpc_registerChallenges (Some "worker-1") (map value records)))
       (trace r.2)
    /\ length (watchers r.2) = length records
    /\ map w_k (watchers r.2) = map key records
    /\ map w_v (watchers r.2) = map value records
    /\ Forall (fun w => w_promise w = Fulfilled) (watchers r.2).
Proof.
  refine (proj2 (finalize_after_all_verified
                   (Env0 := scripted (play happy)) None None (Some "worker-1"))
                0 0%N both_verified [0; 1; 0; 1; 0; 1; 0; 1]
                (Acme_completeChallenge
                   (Challenge "dns-01"
                      "https://ca.example/chall/www.example.com/2"
                      "d-www.example.com")) _ I).
  vm_compute. find_entry.
Defined.

(** C4 at work: two challenges, two records, in order. *)
Lemma expected_records_one_per_domain_witness :
  exists records,
    (Promise_all (Env0 := scripted (play happy))
                 (map expectedRecord example_selected)
                 (boot 0 0%N [] [1; 0])).1 = Resolved records
    /\ length records = 2
    /\ map key records
       = ["_acme-challenge.example.com"; "_acme-challenge.www.example.com"].
Proof.
  destruct (expected_records_one_per_domain
              (Env0 := scripted (play happy)) example_selected
              (boot 0 0%N [] [1; 0])) as [Hsound Hlive].
  destruct Hlive as (records & Hres).
  - intros c w. eexists _, _. reflexivity.
  - simpl. lia.
  - exists records. split; [exact Hres|].
    destruct (Hsound records Hres) as (out & _ & _ & _ & Hds).
    exact (Hds example_domains eq_refl).
Defined.

(** C7 at work. *)
Lemma issue_builds_csr_and_reports_witness :
  trace (await (Env0 := scripted (play happy))
               (issue (Some "worker-1") example_domains
                      (Order "https://ca.example/order/1"))
               (boot 0 0%N [] [])).2
  = [Call (Acme_createCsr (Some "example.com") ["www.example.com"]);
     Reply (Acme_createCsr (Some "example.com") ["www.example.com"])
           (Success ([x66%byte; x6f%byte], [x6f%byte]));
     Call (Acme_finalizeOrder (Order "https://ca.example/order/1") [x6f%byte]);
     Reply (Acme_finalizeOrder (Order "https://ca.example/order/1") [x6f%byte])
           (Success tt);
     Call (Acme_getCertificate (Order "https://ca.example/order/1"));
     Reply (Acme_getCertificate (Order "https://ca.example/order/1"))
           (Success "foobar");
     Call (Rpc_verifiedCallback (Some "worker-1") "bw==" "Zm8=" "Zm9vYmFy");
     Reply (Rpc_verifiedCallback (Some "worker-1") "bw==" "Zm8=" "Zm9vYmFy")
           (Success tt)].
Proof.
  exact (proj1 (proj2 (issue_builds_csr_and_reports
                         (Env0 := scripted (play happy)) (Some "worker-1")
                         "example.com" ["www.example.com"]
                         (Order "https://ca.example/order/1")
                         (boot 0 0%N [] []))
                      [x66%byte; x6f%byte] [x6f%byte] "foobar" 1 2 3
                      eq_refl eq_refl eq_refl)).
Defined.

(** C10 at work: no domain is assigned and the worker runs through. *)
Lemma empty_domain_set_is_not_rejected_witness :
  let r := main (Env0 := scripted (play nothing_assigned)) None None
                (Some "worker-1") (boot 0 0%N both_verified [0; 1]) in
  In (Call (Rpc_registerChallenges (Some "worker-1") [])) (trace r.2)
  /\ In (Call (Acme_createCsr None [])) (trace r.2)
  /\ (forall c, In (Call c) (trace r.2) -> ~ dns c /\ ~ finalizing c)
  /\ watchers r.2 = []
  /\ events r.2 = both_verified
  /\ choices r.2 = [0; 1]
  /\ r.1 <> Pending.
Proof.
  exact (proj2 (empty_domain_set_is_not_rejected
                  (Env0 := scripted (play nothing_assigned)) None None
                  (Some "worker-1") 0 1 2 3 4 5 6 7 0%N both_verified [0; 1]
                  [x2d%byte] (Registration "ops@example.com")
                  (Order "https://ca.example/order/1")
                  eq_refl eq_refl eq_refl eq_refl eq_refl eq_refl eq_refl)).
Defined.

(** The delay at work: in the example run the promise is fulfilled exactly 20
    seconds after the call. *)
Lemma waitUntilVerify_needs_twenty_seconds_witness :
  let st := run (Env0 := scripted (play happy))
                [Elapse 5000; IntervalFires 0; DnsAnswers 0 0; DnsAnswers 0 0;
                 Elapse 15000; TimeoutFires 0 0]
                (called 0 7%N example_record) in
  now st = 20007%N /\ (7 + 20 * 1000 <= now st)%N.
Proof.
  intros st. split; [reflexivity|].
  destruct (waitUntilVerify_needs_twenty_seconds
              (Env0 := scripted (play happy)) 0 7%N example_record
              [Elapse 5000; IntervalFires 0; DnsAnswers 0 0; DnsAnswers 0 0;
               Elapse 15000; TimeoutFires 0 0])
    as (w & Hw & _ & _ & Hful).
  apply Hful. injection Hw as <-. reflexivity.
Defined.

(** The order of the workflow at work: in the run in which no domain
    is assigned, the key is created before the domains are fetched. *)
Lemma startWorker_never_goes_back_witness :
  let r := main (Env0 := scripted (play no_assignment)) None None
                (Some "worker-1") (boot 0 0%N [] []) in
  trace r.2
  = firstn 1 (trace r.2) ++ Call Acme_createPrivateKey
      :: firstn 5 (skipn 2 (trace r.2))
      ++ Call (Rpc_fetchDomains (Some "worker-1")) :: skipn 8 (trace r.2)
  /\ stage Acme_createPrivateKey < stage (Rpc_fetchDomains (Some "worker-1")).
Proof.
  intros r.
  assert (Htr : trace r.2
                = firstn 1 (trace r.2) ++ Call Acme_createPrivateKey
                    :: firstn 5 (skipn 2 (trace r.2))
                    ++ Call (Rpc_fetchDomains (Some "worker-1"))
                    :: skipn 8 (trace r.2))
    by (vm_compute; reflexivity).
  split; [exact Htr|].
  apply (startWorker_never_goes_back
           (Env0 := scripted (play no_assignment)) None None (Some "worker-1")
           0 0%N [] [] _ _ _ _ _ Htr).
  exact I.
Defined.

(** In the example run the account is created for the address that the
    coordinator has given. *)
Lemma account_is_for_registered_email_witness :
  exists reg,
    In (Reply (Rpc_registerClient (Some "worker-1")) (Success reg))
       (firstn 5 (trace happy_run.2))
    /\ ["mailto:ops@example.com"] = [("mailto:" ++ email reg)%string].
Proof.
  refine (proj2 (proj2 (account_is_for_registered_email
                   (Env0 := scripted (play happy)) None None (Some "worker-1")
                   0 0%N both_verified [0; 1; 0; 1; 0; 1; 0; 1])
                (firstn 5 (trace happy_run.2)) true ["mailto:ops@example.com"]
                (skipn 6 (trace happy_run.2)) _)).
  vm_compute. reflexivity.
Defined.

(** In the example run the order is created for the two domains
    assigned. *)
Lemma order_is_for_assigned_domains_witness :
  exists a,
    In (Reply (Rpc_fetchDomains (Some "worker-1")) (Success a))
       (firstn 9 (trace happy_run.2))
    /\ [Identifier "dns" "example.com"; Identifier "dns" "www.example.com"]
       = map (fun d => Identifier "dns" d) (domains a).
Proof.
  refine (proj1 (proj2 (order_is_for_assigned_domains
                   (Env0 := scripted (play happy)) None None (Some "worker-1")
                   0 0%N both_verified [0; 1; 0; 1; 0; 1; 0; 1]))
                (firstn 9 (trace happy_run.2))
                [Identifier "dns" "example.com";
                 Identifier "dns" "www.example.com"]
                (skipn 10 (trace happy_run.2)) _).
  vm_compute. reflexivity.
Defined.

(** In the example run the two values sent are the key authorizations
    of the two authorizations. *)
Lemma published_values_are_key_authorizations_witness :
  Some "worker-1" = Some "worker-1"
  /\ exists o auths,
       In (Reply (Acme_getAuthorizations o) (Success auths))
          (firstn 17 (trace happy_run.2))
       /\ Forall2 (authorizes (firstn 17 (trace happy_run.2))) auths
                  ["ka-d-example.com"; "ka-d-www.example.com"].
Proof.
  refine (proj2 (published_values_are_key_authorizations
                   (Env0 := scripted (play happy)) None None (Some "worker-1")
                   0 0%N both_verified [0; 1; 0; 1; 0; 1; 0; 1])
                (firstn 17 (trace happy_run.2)) (Some "worker-1")
                ["ka-d-example.com"; "ka-d-www.example.com"]
                (skipn 18 (trace happy_run.2)) _).
  vm_compute. reflexivity.
Defined.

(** In the example run the TXT query follows a CNAME answer. *)
Lemma dns_queries_are_for_published_records_witness :
  exists k addresses,
    In (Reply (Dns_resolveCname k) (Success addresses))
       (firstn 23 (trace happy_run.2))
    /\ In "acme.example.net" addresses.
Proof.
  refine (proj2 (dns_queries_are_for_published_records
                   (Env0 := scripted (play happy)) None None (Some "worker-1")
                   0 0%N both_verified [0; 1; 0; 1; 0; 1; 0; 1])
                (firstn 23 (trace happy_run.2)) "acme.example.net"
                (skipn 24 (trace happy_run.2)) _).
  vm_compute. reflexivity.
Defined.

(** In the example run both values have been seen in DNS when the
    first challenge is verified. *)
Lemma finalize_after_values_observed_witness :
  exists o auths payload,
    In (Reply (Acme_getAuthorizations o) (Success auths))
       (firstn 32 (trace happy_run.2))
    /\ In (authorized "example.com") auths
    /\ first_dns01 (authorized "example.com")
         (Challenge "dns-01" "https://ca.example/chall/example.com/2"
                    "d-example.com")
    /\ In (Reply (Rpc_registerChallenges (Some "worker-1") payload) (Success tt))
          (firstn 32 (trace happy_run.2))
    /\ Forall2 (fun a v => authorizes (firstn 32 (trace happy_run.2)) a v
                           /\ observed (challenge_key a) v
                                       (firstn 32 (trace happy_run.2)))
               auths payload.
Proof.
  refine (finalize_after_values_observed
            (Env0 := scripted (play happy)) None None (Some "worker-1")
            0 0%N both_verified [0; 1; 0; 1; 0; 1; 0; 1]
            (firstn 32 (trace happy_run.2)) (skipn 33 (trace happy_run.2))
            (authorized "example.com")
            (Challenge "dns-01" "https://ca.example/chall/example.com/2"
                       "d-example.com") _).
  vm_compute. reflexivity.
Defined.

(** In the example run the second challenge is completed after it has
    been verified. *)
Lemma finalize_steps_follow_each_other_witness :
  exists a,
    In (Reply (Acme_verifyChallenge a
                 (Challenge "dns-01" "https://ca.example/chall/www.example.com/2"
                            "d-www.example.com")) (Success tt))
       (firstn 37 (trace happy_run.2)).
Proof.
  refine (proj1 (finalize_steps_follow_each_other
                   (Env0 := scripted (play happy)) None None (Some "worker-1")
                   0 0%N both_verified [0; 1; 0; 1; 0; 1; 0; 1])
                (firstn 37 (trace happy_run.2))
                (Challenge "dns-01" "https://ca.example/chall/www.example.com/2"
                           "d-www.example.com")
                (skipn 38 (trace happy_run.2)) _).
  vm_compute. reflexivity.
Defined.

(** In the example run both challenges are valid when the CSR is asked
    for. *)
Lemma issue_after_all_challenges_valid_witness :
  (exists a,
      In (Reply (Rpc_fetchDomains (Some "worker-1")) (Success a))
         (firstn 44 (trace happy_run.2))
      /\ Some "example.com" = head (domains a)
      /\ ["www.example.com"] = drop 1 (domains a))
  /\ exists o auths,
       In (Reply (Acme_getAuthorizations o) (Success auths))
          (firstn 44 (trace happy_run.2))
       /\ Forall (fun a => exists ch,
                    first_dns01 a ch
                    /\ In (Reply (Acme_waitForValidStatus ch) (Success tt))
                          (firstn 44 (trace happy_run.2)))
                 auths.
Proof.
  refine (issue_after_all_challenges_valid
            (Env0 := scripted (play happy)) None None (Some "worker-1")
            0 0%N both_verified [0; 1; 0; 1; 0; 1; 0; 1]
            (firstn 44 (trace happy_run.2)) (skipn 45 (trace happy_run.2))
            (Some "example.com") ["www.example.com"] _).
  vm_compute. reflexivity.
Defined.

(** In the example run the report holds the CSR, the key and the
    certificate that have been obtained. *)
Lemma certificate_is_reported_as_obtained_witness :
  Some "worker-1" = Some "worker-1"
  /\ exists cn alts privKey csr o cert,
       In (Reply (Acme_createCsr cn alts) (Success (privKey, csr)))
          (firstn 50 (trace happy_run.2))
       /\ In (Reply (Acme_getCertificate o) (Success cert))
             (firstn 50 (trace happy_run.2))
       /\ "bw==" = toString_base64 csr
       /\ "Zm8=" = toString_base64 privKey
       /\ "Zm9vYmFy" = toString_base64 (Buffer_from cert).
Proof.
  refine (proj2 (proj2 (certificate_is_reported_as_obtained
                   (Env0 := scripted (play happy)) None None (Some "worker-1")
                   0 0%N both_verified [0; 1; 0; 1; 0; 1; 0; 1]))
                (firstn 50 (trace happy_run.2)) (Some "worker-1")
                "bw==" "Zm8=" "Zm9vYmFy" (skipn 51 (trace happy_run.2)) _).
  vm_compute. reflexivity.
Defined.


(** In the example run in which the first key authorization fails,
    nothing is published. *)
Lemma key_authorization_failure_prevents_publication_witness :
  let r := unhappy_run 6 "badNonce" in
  (exists ch' e',
      r.1 = Rejected e'
      /\ In (Reply (Acme_getChallengeKeyAuthorization ch') (Failure e'))
            (trace r.2))
  /\ forall c', In (Call c') (trace r.2) -> stage c' <= 6.
Proof.
  refine (key_authorization_failure_prevents_publication
            (Env0 := scripted (failing 6 "badNonce" (play happy)))
            None None (Some "worker-1") 0 0%N both_verified
            [0; 1; 0; 1; 0; 1; 0; 1]
            (Challenge "dns-01" "https://ca.example/chall/example.com/2"
                       "d-example.com")
            "badNonce" _).
  vm_compute. find_entry.
Defined.

(** In the example run in which the first challenge cannot be
    completed, no CSR is asked for. *)
Lemma finalize_failure_prevents_issuance_witness :
  let r := unhappy_run 15 "unauthorized" in
  (exists c' e',
      finalizing c' /\ r.1 = Rejected e'
      /\ In (Reply c' (Failure e')) (trace r.2))
  /\ forall c', In (Call c') (trace r.2) -> stage c' <= 9.
Proof.
  refine (finalize_failure_prevents_issuance
            (Env0 := scripted (failing 15 "unauthorized" (play happy)))
            None None (Some "worker-1") 0 0%N both_verified
            [0; 1; 0; 1; 0; 1; 0; 1]
            (Acme_completeChallenge
               (Challenge "dns-01" "https://ca.example/chall/example.com/2"
                          "d-example.com"))
            "unauthorized" I _).
  vm_compute. find_entry.
Defined.

(** The barrier at work: with the two records of the example, whose
    values DNS shows, one poll each after 5 seconds and the timers 15
    seconds later resolve the barrier, 20 seconds after the start. *)
Lemma barrier_resolves_when_dns_shows_values_witness :
  let records := [example_record;
                  {| key := "_acme-challenge.www.example.com";
                     value := "ka-d-www.example.com" |}] in
  let st := boot (W := nat) 0 0%N (polling_once 2 5000 15000) [] in
  let b := Promise_all_watchers (Env0 := scripted (play happy))
             (map (waitUntilVerify (now st)) records) st in
  b.1 = Resolved tt
  /\ Forall (fun w => w_promise w = Fulfilled) (watchers b.2)
  /\ (now b.2 <= now st + 5000 + 15000)%N.
Proof.
  intros records st.
  apply (barrier_resolves_when_dns_shows_values
           (Env0 := scripted (play happy)) records st 5000 15000 []).
  - repeat constructor; apply happy_shown; simpl; auto.
  - lia.
  - lia.
  - reflexivity.
Defined.

(** The pool of [finalize] at work: with the two challenges of the
    example, and the second one served first, [Promise.all] resolves
    with two results. *)
Lemma finalize_completes_in_any_order_witness :
  exists rs,
    (Promise_all (Env0 := scripted (play happy))
       (map finalize example_selected)
       (boot 0 0%N [] [1; 0; 1; 0; 1; 0])).1 = Resolved rs
    /\ length rs = length example_selected.
Proof.
  apply (finalize_completes_in_any_order
           (Env0 := scripted (play happy)) example_selected
           (boot 0 0%N [] [1; 0; 1; 0; 1; 0])).
  - exact happy_accepting_finalizing.
  - simpl. lia.
Defined.

(** The whole job at work: the example environment cooperates, so that
    the job completes for the domains that it assigns. *)
Lemma job_completes_when_all_cooperate_witness :
  exists n,
    forall (cs : list nat) (rest : list event),
      4 * n <= length cs ->
      let r := main (Env0 := scripted (play happy)) None None
                    (Some "worker-1")
                    (boot 0 0%N (polling_once n 5000 15000 ++ rest) cs) in
      r.1 = Resolved tt
      /\ exists csr64 key64 cert64,
           In (Reply (Rpc_verifiedCallback (Some "worker-1")
                        csr64 key64 cert64) (Success tt)) (trace r.2).
Proof.
  apply (job_completes_when_all_cooperate
           (Env0 := scripted (play happy)) None None (Some "worker-1")
           0 0%N 5000 15000).
  - exact happy_cooperative.
  - lia.
  - lia.
Defined.

(** The encoding at work: the report of the example is that of the
    two bytes of its CSR, of the byte of its key and of the six bytes
    of its certificate. *)
Lemma report_determines_material_witness :
  Rpc_verifiedCallback (Some "worker-1") (toString_base64 (Buffer_from "fo"))
    (toString_base64 (Buffer_from "o")) (toString_base64 (Buffer_from "foobar"))
  = Rpc_verifiedCallback (Some "worker-1") "Zm8=" "bw==" "Zm9vYmFy"
  /\ Buffer_from "fo" = [x66%byte; x6f%byte]
  /\ Buffer_from "o" = [x6f%byte]
  /\ Buffer_from "foobar" = Buffer_from "foobar".
Proof.
  split; [reflexivity|].
  apply (report_determines_material (Some "worker-1") (Some "worker-1")
           (Buffer_from "fo") (Buffer_from "o")
           [x66%byte; x6f%byte] [x6f%byte] "foobar" "foobar").
  reflexivity.
Defined.
